(** * convert_shorqasm: macro expansion and gate lowering of a circuit text

    A shallow embedding of [convert_shorqasm.py].

    - Text is a list of characters.  A character is a code point below 256
      (Rocq's [ascii]); the classes [\s], [\w] and the line boundaries of
      [str.splitlines] are Python's for these code points.
    - The regular expressions of the script are terms of a small syntax
      ([regex]) run by a backtracking matcher that lists the ways a pattern
      matches in the order in which Python's [re] tries them.
    - [re.match], [re.search] and [re.sub] are built on that matcher. *)

From Stdlib Require Import List Ascii String Bool Arith Lia ZArith.
Import ListNotations.

Set Implicit Arguments.

Local Open Scope list_scope.

(** ** Text *)

Definition text := list ascii.

(** A literal of the script. *)
Definition T (s : string) : text := list_ascii_of_string s.

Definition NL : ascii := "010"%char.

Definition text_eqb (a b : text) : bool :=
  if list_eq_dec ascii_dec a b then true else false.

(** ** Character classes *)

Module Chars.

Definition code (c : ascii) : N := N_of_ascii c.

Definition between (lo hi : N) (c : ascii) : bool :=
  (N.leb lo (code c) && N.leb (code c) hi)%bool.

(** [str.isspace], which is also the class [\s]. *)
Definition is_space (c : ascii) : bool :=
  (between 9 13 c || between 28 32 c || between 133 133 c
   || between 160 160 c)%bool.

(** The class [\w]. *)
Definition is_word (c : ascii) : bool :=
  (between 48 57 c || between 65 90 c || between 95 95 c
   || between 97 122 c || between 170 170 c || between 178 179 c
   || between 181 181 c || between 185 186 c || between 188 190 c
   || between 192 214 c || between 216 246 c || between 248 255 c)%bool.

(** The characters at which [str.splitlines] cuts. *)
Definition is_linebreak (c : ascii) : bool :=
  (between 10 13 c || between 28 30 c || between 133 133 c)%bool.

Definition is_char (x : ascii) (c : ascii) : bool := Ascii.eqb c x.
Definition not_char (x : ascii) (c : ascii) : bool := negb (Ascii.eqb c x).

(** [[\w\[\]0-9]] *)
Definition is_qref (c : ascii) : bool :=
  (is_word c || is_char "[" c || is_char "]" c)%bool.

(** [[\w,\s]] *)
Definition is_qlist (c : ascii) : bool :=
  (is_word c || is_char "," c || is_space c)%bool.

(** [[\w\[\]0-9_,\s]] *)
Definition is_args (c : ascii) : bool :=
  (is_word c || is_char "[" c || is_char "]" c || is_char "," c || is_space c)%bool.

(** One of the two sign characters. *)
Definition is_sign (c : ascii) : bool := (is_char "+" c || is_char "-" c)%bool.

End Chars.

(** ** The [str] methods the script uses *)

Module Str.

Fixpoint lstrip (s : text) : text :=
  match s with
  | c :: s' => if Chars.is_space c then lstrip s' else s
  | [] => []
  end.

Definition rstrip (s : text) : text := rev (lstrip (rev s)).

(** [s.strip()] *)
Definition strip (s : text) : text := lstrip (rstrip s).

(** The truth value of [s.strip()]. *)
Definition nonblank (s : text) : bool := negb (forallb Chars.is_space s).

(** [s.split(sep)] for a separator of one character. *)
Fixpoint split (sep : ascii) (s : text) : list text :=
  match s with
  | [] => [[]]
  | c :: s' =>
      if Ascii.eqb c sep then [] :: split sep s'
      else match split sep s' with
           | w :: ws => (c :: w) :: ws
           | [] => [[c]]
           end
  end.

(** [s.count(c)] for one character. *)
Definition count (c : ascii) (s : text) : Z :=
  Z.of_nat (List.length (filter (Ascii.eqb c) s)).

(** [sep.join(ls)] *)
Fixpoint join (sep : text) (ls : list text) : text :=
  match ls with
  | [] => []
  | [l] => l
  | l :: ls' => l ++ sep ++ join sep ls'
  end.

(** [s.splitlines()]: cut after every line boundary, CR LF counting as
    one; no empty last line. [cur] is the line being read, reversed. *)
Fixpoint splitlines_go (cur : text) (s : text) : list text :=
  match s with
  | [] => match cur with [] => [] | _ => [rev cur] end
  | c :: s' =>
      if Chars.is_linebreak c then
        match s' with
        | d :: s'' =>
            if (Ascii.eqb c "013" && Ascii.eqb d "010")%bool
            then rev cur :: splitlines_go [] s''
            else rev cur :: splitlines_go [] s'
        | [] => [rev cur]
        end
      else splitlines_go (c :: cur) s'
  end.

Definition splitlines (s : text) : list text := splitlines_go [] s.

(** [s[1:-1]] *)
Definition slice_1_m1 (A : Type) (l : list A) : list A :=
  removelast (tl l).

End Str.

(** ** Regular expressions *)

Module Re.

(** The fragment of the pattern language the script uses.  Repetition is
    applied to character classes only, which is all the patterns need. *)
Inductive regex : Type :=
| Lit (s : text)                  (* literal text *)
| Chr (p : ascii -> bool)         (* one character of a class *)
| Star (p : ascii -> bool)        (* [class]*, greedy *)
| Opt (r : regex)                 (* r?, greedy *)
| Grp (n : nat) (r : regex)       (* capturing group number n *)
| Cat (r1 r2 : regex)             (* r1 r2 *)
| Bos                             (* ^ *)
| Bol                             (* ^ under re.MULTILINE *)
| Eos                             (* $ *)
| Wordb.                          (* \b *)

(** [class]+ *)
Definition Plus (p : ascii -> bool) : regex := Cat (Chr p) (Star p).

(** A point of a match: the character before the cursor (none at the
    start of the string), the text from the cursor on, how many
    characters the match has taken, and the groups set so far. *)
Record mstate : Type := MState {
  ms_prev : option ascii;
  ms_rest : text;
  ms_pos : nat;
  ms_caps : list (nat * text)
}.

Definition start (prev : option ascii) (s : text) : mstate :=
  MState prev s 0 [].

Definition advance (c : ascii) (s' : text) (st : mstate) : mstate :=
  MState (Some c) s' (S (ms_pos st)) (ms_caps st).

Fixpoint lit_match (l : text) (st : mstate) : option mstate :=
  match l with
  | [] => Some st
  | c :: l' =>
      match ms_rest st with
      | d :: s' =>
          if Ascii.eqb c d then lit_match l' (advance d s' st) else None
      | [] => None
      end
  end.

(** The states after a run of class characters, the longest run first. *)
Fixpoint star_match (p : ascii -> bool) (prev : option ascii) (s : text)
    (pos : nat) (caps : list (nat * text)) : list mstate :=
  match s with
  | c :: s' =>
      if p c
      then star_match p (Some c) s' (S pos) caps ++ [MState prev s pos caps]
      else [MState prev s pos caps]
  | [] => [MState prev s pos caps]
  end.

Definition set_group (n : nat) (from : mstate) (to : mstate) : mstate :=
  MState (ms_prev to) (ms_rest to) (ms_pos to)
    ((n, firstn (ms_pos to - ms_pos from) (ms_rest from)) :: ms_caps to).

Definition opt_word (o : option ascii) : bool :=
  match o with Some c => Chars.is_word c | None => false end.

Definition at_wordb (st : mstate) : bool :=
  xorb (opt_word (ms_prev st)) (opt_word (hd_error (ms_rest st))).

Definition at_bol (st : mstate) : bool :=
  match ms_prev st with
  | None => true
  | Some c => Ascii.eqb c NL
  end.

(** [$] without re.MULTILINE: at the end, or before a last newline. *)
Definition at_eos (st : mstate) : bool :=
  match ms_rest st with
  | [] => true
  | [c] => Ascii.eqb c NL
  | _ => false
  end.

Definition guard (b : bool) (st : mstate) : list mstate :=
  if b then [st] else [].

(** All the ways [r] matches from [st], in the order of the backtracking
    search: the head of the list is the match [re] reports. *)
Fixpoint rmatch (r : regex) (st : mstate) : list mstate :=
  match r with
  | Lit l => match lit_match l st with Some st' => [st'] | None => [] end
  | Chr p =>
      match ms_rest st with
      | c :: s' => if p c then [advance c s' st] else []
      | [] => []
      end
  | Star p => star_match p (ms_prev st) (ms_rest st) (ms_pos st) (ms_caps st)
  | Opt r1 => rmatch r1 st ++ [st]
  | Grp n r1 => map (set_group n st) (rmatch r1 st)
  | Cat r1 r2 => flat_map (rmatch r2) (rmatch r1 st)
  | Bos => guard (match ms_prev st with None => true | _ => false end) st
  | Bol => guard (at_bol st) st
  | Eos => guard (at_eos st) st
  | Wordb => guard (at_wordb st) st
  end.

(** The match at one position. *)
Definition match_at (r : regex) (prev : option ascii) (s : text)
  : option mstate := hd_error (rmatch r (start prev s)).

(** The first match at one position that takes at least one character. *)
Definition match_at_nonempty (r : regex) (prev : option ascii) (s : text)
  : option mstate :=
  hd_error (filter (fun m => negb (ms_pos m =? 0)) (rmatch r (start prev s))).

(** [m.group(n)]; [None] for a group that took no part in the match. *)
Fixpoint assoc (n : nat) (caps : list (nat * text)) : option text :=
  match caps with
  | [] => None
  | (k, v) :: caps' => if k =? n then Some v else assoc n caps'
  end.

Definition group (n : nat) (m : mstate) : option text := assoc n (ms_caps m).

(** A group known to be set: the text, empty when unset. *)
Definition group_text (n : nat) (m : mstate) : text :=
  match group n m with Some t => t | None => [] end.

(** [re.match(r, s)] *)
Definition re_match (r : regex) (s : text) : option mstate :=
  match_at r None s.

(** [re.search(r, s)]: the match at the leftmost position that has one. *)
Fixpoint search_from (r : regex) (prev : option ascii) (s : text)
  : option mstate :=
  match match_at r prev s with
  | Some m => Some m
  | None =>
      match s with
      | c :: s' => search_from r (Some c) s'
      | [] => None
      end
  end.

Definition re_search (r : regex) (s : text) : option mstate :=
  search_from r None s.

(** [re.sub] with a replacement function.  [skip] counts the characters
    of the last match still to pass over.  After an empty match the
    search resumes at the same position but must take a character
    there (CPython's [must_advance]). *)
Fixpoint sub_go (r : regex) (repl : mstate -> text) (prev : option ascii)
    (s : text) (skip : nat) : text :=
  match skip with
  | S k =>
      match s with
      | c :: s' => sub_go r repl (Some c) s' k
      | [] => []
      end
  | 0 =>
      match match_at r prev s with
      | None =>
          match s with
          | c :: s' => c :: sub_go r repl (Some c) s' 0
          | [] => []
          end
      | Some m =>
          if ms_pos m =? 0 then
            repl m ++
            match match_at_nonempty r prev s with
            | None =>
                match s with
                | c :: s' => c :: sub_go r repl (Some c) s' 0
                | [] => []
                end
            | Some m2 =>
                repl m2 ++
                match s with
                | c :: s' => sub_go r repl (Some c) s' (ms_pos m2 - 1)
                | [] => []
                end
            end
          else
            repl m ++
            match s with
            | c :: s' => sub_go r repl (Some c) s' (ms_pos m - 1)
            | [] => []
            end
      end
  end.

Definition re_sub_fun (r : regex) (repl : mstate -> text) (s : text) : text :=
  sub_go r repl None s 0.

End Re.

(** ** Outcomes *)

(** What stops the script short of a result. *)
Inductive failure : Type :=
| ValueError          (* unpacking an empty list of lines *)
| ReplEscape.         (* a backslash in a replacement text: [re] then reads
                         the text as a template (escapes, group references)
                         or raises [re.error]; that reading is not embedded,
                         such a call has no result here *)

Inductive result (A : Type) : Type :=
| Done (a : A)
| Raised (e : failure)
| OutOfFuel.

Arguments Done {A} a.
Arguments Raised {A} e.
Arguments OutOfFuel {A}.

Definition bind (A B : Type) (x : result A) (f : A -> result B) : result B :=
  match x with
  | Done a => f a
  | Raised e => Raised e
  | OutOfFuel => OutOfFuel
  end.

Notation "x <- c1 ;; c2" := (bind c1 (fun x => c2))
  (at level 61, c1 at next level, right associativity).
Notation "' pat <- c1 ;; c2" := (bind c1 (fun x => match x with pat => c2 end))
  (at level 61, pat pattern, c1 at next level, right associativity).

(** ** Insertion-ordered dictionaries with text keys *)

Module Dict.

Definition t (V : Type) : Type := list (text * V).

Fixpoint get (V : Type) (k : text) (d : t V) : option V :=
  match d with
  | [] => None
  | (k', v) :: d' => if text_eqb k' k then Some v else get k d'
  end.

Definition mem (V : Type) (k : text) (d : t V) : bool :=
  match get k d with Some _ => true | None => false end.

(** [d[k] = v]: a key already present keeps its place. *)
Fixpoint set (V : Type) (k : text) (v : V) (d : t V) : t V :=
  match d with
  | [] => [(k, v)]
  | (k', v') :: d' =>
      if text_eqb k' k then (k', v) :: d' else (k', v') :: set k v d'
  end.

(** [dict(pairs)] *)
Definition of_pairs (V : Type) (ps : list (text * V)) : t V :=
  fold_left (fun d kv => set (fst kv) (snd kv) d) ps [].

End Dict.

(** ** The script *)

Module Script.
Import Chars Re.

Infix ">>" := Cat (at level 60, right associativity).

(** *** 2. The gate definitions *)

Record gate_def : Type := GateDef {
  params : list text;
  qubits : list text;
  body : list text
}.

(** [\s*gate\s+(\w+)\s*(\([^)]*\))?\s*([\w,\s]+)\s*\{] *)
Definition header_pat : regex :=
  Star is_space >> Lit (T "gate") >> Plus is_space >> Grp 1 (Plus is_word)
  >> Star is_space
  >> Opt (Grp 2 (Lit (T "(") >> Star (not_char ")") >> Lit (T ")")))
  >> Star is_space >> Grp 3 (Plus is_qlist) >> Star is_space
  >> Lit (T "{").

(** The inner loop: take lines until the braces balance, or to the end. *)
Fixpoint capture (brace : Z) (ls : list text) : list text * list text :=
  match ls with
  | [] => ([], [])
  | l :: ls' =>
      let brace' := (brace + Str.count "{" l - Str.count "}" l)%Z in
      if (brace' =? 0)%Z then ([l], ls')
      else let (blk, rest) := capture brace' ls' in (l :: blk, rest)
  end.

Definition split_strip (s : text) : list text :=
  map Str.strip (Str.split "," s).

Definition def_of (m : mstate) (blk : list text) : gate_def :=
  GateDef
    (match group 2 m with
     | Some g => split_strip (Str.slice_1_m1 g)
     | None => []
     end)
    (split_strip (group_text 3 m))
    (map Str.strip (filter Str.nonblank (Str.slice_1_m1 blk))).

(** The outer loop.  Besides the definitions it returns the lines it
    steps over one at a time (the [else] branch), which are the lines the
    parser leaves outside every definition block; the script does not
    keep them. *)
Fixpoint parse_loop (fuel : nat) (ls : list text)
    (defs : Dict.t gate_def) (outside : list text)
  : Dict.t gate_def * list text :=
  match fuel with
  | 0 => (defs, rev outside)
  | S fuel' =>
      match ls with
      | [] => (defs, rev outside)
      | line :: ls' =>
          match re_match header_pat line with
          | Some m =>
              let (blk, rest) := capture 0 ls in
              parse_loop fuel' rest
                (Dict.set (group_text 1 m) (def_of m blk) defs) outside
          | None => parse_loop fuel' ls' defs (line :: outside)
          end
      end
  end.

Definition parse (lines : list text) : Dict.t gate_def * list text :=
  parse_loop (List.length lines) lines [] [].

Definition gate_defs (txt : text) : Dict.t gate_def :=
  fst (parse (Str.splitlines txt)).

(** *** 3. Removing the definition blocks *)

(** [(?s)^\s*gate\s+\w+\s*(\([^)]*\))?\s*[\w,\s]+\s*\{[^}]*\}\s*],
    compiled with re.MULTILINE. *)
Definition block_pat : regex :=
  Bol >> Star is_space >> Lit (T "gate") >> Plus is_space >> Plus is_word
  >> Star is_space
  >> Opt (Grp 1 (Lit (T "(") >> Star (not_char ")") >> Lit (T ")")))
  >> Star is_space >> Plus is_qlist >> Star is_space
  >> Lit (T "{") >> Star (not_char "}") >> Lit (T "}") >> Star is_space.

Definition remove_gate_blocks (qasm : text) : text :=
  re_sub_fun block_pat (fun _ => []) qasm.

(** *** 4. cp(theta) and p(theta) *)

(** [cp\(([^)]+)\)\s+([\w\[\]0-9]+)\s*,\s*([\w\[\]0-9]+)\s*;] *)
Definition cp_pattern : regex :=
  Lit (T "cp(") >> Grp 1 (Plus (not_char ")")) >> Lit (T ")")
  >> Plus is_space >> Grp 2 (Plus is_qref) >> Star is_space
  >> Lit (T ",") >> Star is_space >> Grp 3 (Plus is_qref)
  >> Star is_space >> Lit (T ";").

Definition cp_sub (m : mstate) : text :=
  let theta := group_text 1 m in
  let ctrl := group_text 2 m in
  let tgt := group_text 3 m in
  let half := T "((" ++ theta ++ T ")/2)" in
  Str.join [NL]
    [ T "u(0,0," ++ half ++ T ") " ++ tgt ++ T ";";
      T "cx " ++ ctrl ++ T "," ++ tgt ++ T ";";
      T "u(0,0,-" ++ half ++ T ") " ++ tgt ++ T ";";
      T "cx " ++ ctrl ++ T "," ++ tgt ++ T ";" ].

Definition cp_to_native (line : text) : text :=
  match re_search cp_pattern line with
  | None => line
  | Some _ => re_sub_fun cp_pattern cp_sub line
  end.

(** [p\(([^)]+)\)\s+([\w\[\]0-9]+)\s*;] *)
Definition p_pattern : regex :=
  Lit (T "p(") >> Grp 1 (Plus (not_char ")")) >> Lit (T ")")
  >> Plus is_space >> Grp 2 (Plus is_qref) >> Star is_space
  >> Lit (T ";").

Definition p_sub (m : mstate) : text :=
  T "u(0,0," ++ group_text 1 m ++ T ") " ++ group_text 2 m ++ T ";".

Definition p_to_native (line : text) : text :=
  match re_search p_pattern line with
  | None => line
  | Some _ => re_sub_fun p_pattern p_sub line
  end.

(** *** 5. Expansion *)

(** [^\s*(\w+)\s*(\([^)]*\))?\s*([\w\[\]0-9_,\s]+);\s*$] *)
Definition call_pat : regex :=
  Bos >> Star is_space >> Grp 1 (Plus is_word) >> Star is_space
  >> Opt (Grp 2 (Lit (T "(") >> Star (not_char ")") >> Lit (T ")")))
  >> Star is_space >> Grp 3 (Plus is_args) >> Lit (T ";")
  >> Star is_space >> Eos.

(** [re.sub] with a replacement text that holds no backslash: the text
    stands for itself. *)
Definition re_sub_lit (r : regex) (repl : text) (s : text) : text :=
  re_sub_fun r (fun _ => repl) s.

(** [re.sub] with any replacement text. *)
Definition re_sub (r : regex) (repl : text) (s : text) : result text :=
  if existsb (is_char "\") repl then Raised ReplEscape
  else Done (re_sub_lit r repl s).

Definition convert_line (line : text) : text :=
  let line := cp_to_native line in
  let line := p_to_native line in
  let line := re_sub_lit (Lit (T "++")) (T "+") line in
  let line := re_sub_lit (Lit (T "-+")) (T "-") line in
  let line := re_sub_lit (Lit (T "+-")) (T "-") line in
  let line := re_sub_lit (Lit (T "--")) (T "-") line in
  line.

(** [\b] + [re.escape(f)] + [\b] *)
Definition symbol_pat (f : text) : regex := Wordb >> Lit f >> Wordb.

(** The two loops over a map: one [re.sub] per entry, in map order. *)
Definition subst_map (mp : Dict.t text) (line : text) : result text :=
  fold_left
    (fun acc fa => line <- acc ;; re_sub (symbol_pat (fst fa)) (snd fa) line)
    mp (Done line).

Definition subst_body_line (p_map q_map : Dict.t text) (b : text)
  : result text :=
  line <- subst_map p_map b ;;
  line <- subst_map q_map line ;;
  Done (convert_line line).

Fixpoint map_result (A B : Type) (f : A -> result B) (l : list A)
  : result (list B) :=
  match l with
  | [] => Done []
  | a :: l' => b <- f a ;; bs <- map_result f l' ;; Done (b :: bs)
  end.

(** [[p.strip() for p in arg_str[1:-1].split(',')] if arg_str else []] *)
Definition actual_params (m : mstate) : list text :=
  match group 2 m with
  | Some arg_str => split_strip (Str.slice_1_m1 arg_str)
  | None => []
  end.

(** [[q.strip() for q in qub_str.split(',')]] *)
Definition actual_qubits (m : mstate) : list text :=
  split_strip (group_text 3 m).

(** The branch of [expand_once] that expands a call: the two maps, then
    the body, line by line. *)
Definition expand_call (gdef : gate_def) (m : mstate) : result (list text) :=
  let p_map := Dict.of_pairs (combine (params gdef) (actual_params m)) in
  let q_map := Dict.of_pairs (combine (qubits gdef) (actual_qubits m)) in
  map_result (subst_body_line p_map q_map) (body gdef).

(** What one statement contributes to a pass: its lines and whether it
    was expanded. *)
Definition expand_line (defs : Dict.t gate_def) (ln : text)
  : result (list text * bool) :=
  match re_match call_pat ln with
  | None => Done ([convert_line ln], false)
  | Some m =>
      match Dict.get (group_text 1 m) defs with
      | None => Done ([convert_line ln], false)
      | Some gdef => out <- expand_call gdef m ;; Done (out, true)
      end
  end.

Fixpoint expand_once (defs : Dict.t gate_def) (lines_in : list text)
  : result (list text * bool) :=
  match lines_in with
  | [] => Done ([], false)
  | ln :: rest =>
      '(o1, c1) <- expand_line defs ln ;;
      '(o2, c2) <- expand_once defs rest ;;
      Done (o1 ++ o2, (c1 || c2)%bool)
  end.

(** [while changed: body_lines, changed = expand_once(body_lines)];
    [fuel] bounds the number of passes. *)
Fixpoint expand_loop (fuel : nat) (defs : Dict.t gate_def)
    (body_lines : list text) : result (list text) :=
  match fuel with
  | 0 => OutOfFuel
  | S fuel' =>
      '(out, changed) <- expand_once defs body_lines ;;
      if changed then expand_loop fuel' defs out else Done out
  end.

(** *** 6. and 7. The text written *)

Definition clean (body_lines : list text) : text :=
  Str.join [NL] (filter Str.nonblank body_lines).

Definition script (fuel : nat) (txt : text) : result text :=
  let defs := gate_defs txt in
  match Str.splitlines (remove_gate_blocks txt) with
  | [] => Raised ValueError
  | header :: body_part =>
      body_lines <- expand_loop fuel defs body_part ;;
      Done (header ++ [NL] ++ clean body_lines ++ [NL])
  end.

End Script.


(** * Properties *)

Import Chars Re Script.

Unset Implicit Arguments.

(** ** Characters *)

Ltac char_cases c :=
  destruct c as [[] [] [] [] [] [] [] []]; vm_compute; intros;
  try reflexivity; try discriminate; try congruence.

Lemma space_not_word (c : ascii) : is_space c = true -> is_word c = false.
Proof. char_cases c. Qed.

Lemma space_not_qref (c : ascii) : is_space c = true -> is_qref c = false.
Proof. char_cases c. Qed.

Lemma qref_not_space (c : ascii) : is_qref c = true -> is_space c = false.
Proof. char_cases c. Qed.

Lemma word_not_space (c : ascii) : is_word c = true -> is_space c = false.
Proof. char_cases c. Qed.

Lemma word_is_qref (c : ascii) : is_word c = true -> is_qref c = true.
Proof. unfold is_qref. intros ->. reflexivity. Qed.

Lemma eqb_is_char (x c : ascii) : Ascii.eqb x c = is_char x c.
Proof. unfold is_char. apply Ascii.eqb_sym. Qed.

(** ** The matcher on a text split by hand

    [run_k r st k] continues every way [r] matches from [st] with [k]; it
    unfolds along the pattern, and a greedy class run steps over a whole
    run of class characters at once. *)

Definition run_k (r : regex) (st : mstate) (k : mstate -> list mstate)
  : list mstate := flat_map k (rmatch r st).

Implicit Types (k : mstate -> list mstate) (st : mstate) (r : regex).
Implicit Types (p : ascii -> bool) (w s : text) (prev : option ascii).

Definition last_char (prev : option ascii) (w : text) : option ascii :=
  fold_left (fun _ c => Some c) w prev.

(** The text [s] does not go on with a character of class [p]. *)
Definition stops (p : ascii -> bool) (s : text) : Prop :=
  match s with
  | [] => True
  | c :: _ => p c = false
  end.

Definition next_in (p : ascii -> bool) (st : mstate) : Prop :=
  match ms_rest st with
  | c :: _ => p c = true
  | [] => False
  end.

Lemma flat_map_nil_all (A B : Type) (f : A -> list B) (l : list A) :
  Forall (fun x => f x = []) l -> flat_map f l = [].
Proof.
  induction 1 as [|x l Hx _ IH]; simpl; [reflexivity|].
  rewrite Hx, IH. reflexivity.
Qed.

Lemma rmatch_run_k (r : regex) (st : mstate) :
  rmatch r st = run_k r st (fun x => [x]).
Proof.
  unfold run_k. induction (rmatch r st) as [|x l IH]; simpl; congruence.
Qed.

Lemma run_k_cat r1 r2 st k :
  run_k (Cat r1 r2) st k = run_k r1 st (fun x => run_k r2 x k).
Proof.
  unfold run_k. simpl. induction (rmatch r1 st) as [|x l IH]; simpl.
  - reflexivity.
  - rewrite flat_map_app, IH. reflexivity.
Qed.

Lemma run_k_grp n r st k :
  run_k (Grp n r) st k = run_k r st (fun x => k (set_group n st x)).
Proof.
  unfold run_k. simpl. induction (rmatch r st) as [|x l IH]; simpl; congruence.
Qed.

Lemma run_k_opt r st k : run_k (Opt r) st k = run_k r st k ++ k st.
Proof.
  unfold run_k. simpl. rewrite flat_map_app. simpl.
  rewrite app_nil_r. reflexivity.
Qed.

Lemma run_k_lit l st k :
  run_k (Lit l) st k =
  match lit_match l st with Some st' => k st' | None => [] end.
Proof.
  unfold run_k. simpl. destruct (lit_match l st); simpl.
  - apply app_nil_r.
  - reflexivity.
Qed.

Lemma run_k_chr p st k :
  run_k (Chr p) st k =
  match ms_rest st with
  | c :: s' => if p c then k (advance c s' st) else []
  | [] => []
  end.
Proof.
  unfold run_k. simpl. destruct (ms_rest st) as [|c s']; [reflexivity|].
  destruct (p c); simpl; [apply app_nil_r | reflexivity].
Qed.

Lemma run_k_guard b st k : flat_map k (guard b st) = if b then k st else [].
Proof. destruct b; simpl; [apply app_nil_r | reflexivity]. Qed.

Lemma last_char_app prev w c : last_char prev (w ++ [c]) = Some c.
Proof. unfold last_char. rewrite fold_left_app. reflexivity. Qed.

Lemma last_char_cons prev c w : last_char prev (c :: w) = last_char (Some c) w.
Proof. reflexivity. Qed.

Lemma star_match_stop p prev s pos caps :
  stops p s -> star_match p prev s pos caps = [MState prev s pos caps].
Proof.
  destruct s as [|c s]; simpl; [reflexivity|]. intros ->. reflexivity.
Qed.

(** A run of class characters: the matcher first goes past all of it; the
    other states it offers all stand before a class character. *)
Lemma star_match_app p caps s w :
  forallb p w = true ->
  forall prev pos, exists shorter,
    star_match p prev (w ++ s) pos caps =
    star_match p (last_char prev w) s (pos + List.length w) caps ++ shorter
    /\ Forall (next_in p) shorter.
Proof.
  induction w as [|c w IH]; simpl; intros Hw prev pos.
  - exists []. rewrite app_nil_r, Nat.add_0_r. split; [reflexivity|constructor].
  - apply andb_true_iff in Hw. destruct Hw as [Hc Hw].
    destruct (IH Hw (Some c) (S pos)) as [sh [E F]].
    exists (sh ++ [MState prev (c :: w ++ s) pos caps]).
    rewrite Hc, E. rewrite <- app_assoc.
    replace (S pos + List.length w) with (pos + S (List.length w)) by lia.
    split; [reflexivity|].
    apply Forall_app. split; [assumption|].
    constructor; [exact Hc | constructor].
Qed.

(** [k] has no result from a state that stands before a class character. *)
Definition dead_on (p : ascii -> bool) (k : mstate -> list mstate) : Prop :=
  forall st, next_in p st -> k st = [].

Lemma run_k_star_det p k prev w s pos caps :
  forallb p w = true -> stops p s -> dead_on p k ->
  run_k (Star p) (MState prev (w ++ s) pos caps) k =
  k (MState (last_char prev w) s (pos + List.length w) caps).
Proof.
  intros Hw Hs Hk. unfold run_k. simpl.
  destruct (star_match_app p caps s w Hw prev pos) as [sh [E F]].
  rewrite E, (star_match_stop _ _ _ _ _ Hs). simpl.
  rewrite flat_map_nil_all; [apply app_nil_r|].
  eapply Forall_impl; [|exact F]. intros st. apply Hk.
Qed.

Lemma run_k_star_hd p k prev w s pos caps :
  forallb p w = true -> stops p s ->
  k (MState (last_char prev w) s (pos + List.length w) caps) <> [] ->
  hd_error (run_k (Star p) (MState prev (w ++ s) pos caps) k) =
  hd_error (k (MState (last_char prev w) s (pos + List.length w) caps)).
Proof.
  intros Hw Hs Hk. unfold run_k. simpl.
  destruct (star_match_app p caps s w Hw prev pos) as [sh [E F]].
  rewrite E, (star_match_stop _ _ _ _ _ Hs). simpl.
  destruct (k _) as [|x l]; [congruence | reflexivity].
Qed.

Lemma run_k_plus p st k :
  run_k (Plus p) st k = run_k (Chr p) st (fun x => run_k (Star p) x k).
Proof. unfold Plus. apply run_k_cat. Qed.

Lemma run_k_plus_det p k prev w s pos caps :
  forallb p w = true -> w <> [] -> stops p s -> dead_on p k ->
  run_k (Plus p) (MState prev (w ++ s) pos caps) k =
  k (MState (last_char prev w) s (pos + List.length w) caps).
Proof.
  intros Hw Hne Hs Hk. destruct w as [|c w]; [congruence|].
  simpl in Hw. apply andb_true_iff in Hw. destruct Hw as [Hc Hw].
  rewrite run_k_plus, run_k_chr. simpl. rewrite Hc. unfold advance. simpl.
  rewrite (run_k_star_det p k (Some c) w s (S pos) caps Hw Hs Hk).
  replace (S pos + List.length w) with (pos + S (List.length w)) by lia.
  reflexivity.
Qed.

Lemma run_k_plus_hd p k prev w s pos caps :
  forallb p w = true -> w <> [] -> stops p s ->
  k (MState (last_char prev w) s (pos + List.length w) caps) <> [] ->
  hd_error (run_k (Plus p) (MState prev (w ++ s) pos caps) k) =
  hd_error (k (MState (last_char prev w) s (pos + List.length w) caps)).
Proof.
  intros Hw Hne Hs Hk. destruct w as [|c w]; [congruence|].
  simpl in Hw. apply andb_true_iff in Hw. destruct Hw as [Hc Hw].
  rewrite run_k_plus, run_k_chr. simpl. rewrite Hc. unfold advance. simpl.
  simpl in Hk.
  replace (pos + S (List.length w)) with (S pos + List.length w) in * by lia.
  apply (run_k_star_hd p k (Some c) w s (S pos) caps Hw Hs Hk).
Qed.

Lemma firstn_taken (pos : nat) (w s : text) :
  firstn (pos + List.length w - pos) (w ++ s) = w.
Proof.
  replace (pos + List.length w - pos) with (List.length w + 0) by lia.
  rewrite firstn_app_2. simpl. apply app_nil_r.
Qed.

Lemma run_k_grp_plus_det n p k prev w s pos caps :
  forallb p w = true -> w <> [] -> stops p s -> dead_on p k ->
  run_k (Grp n (Plus p)) (MState prev (w ++ s) pos caps) k =
  k (MState (last_char prev w) s (pos + List.length w) ((n, w) :: caps)).
Proof.
  intros Hw Hne Hs Hk. rewrite run_k_grp, run_k_plus_det; try assumption.
  - unfold set_group. simpl. rewrite firstn_taken. reflexivity.
  - intros st Hst. apply Hk. exact Hst.
Qed.

Lemma run_k_grp_plus_hd n p k prev w s pos caps :
  forallb p w = true -> w <> [] -> stops p s ->
  k (MState (last_char prev w) s (pos + List.length w) ((n, w) :: caps)) <> [] ->
  hd_error (run_k (Grp n (Plus p)) (MState prev (w ++ s) pos caps) k) =
  hd_error (k (MState (last_char prev w) s (pos + List.length w) ((n, w) :: caps))).
Proof.
  intros Hw Hne Hs Hk. rewrite run_k_grp, run_k_plus_hd; try assumption.
  - unfold set_group. simpl. rewrite firstn_taken. reflexivity.
  - unfold set_group. simpl. rewrite firstn_taken. exact Hk.
Qed.

(** *** What a pattern can begin with *)

(** [null r]: [r] may match without taking a character. *)
Fixpoint null (r : regex) : bool :=
  match r with
  | Lit [] => true
  | Lit _ => false
  | Chr _ => false
  | Star _ => true
  | Opt _ => true
  | Grp _ r1 => null r1
  | Cat r1 r2 => null r1 && null r2
  | Bos | Bol | Eos | Wordb => true
  end.

(** [starts r c]: a match of [r] may take [c] as its first character. *)
Fixpoint starts (r : regex) (c : ascii) : bool :=
  match r with
  | Lit [] => false
  | Lit (x :: _) => Ascii.eqb x c
  | Chr p => p c
  | Star p => p c
  | Opt r1 => starts r1 c
  | Grp _ r1 => starts r1 c
  | Cat r1 r2 => starts r1 c || (null r1 && starts r2 c)
  | Bos | Bol | Eos | Wordb => false
  end.

Lemma lit_match_rest l : forall st st',
  lit_match l st = Some st' ->
  ms_rest st = l ++ ms_rest st' /\ ms_pos st' = ms_pos st + List.length l
  /\ ms_caps st' = ms_caps st /\ ms_prev st' = last_char (ms_prev st) l.
Proof.
  induction l as [|c l IH]; simpl; intros st st' H.
  - inversion H; subst. rewrite Nat.add_0_r. auto.
  - destruct (ms_rest st) as [|d s'] eqn:E; [discriminate|].
    destruct (Ascii.eqb c d) eqn:Ecd; [|discriminate].
    apply Ascii.eqb_eq in Ecd. subst d.
    destruct (IH _ _ H) as [H1 [H2 [H3 H4]]]. simpl in *.
    rewrite <- H1, H2, H3, H4. repeat split; try reflexivity; lia.
Qed.

Lemma star_match_in p caps st' : forall s prev pos,
  In st' (star_match p prev s pos caps) ->
  exists w, s = w ++ ms_rest st' /\ forallb p w = true
            /\ ms_pos st' = pos + List.length w /\ ms_caps st' = caps
            /\ ms_prev st' = last_char prev w.
Proof.
  induction s as [|c s IH]; simpl; intros prev pos H.
  - destruct H as [<-|[]]. exists []. simpl. rewrite Nat.add_0_r. auto.
  - destruct (p c) eqn:Hc.
    + apply in_app_or in H. destruct H as [H|[<-|[]]].
      * destruct (IH _ _ H) as [w [E [Hw [Hp [Hcaps Hprev]]]]].
        exists (c :: w). simpl. rewrite Hc, Hw, <- E, Hp, Hcaps, Hprev.
        repeat split; try reflexivity; lia.
      * exists []. simpl. rewrite Nat.add_0_r. auto.
    + destruct H as [<-|[]]. exists []. simpl. rewrite Nat.add_0_r. auto.
Qed.

Lemma in_guard b st st' : In st' (guard b st) -> st' = st.
Proof. destruct b; simpl; [intros [H|[]]; auto | intros []]. Qed.

(** Every match takes a prefix of the text: the matcher only moves on. *)
Lemma rmatch_moves r : forall st st',
  In st' (rmatch r st) ->
  exists w, ms_rest st = w ++ ms_rest st'
            /\ ms_pos st' = ms_pos st + List.length w.
Proof.
  induction r as [l|p|p|r IH|n r IH|r1 IH1 r2 IH2| | | |]; simpl; intros st st' H;
    try (apply in_guard in H; subst st'; exists []; simpl; split; [reflexivity|lia]).
  - destruct (lit_match l st) as [x|] eqn:E; [|contradiction].
    destruct H as [<-|[]]. apply lit_match_rest in E. exists l. tauto.
  - destruct (ms_rest st) as [|c s'] eqn:E; [contradiction|].
    destruct (p c); [|contradiction]. destruct H as [<-|[]].
    exists [c]. simpl. split; [reflexivity|lia].
  - apply star_match_in in H. destruct H as [w [E [_ [Hp _]]]].
    exists w. auto.
  - apply in_app_or in H. destruct H as [H|[<-|[]]].
    + apply IH. exact H.
    + exists []. simpl. split; [reflexivity|lia].
  - apply in_map_iff in H. destruct H as [x [<- Hx]]. simpl. apply IH. exact Hx.
  - apply in_flat_map in H. destruct H as [mid [Hm H]].
    destruct (IH1 _ _ Hm) as [u [Eu Pu]]. destruct (IH2 _ _ H) as [v [Ev Pv]].
    exists (u ++ v). rewrite <- app_assoc, <- Ev, <- Eu, Pv, Pu, length_app.
    split; [reflexivity|lia].
Qed.

Lemma rmatch_starts r : forall st st',
  In st' (rmatch r st) ->
  (ms_rest st' = ms_rest st /\ null r = true)
  \/ (exists c s, ms_rest st = c :: s /\ starts r c = true).
Proof.
  induction r as [l|p|p|r IH|n r IH|r1 IH1 r2 IH2| | | |]; simpl; intros st st' H;
    try (apply in_guard in H; subst st'; left; auto).
  - destruct (lit_match l st) as [x|] eqn:E; [|contradiction].
    destruct H as [<-|[]]. destruct l as [|c l].
    + inversion E; subst. left. auto.
    + simpl in E. destruct (ms_rest st) as [|d s'] eqn:Er; [discriminate|].
      destruct (Ascii.eqb c d) eqn:Ecd; [|discriminate].
      right. exists d, s'. auto.
  - destruct (ms_rest st) as [|c s'] eqn:E; [contradiction|].
    destruct (p c) eqn:Hc; [|contradiction]. right. exists c, s'. auto.
  - apply star_match_in in H. destruct H as [w [E [Hw _]]].
    destruct w as [|c w].
    + left. auto.
    + right. exists c, (w ++ ms_rest st'). simpl in Hw.
      apply andb_true_iff in Hw. tauto.
  - apply in_app_or in H. destruct H as [H|[<-|[]]].
    + destruct (IH _ _ H) as [[E _]|R]; [left|right]; auto.
    + left. auto.
  - apply in_map_iff in H. destruct H as [x [<- Hx]]. simpl. apply IH. exact Hx.
  - apply in_flat_map in H. destruct H as [mid [Hm H]].
    destruct (IH1 _ _ Hm) as [[E1 N1]|[c [s [E1 S1]]]].
    + destruct (IH2 _ _ H) as [[E2 N2]|[c [s [E2 S2]]]].
      * left. rewrite E2, E1, N1, N2. auto.
      * right. exists c, s. rewrite <- E1, E2, N1, S2.
        split; [reflexivity|apply orb_true_r].
    + right. exists c, s. rewrite S1. auto.
Qed.

(** A pattern that cannot begin with a class character, nor match the
    empty text, fails wherever a class character comes next. *)
Lemma dead_on_regex p r k :
  null r = false -> (forall c, p c = true -> starts r c = false) ->
  dead_on p (fun x => run_k r x k).
Proof.
  intros Hn Hs st Hst. unfold run_k.
  destruct (rmatch r st) as [|x l] eqn:E; [reflexivity|exfalso].
  assert (Hin : In x (rmatch r st)) by (rewrite E; left; reflexivity).
  unfold next_in in Hst.
  destruct (rmatch_starts r st x Hin) as [[_ N]|[c [s [Ec Sc]]]].
  - congruence.
  - rewrite Ec in Hst. rewrite (Hs c Hst) in Sc. discriminate.
Qed.

Lemma dead_on_group p n st0 k :
  dead_on p k -> dead_on p (fun x => k (set_group n st0 x)).
Proof. intros H st Hst. apply H. exact Hst. Qed.

(** *** Searching and substituting *)

Lemma search_none_here r prev s :
  search_from r prev s = None -> match_at r prev s = None.
Proof.
  destruct s as [|c s]; simpl; destruct (match_at r prev _); congruence.
Qed.

(** Without a match anywhere, [re.sub] returns its text. *)
Lemma sub_go_no_match r repl : forall s prev,
  search_from r prev s = None -> sub_go r repl prev s 0 = s.
Proof.
  induction s as [|c s IH]; intros prev H; simpl in *.
  - destruct (match_at r prev []); [discriminate|reflexivity].
  - destruct (match_at r prev (c :: s)); [discriminate|].
    rewrite IH; auto.
Qed.

Lemma sub_go_skip r repl : forall w s prev,
  sub_go r repl prev (w ++ s) (List.length w) =
  sub_go r repl (last_char prev w) s 0.
Proof.
  induction w as [|c w IH]; intros s prev; simpl.
  - reflexivity.
  - apply IH.
Qed.

(** A match at the start that takes the whole of a non-empty text. *)
Lemma sub_go_whole r repl prev s m :
  match_at r prev s = Some m -> ms_rest m = [] -> s <> [] ->
  (forall prev', match_at r prev' [] = None) ->
  sub_go r repl prev s 0 = repl m.
Proof.
  intros Hm Hrest Hne Hend.
  assert (Hpos : ms_pos m = List.length s).
  { unfold match_at in Hm.
    destruct (rmatch r (start prev s)) as [|x l] eqn:E; [discriminate|].
    simpl in Hm. inversion Hm; subst x.
    destruct (rmatch_moves r (start prev s) m) as [w [Ew Pw]].
    - rewrite E. left. reflexivity.
    - simpl in *. rewrite Hrest, app_nil_r in Ew. subst w. exact Pw. }
  destruct s as [|c s]; [congruence|].
  simpl. rewrite Hm, Hpos. simpl. rewrite Nat.sub_0_r.
  rewrite <- (app_nil_r s) at 1. rewrite sub_go_skip. simpl.
  rewrite Hend. apply app_nil_r.
Qed.

(** *** Adjacent sign characters *)

Fixpoint sign_pair_free (s : text) : bool :=
  match s with
  | c :: s' =>
      match s' with
      | d :: _ => negb (is_sign c && is_sign d) && sign_pair_free s'
      | [] => true
      end
  | [] => true
  end.

Lemma sign_search_none a b : is_sign a = true -> is_sign b = true ->
  forall s prev, sign_pair_free s = true ->
  search_from (Lit [a; b]) prev s = None.
Proof.
  intros Ha Hb. induction s as [|c s IH]; intros prev H.
  - reflexivity.
  - simpl search_from.
    assert (E : match_at (Lit [a; b]) prev (c :: s) = None).
    { unfold match_at. simpl.
      destruct (Ascii.eqb a c) eqn:Eac; [|reflexivity].
      destruct s as [|d s']; [reflexivity|]. simpl.
      destruct (Ascii.eqb b d) eqn:Ebd; [|reflexivity].
      apply Ascii.eqb_eq in Eac, Ebd. subst c d.
      simpl in H. rewrite Ha, Hb in H. discriminate. }
    rewrite E. apply IH.
    simpl in H. destruct s as [|d s']; [reflexivity|].
    apply andb_true_iff in H. tauto.
Qed.

(** The four sign rewrites leave a text without adjacent signs alone. *)
Lemma sign_steps_id (s : text) :
  sign_pair_free s = true ->
  re_sub_lit (Lit (T "--")) (T "-")
    (re_sub_lit (Lit (T "+-")) (T "-")
      (re_sub_lit (Lit (T "-+")) (T "-")
        (re_sub_lit (Lit (T "++")) (T "+") s))) = s.
Proof.
  intros H. unfold re_sub_lit, re_sub_fun.
  rewrite (sub_go_no_match (Lit (T "++"))); [|apply sign_search_none; auto].
  rewrite (sub_go_no_match (Lit (T "-+"))); [|apply sign_search_none; auto].
  rewrite (sub_go_no_match (Lit (T "+-"))); [|apply sign_search_none; auto].
  rewrite (sub_go_no_match (Lit (T "--"))); [|apply sign_search_none; auto].
  reflexivity.
Qed.

(** *** The texts a pattern matches *)

Fixpoint lang (r : regex) (w : text) : Prop :=
  match r with
  | Lit l => w = l
  | Chr p => exists c, w = [c] /\ p c = true
  | Star p => forallb p w = true
  | Opt r1 => w = [] \/ lang r1 w
  | Grp _ r1 => lang r1 w
  | Cat r1 r2 => exists u v, w = u ++ v /\ lang r1 u /\ lang r2 v
  | Bos | Bol | Eos | Wordb => w = []
  end.

Lemma rmatch_lang r : forall st st',
  In st' (rmatch r st) ->
  exists w, ms_rest st = w ++ ms_rest st' /\ lang r w.
Proof.
  induction r as [l|p|p|r IH|n r IH|r1 IH1 r2 IH2| | | |]; simpl; intros st st' H;
    try (apply in_guard in H; subst st'; exists []; auto).
  - destruct (lit_match l st) as [x|] eqn:E; [|contradiction].
    destruct H as [<-|[]]. apply lit_match_rest in E. exists l. tauto.
  - destruct (ms_rest st) as [|c s'] eqn:E; [contradiction|].
    destruct (p c) eqn:Hc; [|contradiction]. destruct H as [<-|[]].
    exists [c]. simpl. eauto.
  - apply star_match_in in H. destruct H as [w [E [Hw _]]]. exists w. auto.
  - apply in_app_or in H. destruct H as [H|[<-|[]]].
    + destruct (IH _ _ H) as [w [E L]]. exists w. auto.
    + exists []. auto.
  - apply in_map_iff in H. destruct H as [x [<- Hx]]. simpl. apply IH. exact Hx.
  - apply in_flat_map in H. destruct H as [mid [Hm H]].
    destruct (IH1 _ _ Hm) as [u [Eu Lu]]. destruct (IH2 _ _ H) as [v [Ev Lv]].
    exists (u ++ v). rewrite <- app_assoc, <- Ev, <- Eu.
    split; [reflexivity|]. exists u, v. auto.
Qed.

Lemma match_at_lang r prev s m :
  match_at r prev s = Some m -> exists w, s = w ++ ms_rest m /\ lang r w.
Proof.
  unfold match_at. intros H.
  destruct (rmatch r (start prev s)) as [|x l] eqn:E; [discriminate|].
  simpl in H. inversion H; subst x.
  apply (rmatch_lang r (start prev s) m). rewrite E. left. reflexivity.
Qed.

(** A match found by a search lies somewhere in the text. *)
Lemma search_lang r : forall s prev m,
  search_from r prev s = Some m ->
  exists pre w post, s = pre ++ w ++ post /\ lang r w.
Proof.
  induction s as [|c s IH]; intros prev m H; simpl in H.
  - destruct (match_at r prev []) as [m'|] eqn:E; [|discriminate].
    apply match_at_lang in E. destruct E as [w [E L]].
    exists [], w, (ms_rest m'). auto.
  - destruct (match_at r prev (c :: s)) as [m'|] eqn:E.
    + apply match_at_lang in E. destruct E as [w [E L]].
      exists [], w, (ms_rest m'). auto.
    + destruct (IH _ _ H) as [pre [w [post [E' L]]]].
      exists (c :: pre), w, post. rewrite E'. auto.
Qed.

Lemma search_none_by r s prev :
  (forall w, lang r w -> forall pre post, s = pre ++ w ++ post -> False) ->
  search_from r prev s = None.
Proof.
  intros H. destruct (search_from r prev s) as [m|] eqn:E; [|reflexivity].
  apply search_lang in E. destruct E as [pre [w [post [E L]]]].
  exfalso. eapply H; eauto.
Qed.

(** *** Three signs of a [cp] or [p] statement in a text *)

(** A character of [p] with a character of [q] somewhere after it. *)
Fixpoint has_after (p q : ascii -> bool) (s : text) : bool :=
  match s with
  | [] => false
  | c :: s' => (p c && existsb q s') || has_after p q s'
  end.

(** A character other than [)], then [)], then a space. *)
Fixpoint has_close (s : text) : bool :=
  match s with
  | x :: s' =>
      match s' with
      | y :: z :: _ =>
          (not_char ")" x && is_char ")" y && is_space z) || has_close s'
      | _ => false
      end
  | [] => false
  end.

(** The two characters [p(]. *)
Fixpoint has_open (s : text) : bool :=
  match s with
  | x :: s' =>
      match s' with
      | y :: _ => (is_char "p" x && is_char "(" y) || has_open s'
      | [] => false
      end
  | [] => false
  end.

Lemma has_after_intro p q x y : p x = true -> q y = true ->
  forall a b c, has_after p q (a ++ x :: b ++ y :: c) = true.
Proof.
  intros Hx Hy. induction a as [|d a IH]; intros b c; simpl.
  - rewrite Hx, existsb_app. simpl. rewrite Hy.
    rewrite orb_true_r. reflexivity.
  - rewrite IH. apply orb_true_r.
Qed.

Lemma has_after_skip p q w s :
  forallb (fun c => negb (p c)) w = true ->
  has_after p q (w ++ s) = has_after p q s.
Proof.
  induction w as [|c w IH]; simpl; intros H; [reflexivity|].
  apply andb_true_iff in H. destruct H as [Hc Hw].
  apply negb_true_iff in Hc. rewrite Hc, IH; auto.
Qed.

Lemma has_close_intro x z : not_char ")" x = true -> is_space z = true ->
  forall a c, has_close (a ++ x :: ")"%char :: z :: c) = true.
Proof.
  intros Hx Hz. induction a as [|d a IH]; intros c.
  - simpl. rewrite Hx, Hz. reflexivity.
  - change ((d :: a) ++ x :: ")"%char :: z :: c)
      with (d :: (a ++ x :: ")"%char :: z :: c)).
    specialize (IH c).
    destruct (a ++ x :: ")"%char :: z :: c) as [|y [|y' l]] eqn:E.
    + destruct a; discriminate.
    + destruct a as [|? [|? ?]]; discriminate.
    + simpl. simpl in IH. rewrite IH. apply orb_true_r.
Qed.

Lemma has_open_intro : forall a c,
  has_open (a ++ "p"%char :: "("%char :: c) = true.
Proof.
  induction a as [|d a IH]; intros c.
  - reflexivity.
  - change ((d :: a) ++ "p"%char :: "("%char :: c)
      with (d :: (a ++ "p"%char :: "("%char :: c)).
    specialize (IH c).
    destruct (a ++ "p"%char :: "("%char :: c) as [|y l] eqn:E.
    + destruct a; discriminate.
    + simpl. simpl in IH. rewrite IH. apply orb_true_r.
Qed.

Lemma plus_lang_last p u :
  lang (Plus p) u -> exists u' x, u = u' ++ [x] /\ p x = true.
Proof.
  simpl. intros [a [b [E [[c [Ea Hc]] Hb]]]]. subst a u.
  destruct (exists_last (l := c :: b)) as [u' [x E]]; [discriminate|].
  exists u', x. split; [exact E|].
  assert (H : forallb p (c :: b) = true) by (simpl; rewrite Hc, Hb; reflexivity).
  rewrite E, forallb_app in H. simpl in H.
  apply andb_true_iff in H. destruct H as [_ H].
  apply andb_true_iff in H. tauto.
Qed.

Lemma plus_lang_first p u :
  lang (Plus p) u -> exists x u', u = x :: u' /\ p x = true.
Proof.
  simpl. intros [a [b [E [[c [Ea Hc]] Hb]]]]. subst a u.
  exists c, b. auto.
Qed.

Lemma p_lang_shape w :
  lang p_pattern w ->
  (exists a x z c, w = a ++ x :: ")"%char :: z :: c
                   /\ not_char ")" x = true /\ is_space z = true)
  /\ (exists c, w = "p"%char :: "("%char :: c).
Proof.
  unfold p_pattern. intros H.
  destruct H as [u1 [v1 [E1 [L1 H]]]].
  destruct H as [u2 [v2 [E2 [L2 H]]]].
  destruct H as [u3 [v3 [E3 [L3 H]]]].
  destruct H as [u4 [v4 [E4 [L4 H]]]].
  apply plus_lang_last in L2. destruct L2 as [u2' [x [-> Hx]]].
  apply plus_lang_first in L4. destruct L4 as [z [u4' [-> Hz]]].
  simpl in L1, L3. subst. split.
  - exists (T "p(" ++ u2'), x, z, (u4' ++ v4). split; [|auto].
    simpl. rewrite <- !app_assoc. reflexivity.
  - eexists. reflexivity.
Qed.

Lemma cp_lang_shape w :
  lang cp_pattern w ->
  (exists a x z c, w = a ++ x :: ")"%char :: z :: c
                   /\ not_char ")" x = true /\ is_space z = true)
  /\ (exists a b c, w = a ++ ")"%char :: b ++ ","%char :: c)
  /\ (exists c, w = "c"%char :: "p"%char :: "("%char :: c).
Proof.
  unfold cp_pattern. intros H.
  destruct H as [u1 [v1 [E1 [L1 H]]]].
  destruct H as [u2 [v2 [E2 [L2 H]]]].
  destruct H as [u3 [v3 [E3 [L3 H]]]].
  destruct H as [u4 [v4 [E4 [L4 H]]]].
  destruct H as [u5 [v5 [E5 [L5 H]]]].
  destruct H as [u6 [v6 [E6 [L6 H]]]].
  destruct H as [u7 [v7 [E7 [L7 H]]]].
  apply plus_lang_last in L2. destruct L2 as [u2' [x [-> Hx]]].
  apply plus_lang_first in L4. destruct L4 as [z [u4' [-> Hz]]].
  simpl in L1, L3, L7. subst. repeat split.
  - exists (T "cp(" ++ u2'), x, z, (u4' ++ u5 ++ u6 ++ T "," ++ v7).
    split; [|auto]. simpl. rewrite <- !app_assoc. reflexivity.
  - exists (T "cp(" ++ u2' ++ [x]), ((z :: u4') ++ u5 ++ u6), v7.
    simpl. rewrite <- !app_assoc. reflexivity.
  - eexists. reflexivity.
Qed.

(** Neither pattern occurs in a text without the sign [has_close]. *)
Lemma p_search_none_close s prev :
  has_close s = false -> search_from p_pattern prev s = None.
Proof.
  intros H. apply search_none_by. intros w L pre post E.
  apply p_lang_shape in L. destruct L as [[a [x [z [c [-> [Hx Hz]]]]]] _].
  subst s. rewrite <- !app_assoc in H. simpl in H.
  rewrite app_assoc, has_close_intro in H by assumption. discriminate.
Qed.

Lemma cp_search_none_close s prev :
  has_close s = false -> search_from cp_pattern prev s = None.
Proof.
  intros H. apply search_none_by. intros w L pre post E.
  apply cp_lang_shape in L. destruct L as [[a [x [z [c [-> [Hx Hz]]]]]] _].
  subst s. rewrite <- !app_assoc in H. simpl in H.
  rewrite app_assoc, has_close_intro in H by assumption. discriminate.
Qed.

(** The [cp] pattern needs a comma after a closing parenthesis. *)
Lemma cp_search_none_comma s prev :
  has_after (is_char ")") (is_char ",") s = false ->
  search_from cp_pattern prev s = None.
Proof.
  intros H. apply search_none_by. intros w L pre post E.
  apply cp_lang_shape in L. destruct L as [_ [[a [b [c ->]]] _]].
  subst s. rewrite <- !app_assoc in H. simpl in H.
  rewrite <- app_assoc in H. simpl in H.
  rewrite app_assoc, has_after_intro in H by reflexivity. discriminate.
Qed.

(** Both patterns need the two characters [p(]. *)
Lemma p_search_none_open s prev :
  has_open s = false -> search_from p_pattern prev s = None.
Proof.
  intros H. apply search_none_by. intros w L pre post E.
  apply p_lang_shape in L. destruct L as [_ [c ->]].
  subst s. simpl in H. rewrite has_open_intro in H. discriminate.
Qed.

Lemma cp_search_none_open s prev :
  has_open s = false -> search_from cp_pattern prev s = None.
Proof.
  intros H. apply search_none_by. intros w L pre post E.
  apply cp_lang_shape in L. destruct L as [_ [_ [c ->]]].
  subst s. simpl in H.
  change (pre ++ "c"%char :: "p"%char :: "("%char :: c ++ post)
    with (pre ++ [("c"%char)] ++ "p"%char :: "("%char :: c ++ post) in H.
  rewrite app_assoc, has_open_intro in H. discriminate.
Qed.

(** *** Helpers on classes of whole texts *)

Lemma forallb_imp (p q : ascii -> bool) (w : text) :
  (forall c, p c = true -> q c = true) ->
  forallb p w = true -> forallb q w = true.
Proof.
  intros H. induction w as [|c w IH]; simpl; [reflexivity|].
  intros Hw. apply andb_true_iff in Hw. destruct Hw as [Hc Hw].
  rewrite (H c Hc), IH; auto.
Qed.

Lemma existsb_none (q : ascii -> bool) (w : text) :
  forallb (fun c => negb (q c)) w = true -> existsb q w = false.
Proof.
  induction w as [|c w IH]; simpl; [reflexivity|].
  intros Hw. apply andb_true_iff in Hw. destruct Hw as [Hc Hw].
  apply negb_true_iff in Hc. rewrite Hc, IH; auto.
Qed.

Lemma qref_plain (c : ascii) :
  is_qref c = true ->
  is_char ")" c = false /\ is_char "(" c = false /\ is_char "," c = false
  /\ is_char ";" c = false /\ is_sign c = false /\ is_space c = false.
Proof. char_cases c; repeat split. Qed.

Arguments run_k : simpl never.

Lemma lit_match_nil st : lit_match [] st = Some st.
Proof. reflexivity. Qed.

Lemma lit_match_cons c l prev s pos caps :
  lit_match (c :: l) (MState prev (c :: s) pos caps) =
  lit_match l (MState (Some c) s (S pos) caps).
Proof. simpl. rewrite Ascii.eqb_refl. reflexivity. Qed.

Lemma run_k_chr_cons p k prev c s pos caps :
  p c = true ->
  run_k (Chr p) (MState prev (c :: s) pos caps) k =
  k (MState (Some c) s (S pos) caps).
Proof. intros H. rewrite run_k_chr. simpl. rewrite H. reflexivity. Qed.

Lemma run_k_star_none p k prev s pos caps :
  stops p s ->
  run_k (Star p) (MState prev s pos caps) k = k (MState prev s pos caps).
Proof.
  intros H. unfold run_k. simpl. rewrite (star_match_stop _ _ _ _ _ H).
  simpl. apply app_nil_r.
Qed.

Lemma run_k_done st : hd_error ((fun x : mstate => [x]) st) = Some st.
Proof. reflexivity. Qed.

Lemma stops_app p (q : ascii -> bool) w s :
  w <> [] -> forallb q w = true -> (forall c, q c = true -> p c = false) ->
  stops p (w ++ s).
Proof.
  intros Hne Hw H. destruct w as [|c w]; [congruence|].
  simpl in *. apply andb_true_iff in Hw. apply H. tauto.
Qed.

(** One literal of the pattern against the text. *)
Ltac lit_step :=
  rewrite run_k_lit; cbn [T list_ascii_of_string];
  rewrite ?lit_match_cons; rewrite lit_match_nil.

Ltac dead_side :=
  repeat apply dead_on_group;
  apply dead_on_regex;
  [ reflexivity | let c := fresh "c" in intros c; char_cases c ].

Lemma p_match_whole prev theta t :
  theta <> [] -> forallb (not_char ")") theta = true ->
  t <> [] -> forallb is_qref t = true ->
  exists m,
    match_at p_pattern prev (T "p(" ++ theta ++ T ") " ++ t ++ T ";") = Some m
    /\ ms_rest m = [] /\ group_text 1 m = theta /\ group_text 2 m = t.
Proof.
  intros Hne Hth Htne Ht.
  unfold match_at. rewrite rmatch_run_k. unfold p_pattern, start.
  cbn [T list_ascii_of_string app].
  rewrite run_k_cat. lit_step.
  rewrite run_k_cat, run_k_grp_plus_det;
    [ | assumption | assumption | reflexivity | dead_side ].
  rewrite run_k_cat. lit_step.
  rewrite run_k_cat, run_k_plus, run_k_chr_cons by reflexivity.
  rewrite run_k_star_none
    by (apply (stops_app _ is_qref); [assumption | assumption | apply qref_plain]).
  rewrite run_k_cat, run_k_grp_plus_det;
    [ | assumption | assumption | reflexivity | dead_side ].
  rewrite run_k_cat, run_k_star_none by reflexivity.
  lit_step.
  eexists. split; [reflexivity|]. repeat split.
Qed.

Lemma search_from_here r prev s m :
  match_at r prev s = Some m -> search_from r prev s = Some m.
Proof. intros H. destruct s; simpl; rewrite H; reflexivity. Qed.

Lemma spf_cons c s : is_sign c = false -> sign_pair_free (c :: s) = sign_pair_free s.
Proof.
  intros H. simpl. rewrite H. destruct s; reflexivity.
Qed.

Lemma spf_plain w s :
  forallb (fun c => negb (is_sign c)) w = true ->
  sign_pair_free (w ++ s) = sign_pair_free s.
Proof.
  induction w as [|c w IH]; intros H; [reflexivity|].
  simpl in H. apply andb_true_iff in H. destruct H as [Hc Hw].
  apply negb_true_iff in Hc.
  change ((c :: w) ++ s) with (c :: (w ++ s)).
  rewrite spf_cons by assumption. auto.
Qed.

Lemma spf_app w c s :
  is_sign c = false ->
  sign_pair_free (w ++ c :: s) = sign_pair_free w && sign_pair_free s.
Proof.
  intros Hc. induction w as [|d w IH].
  - simpl app. rewrite spf_cons by assumption. reflexivity.
  - change ((d :: w) ++ c :: s) with (d :: (w ++ c :: s)).
    destruct w as [|e w].
    + simpl app. simpl. rewrite Hc, andb_false_r. simpl.
      destruct s; reflexivity.
    + change (sign_pair_free (d :: (e :: w) ++ c :: s))
        with (negb (is_sign d && is_sign e) && sign_pair_free ((e :: w) ++ c :: s)).
      rewrite IH.
      change (sign_pair_free (d :: e :: w))
        with (negb (is_sign d && is_sign e) && sign_pair_free (e :: w)).
      rewrite andb_assoc. reflexivity.
Qed.

Lemma qref_no_sign t :
  forallb is_qref t = true -> forallb (fun c => negb (is_sign c)) t = true.
Proof.
  apply forallb_imp. intros c H. apply qref_plain in H.
  destruct H as [_ [_ [_ [_ [H _]]]]]. rewrite H. reflexivity.
Qed.

Lemma qref_no_close t :
  forallb is_qref t = true -> forallb (fun c => negb (is_char ")" c)) t = true.
Proof.
  apply forallb_imp. intros c H. apply qref_plain in H.
  destruct H as [H _]. rewrite H. reflexivity.
Qed.

Lemma qref_no_comma t :
  forallb is_qref t = true -> forallb (fun c => negb (is_char "," c)) t = true.
Proof.
  apply forallb_imp. intros c H. apply qref_plain in H.
  destruct H as [_ [_ [H _]]]. rewrite H. reflexivity.
Qed.

(** ** Phase decomposition (C6) *)

(** What [p_to_native] does with a statement [p(theta) t;] whose angle
    text has no closing parenthesis. *)
Lemma p_to_native_form theta t :
  theta <> [] -> forallb (not_char ")") theta = true ->
  t <> [] -> forallb is_qref t = true ->
  p_to_native (T "p(" ++ theta ++ T ") " ++ t ++ T ";")
  = T "u(0,0," ++ theta ++ T ") " ++ t ++ T ";".
Proof.
  intros Hne Hth Htne Ht.
  destruct (p_match_whole None theta t Hne Hth Htne Ht) as [m [Hm [Hr [G1 G2]]]].
  unfold p_to_native, re_search. rewrite (search_from_here _ _ _ _ Hm).
  unfold re_sub_fun. rewrite (sub_go_whole _ _ _ _ m Hm Hr).
  - unfold p_sub. rewrite G1, G2. reflexivity.
  - discriminate.
  - reflexivity.
Qed.

(** C6, as the script has it: a statement [p(theta) t;] is lowered to
    the one statement [u(0,0,theta) t;] when [theta] is a non-empty text
    without a closing parenthesis and without two adjacent signs, and [t]
    is a non-empty qubit reference (word characters and brackets). *)
Theorem p_lowering theta t :
  theta <> [] -> forallb (not_char ")") theta = true ->
  sign_pair_free theta = true ->
  t <> [] -> forallb is_qref t = true ->
  convert_line (T "p(" ++ theta ++ T ") " ++ t ++ T ";")
  = T "u(0,0," ++ theta ++ T ") " ++ t ++ T ";".
Proof.
  intros Hne Hth Hsg Htne Ht. unfold convert_line.
  assert (Hcp : cp_to_native (T "p(" ++ theta ++ T ") " ++ t ++ T ";")
                = T "p(" ++ theta ++ T ") " ++ t ++ T ";").
  { unfold cp_to_native, re_search.
    rewrite cp_search_none_comma; [reflexivity|].
    cbn [T list_ascii_of_string app has_after].
    rewrite has_after_skip by exact Hth.
    cbn [has_after existsb is_char Ascii.eqb Bool.eqb andb orb].
    rewrite existsb_app, (existsb_none _ t (qref_no_comma t Ht)).
    rewrite has_after_skip by (apply qref_no_close; exact Ht).
    reflexivity. }
  rewrite Hcp, p_to_native_form by assumption.
  apply sign_steps_id.
  cbn [T list_ascii_of_string app].
  rewrite !spf_cons by reflexivity.
  rewrite spf_app by reflexivity.
  rewrite spf_cons by reflexivity.
  rewrite spf_plain by (apply qref_no_sign; exact Ht).
  rewrite Hsg. reflexivity.
Qed.

Lemma p_lowering_witness :
  convert_line (T "p(" ++ T "pi/4" ++ T ") " ++ T "q[0]" ++ T ";")
  = T "u(0,0," ++ T "pi/4" ++ T ") " ++ T "q[0]" ++ T ";".
Proof.
  apply (p_lowering (T "pi/4") (T "q[0]")); try reflexivity; discriminate.
Defined.

(** C6, as the specification words it, fails: an angle text with a
    parenthesis of its own is not rewritten at all. *)
Lemma p_lowering_nested_angle :
  convert_line (T "p(" ++ T "f(x)" ++ T ") " ++ T "a" ++ T ";")
  <> T "u(0,0," ++ T "f(x)" ++ T ") " ++ T "a" ++ T ";"
  /\ convert_line (T "p(f(x)) a;") = T "p(f(x)) a;".
Proof. split; [vm_compute; discriminate | vm_compute; reflexivity]. Qed.

(** ** Controlled-phase decomposition (C1) *)

Lemma cp_match_whole prev theta c t :
  theta <> [] -> forallb (not_char ")") theta = true ->
  c <> [] -> forallb is_qref c = true ->
  t <> [] -> forallb is_qref t = true ->
  exists m,
    match_at cp_pattern prev
      (T "cp(" ++ theta ++ T ") " ++ c ++ T "," ++ t ++ T ";") = Some m
    /\ ms_rest m = [] /\ group_text 1 m = theta
    /\ group_text 2 m = c /\ group_text 3 m = t.
Proof.
  intros Hne Hth Hcne Hc Htne Ht.
  unfold match_at. rewrite rmatch_run_k. unfold cp_pattern, start.
  cbn [T list_ascii_of_string app].
  rewrite run_k_cat. lit_step.
  rewrite run_k_cat, run_k_grp_plus_det;
    [ | assumption | assumption | reflexivity | dead_side ].
  rewrite run_k_cat. lit_step.
  rewrite run_k_cat, run_k_plus, run_k_chr_cons by reflexivity.
  rewrite run_k_star_none
    by (apply (stops_app _ is_qref); [assumption | assumption | apply qref_plain]).
  rewrite run_k_cat, run_k_grp_plus_det;
    [ | assumption | assumption | reflexivity | dead_side ].
  rewrite run_k_cat, run_k_star_none by reflexivity.
  rewrite run_k_cat. lit_step.
  rewrite run_k_cat, run_k_star_none
    by (apply (stops_app _ is_qref); [assumption | assumption | apply qref_plain]).
  rewrite run_k_cat, run_k_grp_plus_det;
    [ | assumption | assumption | reflexivity | dead_side ].
  rewrite run_k_cat, run_k_star_none by reflexivity.
  lit_step.
  eexists. split; [reflexivity|]. repeat split.
Qed.

(** The four statements the script writes for [cp(theta) c,t;], joined
    by newlines into one text. *)
Definition cp_native (theta c t : text) : text :=
  T "u(0,0,((" ++ theta ++ T ")/2)) " ++ t ++ T ";" ++ [NL]
  ++ T "cx " ++ c ++ T "," ++ t ++ T ";" ++ [NL]
  ++ T "u(0,0,-((" ++ theta ++ T ")/2)) " ++ t ++ T ";" ++ [NL]
  ++ T "cx " ++ c ++ T "," ++ t ++ T ";".

Lemma cp_to_native_form theta c t :
  theta <> [] -> forallb (not_char ")") theta = true ->
  c <> [] -> forallb is_qref c = true ->
  t <> [] -> forallb is_qref t = true ->
  cp_to_native (T "cp(" ++ theta ++ T ") " ++ c ++ T "," ++ t ++ T ";")
  = cp_native theta c t.
Proof.
  intros Hne Hth Hcne Hc Htne Ht.
  destruct (cp_match_whole None theta c t Hne Hth Hcne Hc Htne Ht)
    as [m [Hm [Hr [G1 [G2 G3]]]]].
  unfold cp_to_native, re_search. rewrite (search_from_here _ _ _ _ Hm).
  unfold re_sub_fun. rewrite (sub_go_whole _ _ _ _ m Hm Hr).
  - unfold cp_sub, cp_native. rewrite G1, G2, G3.
    cbn [Str.join T list_ascii_of_string app].
    rewrite <- !app_assoc. cbn [app]. 
    repeat (rewrite <- ?app_assoc; cbn [app]; f_equal).
  - discriminate.
  - reflexivity.
Qed.

Definition close_start (s : text) : bool :=
  match s with
  | y :: s' =>
      is_char ")" y && match s' with z :: _ => is_space z | [] => false end
  | [] => false
  end.

Lemma has_close_cons x s :
  not_char ")" x = true -> close_start s = false ->
  has_close (x :: s) = has_close s.
Proof.
  intros Hx Hs. destruct s as [|y [|z r]]; try reflexivity.
  simpl in Hs. cbn [has_close]. rewrite Hx. simpl andb at 1.
  rewrite Hs. reflexivity.
Qed.

Lemma has_close_close s : has_close (")"%char :: s) = has_close s.
Proof. destruct s as [|y [|z r]]; reflexivity. Qed.

Lemma close_start_app w s :
  forallb (not_char ")") w = true -> close_start s = false ->
  close_start (w ++ s) = false.
Proof.
  destruct w as [|x w]; simpl; intros Hw Hs; [exact Hs|].
  apply andb_true_iff in Hw. destruct Hw as [Hx _].
  unfold not_char in Hx. apply negb_true_iff in Hx.
  unfold is_char. rewrite Hx. reflexivity.
Qed.

Lemma has_close_skip w s :
  forallb (not_char ")") w = true -> close_start s = false ->
  has_close (w ++ s) = has_close s.
Proof.
  induction w as [|x w IH]; intros Hw Hs; [reflexivity|].
  simpl in Hw. apply andb_true_iff in Hw. destruct Hw as [Hx Hw].
  change ((x :: w) ++ s) with (x :: (w ++ s)).
  rewrite has_close_cons; auto using close_start_app.
Qed.

Lemma qref_np t :
  forallb is_qref t = true -> forallb (not_char ")") t = true.
Proof. apply qref_no_close. Qed.

Lemma spf_cons2 c d s :
  is_sign d = false -> sign_pair_free (c :: d :: s) = sign_pair_free (d :: s).
Proof.
  intros H. cbn [sign_pair_free]. rewrite H, andb_false_r. reflexivity.
Qed.

Ltac np_side := first [ assumption | apply qref_np; assumption ].

Ltac close_side :=
  first [ reflexivity
        | apply close_start_app; [ np_side | close_side ] ].

Ltac close_steps :=
  repeat first
    [ rewrite has_close_close
    | rewrite has_close_cons by (first [ reflexivity | close_side ])
    | rewrite has_close_skip by (first [ np_side | close_side ]) ].

Ltac sign_steps :=
  repeat first
    [ rewrite spf_cons by reflexivity
    | rewrite spf_cons2 by reflexivity
    | rewrite spf_plain by (apply qref_no_sign; assumption)
    | rewrite spf_app by reflexivity ].

(** C1, as the script has it: a statement [cp(theta) c,t;] is lowered to
    one text of four statements, in which each half angle is written with
    an enclosing pair of parentheses, [((theta)/2)] and [-((theta)/2)];
    this for [theta] a non-empty text without a closing parenthesis and
    without two adjacent signs, and [c], [t] non-empty qubit references. *)
Theorem cp_lowering theta c t :
  theta <> [] -> forallb (not_char ")") theta = true ->
  sign_pair_free theta = true ->
  c <> [] -> forallb is_qref c = true ->
  t <> [] -> forallb is_qref t = true ->
  convert_line (T "cp(" ++ theta ++ T ") " ++ c ++ T "," ++ t ++ T ";")
  = Str.join [NL]
      [ T "u(0,0,((" ++ theta ++ T ")/2)) " ++ t ++ T ";";
        T "cx " ++ c ++ T "," ++ t ++ T ";";
        T "u(0,0,-((" ++ theta ++ T ")/2)) " ++ t ++ T ";";
        T "cx " ++ c ++ T "," ++ t ++ T ";" ].
Proof.
  intros Hne Hth Hsg Hcne Hc Htne Ht.
  assert (J : Str.join [NL]
      [ T "u(0,0,((" ++ theta ++ T ")/2)) " ++ t ++ T ";";
        T "cx " ++ c ++ T "," ++ t ++ T ";";
        T "u(0,0,-((" ++ theta ++ T ")/2)) " ++ t ++ T ";";
        T "cx " ++ c ++ T "," ++ t ++ T ";" ] = cp_native theta c t).
  { unfold cp_native. cbn [Str.join T list_ascii_of_string app].
    repeat (rewrite <- ?app_assoc; cbn [app]; f_equal). }
  rewrite J. unfold convert_line.
  rewrite cp_to_native_form by assumption.
  assert (Hp : p_to_native (cp_native theta c t) = cp_native theta c t).
  { unfold p_to_native, re_search.
    rewrite p_search_none_close; [reflexivity|].
    unfold cp_native. cbn [T list_ascii_of_string app].
    close_steps. reflexivity. }
  rewrite Hp. apply sign_steps_id.
  unfold cp_native. cbn [T list_ascii_of_string app].
  sign_steps. rewrite Hsg. reflexivity.
Qed.

Lemma cp_lowering_witness :
  convert_line (T "cp(" ++ T "pi/2" ++ T ") " ++ T "q[0]" ++ T "," ++ T "q[1]" ++ T ";")
  = Str.join [NL]
      [ T "u(0,0,((" ++ T "pi/2" ++ T ")/2)) " ++ T "q[1]" ++ T ";";
        T "cx " ++ T "q[0]" ++ T "," ++ T "q[1]" ++ T ";";
        T "u(0,0,-((" ++ T "pi/2" ++ T ")/2)) " ++ T "q[1]" ++ T ";";
        T "cx " ++ T "q[0]" ++ T "," ++ T "q[1]" ++ T ";" ].
Proof.
  apply (cp_lowering (T "pi/2") (T "q[0]") (T "q[1]"));
    try reflexivity; discriminate.
Defined.

(** C1, as the specification words it, fails: the half angles the
    specification gives, [(theta)/2] and [-(theta)/2], are not what the
    script writes. *)
Lemma cp_lowering_spec_text :
  convert_line (T "cp(theta) a,b;")
  <> Str.join [NL]
       [ T "u(0,0,(theta)/2) b;"; T "cx a,b;";
         T "u(0,0,-(theta)/2) b;"; T "cx a,b;" ].
Proof. vm_compute. discriminate. Qed.

(** ** Lines without the two patterns (C3) *)



(** ** Native statements (C9) *)

Lemma has_open_cons x s :
  is_char "p" x = false -> has_open (x :: s) = has_open s.
Proof.
  intros H. destruct s as [|y s]; [reflexivity|].
  cbn [has_open]. rewrite H. reflexivity.
Qed.

Lemma has_open_app w y s :
  is_char "(" y = false ->
  has_open (w ++ y :: s) = has_open w || has_open (y :: s).
Proof.
  intros Hy. induction w as [|x w IH]; [reflexivity|].
  change ((x :: w) ++ y :: s) with (x :: (w ++ y :: s)).
  destruct w as [|x' w].
  - cbn [app has_open]. rewrite Hy, andb_false_r. reflexivity.
  - change (has_open (x :: (x' :: w) ++ y :: s))
      with ((is_char "p" x && is_char "(" x') || has_open ((x' :: w) ++ y :: s)).
    rewrite IH.
    change (has_open (x :: x' :: w))
      with ((is_char "p" x && is_char "(" x') || has_open (x' :: w)).
    rewrite orb_assoc. reflexivity.
Qed.

Lemma has_open_none w :
  forallb (fun c => negb (is_char "(" c)) w = true -> has_open w = false.
Proof.
  induction w as [|x w IH]; [reflexivity|].
  intros H. simpl in H. apply andb_true_iff in H. destruct H as [_ Hw].
  destruct w as [|y w]; [reflexivity|].
  change (has_open (x :: y :: w))
    with ((is_char "p" x && is_char "(" y) || has_open (y :: w)).
  rewrite (IH Hw). simpl in Hw. apply andb_true_iff in Hw. destruct Hw as [Hy _].
  apply negb_true_iff in Hy. rewrite Hy, andb_false_r. reflexivity.
Qed.

Lemma qref_no_open t :
  forallb is_qref t = true -> forallb (fun c => negb (is_char "(" c)) t = true.
Proof.
  apply forallb_imp. intros c H. apply qref_plain in H.
  destruct H as [_ [H _]]. rewrite H. reflexivity.
Qed.

Lemma spf_alone t :
  forallb is_qref t = true -> sign_pair_free t = true.
Proof.
  intros H. rewrite <- (app_nil_r t).
  rewrite spf_plain by (apply qref_no_sign; exact H). reflexivity.
Qed.

Ltac open_steps :=
  repeat first
    [ rewrite has_open_cons by reflexivity
    | rewrite has_open_app by reflexivity ].

(** C9, as the script has it: [convert_line] returns a native statement
    unchanged when the statement has no two adjacent signs and its angle
    texts do not hold the characters [p(]; a [cx] statement over qubit
    references is always returned unchanged. *)
Theorem native_unchanged :
  (forall th1 th2 th3 q,
      has_open th1 = false -> has_open th2 = false -> has_open th3 = false ->
      sign_pair_free th1 = true -> sign_pair_free th2 = true ->
      sign_pair_free th3 = true -> forallb is_qref q = true ->
      convert_line (T "u(" ++ th1 ++ T "," ++ th2 ++ T "," ++ th3 ++ T ") "
                    ++ q ++ T ";")
      = T "u(" ++ th1 ++ T "," ++ th2 ++ T "," ++ th3 ++ T ") " ++ q ++ T ";")
  /\ (forall c t,
      forallb is_qref c = true -> forallb is_qref t = true ->
      convert_line (T "cx " ++ c ++ T "," ++ t ++ T ";")
      = T "cx " ++ c ++ T "," ++ t ++ T ";").
Proof.
  split.
  - intros th1 th2 th3 q O1 O2 O3 S1 S2 S3 Hq.
    assert (Ho : has_open (T "u(" ++ th1 ++ T "," ++ th2 ++ T "," ++ th3
                            ++ T ") " ++ q ++ T ";") = false).
    { cbn [T list_ascii_of_string app]. open_steps.
      rewrite O1, O2, O3, (has_open_none q (qref_no_open q Hq)). reflexivity. }
    unfold convert_line, cp_to_native, p_to_native, re_search.
    rewrite (cp_search_none_open _ _ Ho), (p_search_none_open _ _ Ho).
    apply sign_steps_id. cbn [T list_ascii_of_string app].
    sign_steps. rewrite S1, S2, S3. reflexivity.
  - intros c t Hc Ht.
    assert (Ho : has_open (T "cx " ++ c ++ T "," ++ t ++ T ";") = false).
    { cbn [T list_ascii_of_string app]. open_steps.
      rewrite (has_open_none c (qref_no_open c Hc)),
              (has_open_none t (qref_no_open t Ht)). reflexivity. }
    unfold convert_line, cp_to_native, p_to_native, re_search.
    rewrite (cp_search_none_open _ _ Ho), (p_search_none_open _ _ Ho).
    apply sign_steps_id. cbn [T list_ascii_of_string app].
    sign_steps. reflexivity.
Qed.

Lemma native_unchanged_witness :
  convert_line (T "u(" ++ T "0" ++ T "," ++ T "0" ++ T "," ++ T "((pi/2)/2)"
                ++ T ") " ++ T "q[1]" ++ T ";")
  = T "u(" ++ T "0" ++ T "," ++ T "0" ++ T "," ++ T "((pi/2)/2)" ++ T ") "
    ++ T "q[1]" ++ T ";"
  /\ convert_line (T "cx " ++ T "q[0]" ++ T "," ++ T "q[1]" ++ T ";")
     = T "cx " ++ T "q[0]" ++ T "," ++ T "q[1]" ++ T ";".
Proof.
  split.
  - apply (proj1 native_unchanged); reflexivity.
  - apply (proj2 native_unchanged); reflexivity.
Defined.

(** C9, as the specification words it, fails: a native statement with two
    adjacent signs in an angle is rewritten. *)
Lemma native_changed_by_signs :
  convert_line (T "u(0,0,a--b) q[0];") = T "u(0,0,a-b) q[0];"
  /\ convert_line (T "u(0,0,a--b) q[0];") <> T "u(0,0,a--b) q[0];".
Proof. split; [vm_compute; reflexivity | vm_compute; discriminate]. Qed.

(** ** Substitution of a formal symbol (C4) *)

(** *** What the specification asks for

    The line is cut into identifiers (the longest runs of word
    characters) and single other characters; every identifier that is the
    formal symbol is replaced by the actual text, nothing else changes. *)

Definition flush (cur : text) : list text :=
  match cur with
  | [] => []
  | _ => [cur]
  end.

Fixpoint tokens_go (cur : text) (s : text) : list text :=
  match s with
  | [] => flush cur
  | c :: s' =>
      if is_word c then tokens_go (cur ++ [c]) s'
      else flush cur ++ [c] :: tokens_go [] s'
  end.

Definition tokens (s : text) : list text := tokens_go [] s.

Definition replace_identifier (f a : text) (line : text) : text :=
  List.concat (map (fun tok => if text_eqb tok f then a else tok) (tokens line)).

(** *** The script's substitution agrees with it *)

Lemma text_eqb_eq a b : text_eqb a b = true <-> a = b.
Proof.
  unfold text_eqb. destruct (list_eq_dec ascii_dec a b); split; congruence.
Qed.

Lemma text_eqb_refl a : text_eqb a a = true.
Proof. apply text_eqb_eq. reflexivity. Qed.

Lemma text_eqb_neq a b : a <> b -> text_eqb a b = false.
Proof.
  unfold text_eqb. destruct (list_eq_dec ascii_dec a b); congruence.
Qed.

Lemma tokens_go_run rest : forall run cur,
  forallb is_word run = true ->
  tokens_go cur (run ++ rest) = tokens_go (cur ++ run) rest.
Proof.
  induction run as [|c run IH]; intros cur H; simpl.
  - rewrite app_nil_r. reflexivity.
  - simpl in H. apply andb_true_iff in H. destruct H as [Hc Hr].
    rewrite Hc, IH by assumption. rewrite <- app_assoc. reflexivity.
Qed.

Lemma tokens_go_stop cur rest :
  stops is_word rest -> tokens_go cur rest = flush cur ++ tokens rest.
Proof.
  destruct rest as [|c r]; simpl; intros H.
  - rewrite app_nil_r. reflexivity.
  - unfold tokens. simpl. rewrite H. reflexivity.
Qed.

Lemma tokens_run run rest :
  run <> [] -> forallb is_word run = true -> stops is_word rest ->
  tokens (run ++ rest) = run :: tokens rest.
Proof.
  intros Hne Hr Hs. unfold tokens at 1.
  rewrite tokens_go_run by assumption. simpl.
  rewrite tokens_go_stop by assumption.
  destruct run; [congruence|reflexivity].
Qed.

Lemma tokens_other c s :
  is_word c = false -> tokens (c :: s) = [c] :: tokens s.
Proof. intros H. unfold tokens. simpl. rewrite H. reflexivity. Qed.

(** The longest class prefix of a text, and what follows. *)
Fixpoint span (p : ascii -> bool) (s : text) : text * text :=
  match s with
  | c :: s' =>
      if p c then let (u, v) := span p s' in (c :: u, v) else ([], s)
  | [] => ([], [])
  end.

Lemma span_spec p s :
  s = fst (span p s) ++ snd (span p s)
  /\ forallb p (fst (span p s)) = true /\ stops p (snd (span p s)).
Proof.
  induction s as [|c s IH]; simpl; [auto|].
  destruct (p c) eqn:Hc.
  - destruct (span p s) as [u v]. simpl in *.
    destruct IH as [E [Hu Hv]]. rewrite Hc, Hu, <- E. auto.
  - simpl. auto.
Qed.

Lemma span_unique p : forall u v x y,
  forallb p u = true -> stops p x -> forallb p v = true -> stops p y ->
  u ++ x = v ++ y -> u = v /\ x = y.
Proof.
  induction u as [|c u IH]; intros [|d v] x y Hu Hx Hv Hy E; simpl in *.
  - auto.
  - subst x. simpl in Hx. apply andb_true_iff in Hv. destruct Hv; congruence.
  - subst y. simpl in Hy. apply andb_true_iff in Hu. destruct Hu; congruence.
  - inversion E; subst d. apply andb_true_iff in Hu, Hv.
    destruct Hu as [_ Hu], Hv as [_ Hv].
    destruct (IH v x y Hu Hx Hv Hy H1) as [-> ->]. auto.
Qed.

Lemma lit_match_app f : forall prev s pos caps,
  lit_match f (MState prev (f ++ s) pos caps)
  = Some (MState (last_char prev f) s (pos + List.length f) caps).
Proof.
  induction f as [|c f IH]; intros prev s pos caps.
  - simpl. rewrite Nat.add_0_r. reflexivity.
  - change ((c :: f) ++ s) with (c :: (f ++ s)).
    rewrite lit_match_cons, IH. simpl.
    replace (pos + S (List.length f)) with (S (pos + List.length f)) by lia.
    reflexivity.
Qed.

Lemma symbol_match f prev s :
  match_at (symbol_pat f) prev s =
  if at_wordb (start prev s) then
    match lit_match f (start prev s) with
    | Some st' => if at_wordb st' then Some st' else None
    | None => None
    end
  else None.
Proof.
  unfold match_at, symbol_pat. simpl.
  destruct (at_wordb (start prev s)); simpl; [|reflexivity].
  destruct (lit_match f (start prev s)) as [st'|]; simpl; [|reflexivity].
  destruct (at_wordb st'); reflexivity.
Qed.

Lemma head_word w :
  w <> [] -> forallb is_word w = true ->
  exists c w', w = c :: w' /\ is_word c = true.
Proof.
  destruct w as [|c w']; [congruence|]. intros _ H. exists c, w'.
  simpl in H. apply andb_true_iff in H. tauto.
Qed.

Section Symbol.

Variables f a : text.
Hypothesis f_nonempty : f <> [].
Hypothesis f_word : forallb is_word f = true.

Let R := symbol_pat f.
Let repl := fun _ : mstate => a.

Lemma last_char_word prev w :
  w <> [] -> forallb is_word w = true -> opt_word (last_char prev w) = true.
Proof.
  intros Hne Hw. destruct (exists_last Hne) as [w' [x E]]. subst w.
  rewrite last_char_app. rewrite forallb_app in Hw. simpl in *.
  apply andb_true_iff in Hw. destruct Hw as [_ Hw].
  apply andb_true_iff in Hw. tauto.
Qed.

Lemma f_head : exists c f', f = c :: f' /\ is_word c = true.
Proof. exact (head_word f f_nonempty f_word). Qed.

(** No match where the text does not go on with a word character. *)
Lemma symbol_none_stop prev s :
  stops is_word s -> match_at R prev s = None.
Proof.
  intros Hs. unfold R. rewrite symbol_match.
  destruct (at_wordb (start prev s)); [|reflexivity].
  destruct (lit_match f (start prev s)) as [st'|] eqn:E; [|reflexivity].
  exfalso. apply lit_match_rest in E. destruct E as [E _]. simpl in E.
  destruct f_head as [c [f' [Ef Hc]]]. rewrite Ef in E. subst s.
  simpl in Hs. congruence.
Qed.

(** No match inside an identifier. *)
Lemma symbol_none_inside prev s :
  opt_word prev = true -> match_at R prev s = None.
Proof.
  intros Hp. destruct s as [|c s].
  - apply symbol_none_stop. exact I.
  - destruct (is_word c) eqn:Hc.
    + unfold R. rewrite symbol_match. unfold at_wordb. simpl.
      rewrite Hp, Hc. reflexivity.
    + apply symbol_none_stop. exact Hc.
Qed.

(** At the start of an identifier: a match exactly when it is [f]. *)
Lemma symbol_at_run prev run rest :
  opt_word prev = false -> run <> [] ->
  forallb is_word run = true -> stops is_word rest ->
  match_at R prev (run ++ rest) =
  if text_eqb run f
  then Some (MState (last_char prev f) rest (List.length f) [])
  else None.
Proof.
  intros Hp Hne Hr Hs. unfold R. rewrite symbol_match.
  assert (Hb : at_wordb (start prev (run ++ rest)) = true).
  { unfold at_wordb. simpl. rewrite Hp. destruct run as [|c run]; [congruence|].
    simpl in *. apply andb_true_iff in Hr. destruct Hr as [-> _]. reflexivity. }
  rewrite Hb.
  destruct (text_eqb run f) eqn:E.
  - apply text_eqb_eq in E. subst run. unfold start.
    rewrite lit_match_app. simpl.
    unfold at_wordb. simpl. rewrite (last_char_word prev f f_nonempty f_word).
    destruct rest as [|d rest]; simpl; [reflexivity|].
    simpl in Hs. rewrite Hs. reflexivity.
  - destruct (lit_match f (start prev (run ++ rest))) as [st'|] eqn:L;
      [|reflexivity].
    destruct (at_wordb st') eqn:B; [|reflexivity]. exfalso.
    apply lit_match_rest in L. destruct L as [L [_ [_ Lp]]]. simpl in L, Lp.
    unfold at_wordb in B. rewrite Lp in B.
    rewrite (last_char_word prev f f_nonempty f_word) in B.
    assert (Hst : stops is_word (ms_rest st')).
    { destruct (ms_rest st') as [|d r]; [exact I|]. simpl in *.
      destruct (is_word d); [discriminate|reflexivity]. }
    destruct (span_unique is_word run f rest (ms_rest st') Hr Hs f_word Hst L)
      as [Heq _].
    subst run. rewrite text_eqb_refl in E. discriminate.
Qed.

Lemma sub_inside : forall w rest prev,
  opt_word prev = true -> forallb is_word w = true ->
  sub_go R repl prev (w ++ rest) 0
  = w ++ sub_go R repl (last_char prev w) rest 0.
Proof.
  induction w as [|c w IH]; intros rest prev Hp Hw; [reflexivity|].
  simpl in Hw. apply andb_true_iff in Hw. destruct Hw as [Hc Hw].
  change ((c :: w) ++ rest) with (c :: (w ++ rest)).
  cbn [sub_go]. rewrite (symbol_none_inside prev _ Hp).
  rewrite IH by assumption. reflexivity.
Qed.

Lemma sub_at_run prev run rest :
  opt_word prev = false -> run <> [] ->
  forallb is_word run = true -> stops is_word rest ->
  sub_go R repl prev (run ++ rest) 0
  = (if text_eqb run f then a else run)
    ++ sub_go R repl (last_char prev run) rest 0.
Proof.
  intros Hp Hne Hr Hs.
  pose proof (symbol_at_run prev run rest Hp Hne Hr Hs) as M.
  destruct run as [|c run]; [congruence|].
  change ((c :: run) ++ rest) with (c :: (run ++ rest)) in *.
  cbn [sub_go]. rewrite M.
  destruct (text_eqb (c :: run) f) eqn:E.
  - apply text_eqb_eq in E. cbn [ms_pos].
    destruct (List.length f =? 0) eqn:L.
    + apply Nat.eqb_eq in L. rewrite <- E in L. discriminate.
    + unfold repl at 1. f_equal. rewrite <- E. simpl List.length.
      replace (S (List.length run) - 1) with (List.length run) by lia.
      rewrite sub_go_skip. reflexivity.
  - simpl in Hr. apply andb_true_iff in Hr. destruct Hr as [Hc Hr].
    rewrite sub_inside by (simpl; assumption). reflexivity.
Qed.

Lemma sub_other prev c s :
  is_word c = false ->
  sub_go R repl prev (c :: s) 0 = c :: sub_go R repl (Some c) s 0.
Proof.
  intros Hc. cbn [sub_go]. rewrite symbol_none_stop by exact Hc.
  reflexivity.
Qed.

Lemma tok_other c : is_word c = false -> text_eqb [c] f = false.
Proof.
  intros Hc. apply text_eqb_neq. intros E.
  destruct f_head as [d [f' [Ef Hd]]]. rewrite Ef in E.
  inversion E; subst. congruence.
Qed.

Lemma sub_tokens : forall n s prev,
  List.length s <= n ->
  opt_word prev = false \/ stops is_word s ->
  sub_go R repl prev s 0 = replace_identifier f a s.
Proof.
  induction n as [|n IH]; intros s prev Hn Hpre.
  - destruct s; [|simpl in Hn; lia]. simpl.
    rewrite symbol_none_stop by exact I. reflexivity.
  - destruct s as [|c s].
    + simpl. rewrite symbol_none_stop by exact I. reflexivity.
    + destruct (is_word c) eqn:Hc.
      * assert (Hp : opt_word prev = false).
        { destruct Hpre as [H|H]; [exact H|]. simpl in H. congruence. }
        destruct (span_spec is_word (c :: s)) as [E [Hu Hv]].
        destruct (span is_word (c :: s)) as [run rest] eqn:Esp.
        simpl in E, Hu, Hv.
        assert (Hne : run <> []).
        { simpl in Esp. rewrite Hc in Esp. destruct (span is_word s).
          inversion Esp. discriminate. }
        rewrite E. rewrite sub_at_run by assumption.
        unfold replace_identifier. rewrite tokens_run by assumption.
        cbn [map List.concat]. f_equal.
        apply IH.
        -- assert (List.length (c :: s) = List.length run + List.length rest)
             by (rewrite E, length_app; reflexivity).
           destruct run; [congruence|]. simpl in *. lia.
        -- right. exact Hv.
      * rewrite sub_other by exact Hc.
        unfold replace_identifier. rewrite tokens_other by exact Hc.
        cbn [map List.concat]. rewrite tok_other by exact Hc.
        cbn [app]. f_equal. apply IH.
        -- simpl in Hn. lia.
        -- left. simpl. exact Hc.
Qed.

End Symbol.

(** C4: substituting an actual text for a formal symbol that is an
    identifier replaces the identifiers of the line that are this symbol,
    whole, and nothing else: a longer identifier that extends the symbol
    stays as it is. *)
Theorem substitution_whole_identifiers (f a line : text) :
  f <> [] -> forallb is_word f = true ->
  existsb (is_char "\") a = false ->
  re_sub (symbol_pat f) a line = Done (replace_identifier f a line).
Proof.
  intros Hne Hf Ha. unfold re_sub. rewrite Ha. f_equal.
  unfold re_sub_lit, re_sub_fun.
  apply (sub_tokens f a Hne Hf (List.length line)); [lia|].
  left. reflexivity.
Qed.

Lemma substitution_whole_identifiers_witness :
  re_sub (symbol_pat (T "q")) (T "r[0]") (T "cx q,q2;")
  = Done (replace_identifier (T "q") (T "r[0]") (T "cx q,q2;"))
  /\ replace_identifier (T "q") (T "r[0]") (T "cx q,q2;") = T "cx r[0],q2;".
Proof.
  split.
  - apply (substitution_whole_identifiers (T "q") (T "r[0]") (T "cx q,q2;"));
      [discriminate | reflexivity | reflexivity].
  - reflexivity.
Defined.

(** ** Arity mismatch (C5) *)

Lemma combine_min (A B : Type) (l : list A) (l' : list B) :
  combine l l'
  = combine (firstn (Nat.min (List.length l) (List.length l')) l)
            (firstn (Nat.min (List.length l) (List.length l')) l').
Proof.
  rewrite <- combine_firstn. symmetry. apply firstn_all2.
  rewrite length_combine. lia.
Qed.

Lemma dict_set_keys (V : Type) (k : text) (v : V) (d : Dict.t V) (k' : text) :
  In k' (map fst (Dict.set k v d)) <-> k' = k \/ In k' (map fst d).
Proof.
  induction d as [|[k0 v0] d IH]; simpl.
  - intuition congruence.
  - destruct (text_eqb k0 k) eqn:E; simpl.
    + apply text_eqb_eq in E. subst k0. intuition congruence.
    + rewrite IH. intuition congruence.
Qed.

Lemma dict_of_pairs_keys (V : Type) (ps : list (text * V)) (k : text) :
  In k (map fst (Dict.of_pairs ps)) <-> In k (map fst ps).
Proof.
  unfold Dict.of_pairs.
  assert (G : forall d, In k (map fst (fold_left
                 (fun d kv => Dict.set (fst kv) (snd kv) d) ps d))
               <-> In k (map fst d) \/ In k (map fst ps)).
  { induction ps as [|[k0 v0] ps IH]; intros d; simpl.
    - tauto.
    - rewrite IH, dict_set_keys. intuition congruence. }
  rewrite G. simpl. tauto.
Qed.

Lemma dict_get_none (V : Type) (k : text) (d : Dict.t V) :
  ~ In k (map fst d) -> Dict.get k d = None.
Proof.
  induction d as [|[k0 v0] d IH]; simpl; intros H; [reflexivity|].
  destruct (text_eqb k0 k) eqn:E.
  - apply text_eqb_eq in E. tauto.
  - apply IH. tauto.
Qed.

Lemma dict_set_values (V : Type) (P : V -> Prop) (k : text) v (d : Dict.t V) :
  P v -> Forall P (map snd d) -> Forall P (map snd (Dict.set k v d)).
Proof.
  intros Hv. induction d as [|[k0 v0] d IH]; simpl; intros H.
  - constructor; auto.
  - inversion H; subst. destruct (text_eqb k0 k); simpl; constructor; auto.
Qed.

Lemma dict_of_pairs_values (V : Type) (P : V -> Prop) (ps : list (text * V)) :
  Forall P (map snd ps) -> Forall P (map snd (Dict.of_pairs ps)).
Proof.
  unfold Dict.of_pairs.
  assert (G : forall d, Forall P (map snd d) -> Forall P (map snd ps) ->
    Forall P (map snd (fold_left
                 (fun d kv => Dict.set (fst kv) (snd kv) d) ps d))).
  { induction ps as [|[k0 v0] ps IH]; intros d Hd H; simpl.
    - exact Hd.
    - inversion H; subst. apply IH; [|assumption].
      apply dict_set_values; assumption. }
  apply G. constructor.
Qed.

Definition no_backslash (a : text) : Prop := existsb (is_char "\") a = false.

(** The substitutions of one map, when none can fail. *)
Definition subst_pure (mp : Dict.t text) (line : text) : text :=
  fold_left (fun l fa => re_sub_lit (symbol_pat (fst fa)) (snd fa) l) mp line.

Lemma subst_map_done (mp : Dict.t text) : forall line,
  Forall no_backslash (map snd mp) ->
  subst_map mp line = Done (subst_pure mp line).
Proof.
  unfold subst_map, subst_pure.
  induction mp as [|[f a] mp IH]; intros line H; simpl; [reflexivity|].
  inversion H as [|? ? Ha Hmp]; subst. simpl in Ha.
  unfold re_sub at 2. unfold no_backslash in Ha. rewrite Ha.
  apply IH. exact Hmp.
Qed.

Lemma map_result_done (A B : Type) (f : A -> result B) (g : A -> B) (l : list A) :
  (forall a, f a = Done (g a)) -> map_result f l = Done (map g l).
Proof.
  intros H. induction l as [|a l IH]; simpl; [reflexivity|].
  rewrite H, IH. reflexivity.
Qed.

Lemma combine_snd_forall (P : text -> Prop) (l l' : list text) :
  Forall P l' -> Forall P (map snd (combine l l')).
Proof.
  intros H. revert l. induction H as [|x l' Hx _ IH]; intros [|y l]; simpl;
    try constructor; auto.
Qed.

Lemma combine_fst_in (l l' : list text) (k : text) :
  In k (map fst (combine l l')) -> In k l.
Proof.
  revert l'. induction l as [|x l IH]; intros [|y l']; simpl; try tauto.
  intros [H|H]; [auto|right; eapply IH; eauto].
Qed.

(** C5: a call whose actual counts differ from the formal counts is
    expanded all the same.  Only the first [min] formals and actuals of
    each kind are paired: the body is rewritten with these pairs alone, so
    a formal without an actual has no entry in the map and is not
    substituted, and an actual without a formal is dropped. *)
Theorem arity_mismatch (gdef : gate_def) (m : mstate) :
  let fp := params gdef in
  let ap := actual_params m in
  let fq := qubits gdef in
  let aq := actual_qubits m in
  let kp := Nat.min (List.length fp) (List.length ap) in
  let kq := Nat.min (List.length fq) (List.length aq) in
  let p_map := Dict.of_pairs (combine (firstn kp fp) (firstn kp ap)) in
  let q_map := Dict.of_pairs (combine (firstn kq fq) (firstn kq aq)) in
  Forall no_backslash (firstn kp ap) ->
  Forall no_backslash (firstn kq aq) ->
  expand_call gdef m
  = Done (map (fun b => convert_line (subst_pure q_map (subst_pure p_map b)))
              (body gdef))
  /\ (forall f, ~ In f (firstn kp fp) -> Dict.get f p_map = None)
  /\ (forall f, ~ In f (firstn kq fq) -> Dict.get f q_map = None).
Proof.
  intros fp ap fq aq kp kq p_map q_map Hp Hq. split; [|split].
  - unfold expand_call. fold fp ap fq aq.
    rewrite (combine_min _ _ fp ap), (combine_min _ _ fq aq).
    fold kp kq. fold p_map q_map.
    apply (map_result_done _ _ _
             (fun b => convert_line (subst_pure q_map (subst_pure p_map b)))).
    intros b. unfold subst_body_line.
    rewrite subst_map_done
      by (apply dict_of_pairs_values, combine_snd_forall; exact Hp).
    simpl. rewrite subst_map_done
      by (apply dict_of_pairs_values, combine_snd_forall; exact Hq).
    reflexivity.
  - intros f Hf. apply dict_get_none. intros H. apply Hf.
    unfold p_map in H. apply (proj1 (dict_of_pairs_keys _ _ _)) in H.
    exact (combine_fst_in _ _ _ H).
  - intros f Hf. apply dict_get_none. intros H. apply Hf.
    unfold q_map in H. apply (proj1 (dict_of_pairs_keys _ _ _)) in H.
    exact (combine_fst_in _ _ _ H).
Qed.

(** A gate of two parameters called with one: [gate foo(a,b) q] with
    body [rz(a+b) q;], called as [foo(1) q[0];]. *)
Definition two_param_gate : gate_def :=
  GateDef [T "a"; T "b"] [T "q"] [T "rz(a+b) q;"].

Definition one_actual_call : mstate :=
  match re_match call_pat (T "foo(1) q[0];") with
  | Some m => m
  | None => start None []
  end.

Lemma arity_mismatch_witness :
  expand_call two_param_gate one_actual_call = Done [T "rz(1+b) q[0];"]
  /\ expand_line [(T "foo", two_param_gate)] (T "foo(1) q[0];")
     = Done ([T "rz(1+b) q[0];"], true).
Proof.
  split.
  - destruct (arity_mismatch two_param_gate one_actual_call) as [H _].
    + repeat constructor.
    + repeat constructor.
    + rewrite H. reflexivity.
  - reflexivity.
Defined.

(** ** Substitution is sequential (C10) *)

Definition swap_text : text :=
  T "OPENQASM 2.0;" ++ [NL] ++ T "gate swp a,b {" ++ [NL]
  ++ T "  cx a,b;" ++ [NL] ++ T "}" ++ [NL] ++ T "swp b,a;" ++ [NL].

(** C10: the formals are substituted one after the other, so a later
    substitution rewrites what an earlier one wrote.  With formals [a,b]
    and actuals [b,a] the body line [cx a,b;] first becomes [cx b,b;] and
    then [cx a,a;]: both formals end as the same actual. *)
Theorem substitution_is_sequential :
  (forall f a mp line,
      subst_map ((f, a) :: mp) line
      = (line' <- re_sub (symbol_pat f) a line ;; subst_map mp line'))
  /\ gate_defs swap_text
     = [(T "swp", GateDef [] [T "a"; T "b"] [T "cx a,b;"])]
  /\ re_sub (symbol_pat (T "a")) (T "b") (T "cx a,b;") = Done (T "cx b,b;")
  /\ re_sub (symbol_pat (T "b")) (T "a") (T "cx b,b;") = Done (T "cx a,a;")
  /\ expand_once (gate_defs swap_text) [T "swp b,a;"]
     = Done ([T "cx a,a;"], true)
  /\ script 2 swap_text
     = Done (T "OPENQASM 2.0;" ++ [NL] ++ T "cx a,a;" ++ [NL]).
Proof.
  split; [|repeat split; vm_compute; reflexivity].
  intros f a mp line. unfold subst_map. simpl.
  destruct (re_sub (symbol_pat f) a line) as [l|e|]; simpl; [reflexivity| |].
  - induction mp as [|x mp IH]; simpl; auto.
  - induction mp as [|x mp IH]; simpl; auto.
Qed.

(** ** The expansion loop (C2) *)

(** The statement is a call of a defined gate: it has the shape of a call
    and its head identifier is a key of the definition mapping. *)
Definition is_call (defs : Dict.t gate_def) (ln : text) : bool :=
  match re_match call_pat ln with
  | Some m => Dict.mem (group_text 1 m) defs
  | None => false
  end.

Definition quiet (defs : Dict.t gate_def) (lines : list text) : bool :=
  forallb (fun l => negb (is_call defs l)) lines.

(** The reference graph of the definitions has no edge: no body line is
    a call of a defined gate. *)
Definition no_reference (defs : Dict.t gate_def) : bool :=
  forallb (fun kd => quiet defs (body (snd kd))) defs.

(** [settles defs d ln]: what [ln] becomes pass after pass holds calls
    for at most [d] passes, nested calls counted along the way, no
    substitution fails, and lowering never makes a call of a line that
    was none. *)
Fixpoint settles (defs : Dict.t gate_def) (d : nat) (ln : text) : bool :=
  match expand_line defs ln with
  | Done (out, changed) =>
      match d with
      | 0 => negb changed && quiet defs out
      | S d' => (changed || quiet defs out) && forallb (settles defs d') out
      end
  | _ => false
  end.

Lemma expand_line_changed defs ln out c :
  expand_line defs ln = Done (out, c) -> c = is_call defs ln.
Proof.
  unfold expand_line, is_call, Dict.mem.
  destruct (re_match call_pat ln) as [m|]; [|intros H; inversion H; reflexivity].
  destruct (Dict.get (group_text 1 m) defs) as [g|];
    [|intros H; inversion H; reflexivity].
  destruct (expand_call g m); simpl; intros H; inversion H; reflexivity.
Qed.

Lemma expand_once_changed defs : forall lines out c,
  expand_once defs lines = Done (out, c) ->
  c = existsb (is_call defs) lines.
Proof.
  induction lines as [|ln lines IH]; simpl; intros out c H.
  - inversion H. reflexivity.
  - destruct (expand_line defs ln) as [[o1 c1]|e|] eqn:E1; simpl in H;
      try discriminate.
    destruct (expand_once defs lines) as [[o2 c2]|e|] eqn:E2; simpl in H;
      try discriminate.
    inversion H; subst.
    rewrite (expand_line_changed _ _ _ _ E1), (IH _ _ eq_refl). reflexivity.
Qed.

Lemma quiet_app defs a b : quiet defs (a ++ b) = quiet defs a && quiet defs b.
Proof. unfold quiet. apply forallb_app. Qed.

Lemma once_settles_0 defs : forall lines,
  forallb (settles defs 0) lines = true ->
  exists out, expand_once defs lines = Done (out, false)
              /\ quiet defs out = true.
Proof.
  induction lines as [|ln lines IH]; simpl; intros H.
  - exists []. auto.
  - apply andb_true_iff in H. destruct H as [H1 H2].
    destruct (expand_line defs ln) as [[o1 c1]|e|]; try discriminate.
    apply andb_true_iff in H1. destruct H1 as [Hc Hq].
    apply negb_true_iff in Hc. subst c1.
    destruct (IH H2) as [o2 [E2 Q2]]. rewrite E2. simpl.
    exists (o1 ++ o2). rewrite quiet_app, Hq, Q2. auto.
Qed.

Lemma once_settles_S defs d : forall lines,
  forallb (settles defs (S d)) lines = true ->
  exists out c, expand_once defs lines = Done (out, c)
                /\ forallb (settles defs d) out = true
                /\ (c = false -> quiet defs out = true).
Proof.
  induction lines as [|ln lines IH]; intros H.
  - exists [], false. auto.
  - cbn [forallb] in H. apply andb_true_iff in H. destruct H as [H1 H2].
    cbn [settles] in H1. cbn [expand_once].
    destruct (expand_line defs ln) as [[o1 c1]|e|]; try discriminate.
    apply andb_true_iff in H1. destruct H1 as [Hc Hs].
    destruct (IH H2) as [o2 [c2 [E2 [S2 Q2]]]]. rewrite E2. simpl.
    exists (o1 ++ o2), (c1 || c2). split; [reflexivity|]. split.
    + rewrite forallb_app, Hs, S2. reflexivity.
    + intros Hcc. apply orb_false_iff in Hcc. destruct Hcc as [-> ->].
      simpl in Hc. rewrite quiet_app, Hc, Q2; auto.
Qed.

(** With more passes allowed than levels to settle, the loop returns. *)
Lemma expand_loop_settles defs : forall d lines fuel,
  forallb (settles defs d) lines = true ->
  d < fuel ->
  exists out, expand_loop fuel defs lines = Done out.
Proof.
  induction d as [|d IH]; intros lines [|fuel] H Hf; try lia.
  - destruct (once_settles_0 defs lines H) as [out [E _]].
    exists out. simpl. rewrite E. reflexivity.
  - destruct (once_settles_S defs d lines H) as [out [c [E [S _]]]].
    simpl. rewrite E. simpl. destruct c.
    + apply IH; [exact S|lia].
    + exists out. reflexivity.
Qed.


(** Two levels of definitions around a [cp]. *)
Definition nested_text : text :=
  T "OPENQASM 2.0;" ++ [NL]
  ++ T "gate inner(x) c,t {" ++ [NL] ++ T "  cp(x) c,t;" ++ [NL] ++ T "}" ++ [NL]
  ++ T "gate outer(y) a,b {" ++ [NL] ++ T "  inner(y) a,b;" ++ [NL]
  ++ T "  h a;" ++ [NL] ++ T "}" ++ [NL]
  ++ T "outer(pi/4) q[0],q[1];" ++ [NL].


(** A definition whose parameter stands where a gate name is expected,
    called with its own name. *)
Definition self_text : text :=
  T "OPENQASM 2.0;" ++ [NL]
  ++ T "gate foo(g) q {" ++ [NL] ++ T "  g(g) q;" ++ [NL] ++ T "}" ++ [NL]
  ++ T "foo(foo) q[0];" ++ [NL].

(** A definition that takes the name of the native gate. *)
Definition shadow_text : text :=
  T "OPENQASM 2.0;" ++ [NL]
  ++ T "gate u(a,b,c) q {" ++ [NL] ++ T "  U(a,b,c) q;" ++ [NL] ++ T "}" ++ [NL]
  ++ T "p(x) q[0];" ++ [NL].

Lemma expand_loop_stuck defs lines :
  expand_once defs lines = Done (lines, true) ->
  forall fuel, expand_loop fuel defs lines = OutOfFuel.
Proof.
  intros H. induction fuel as [|fuel IH]; simpl; [reflexivity|].
  rewrite H. simpl. exact IH.
Qed.


(** ** The lines of the text written (C7) *)

(** *** Lines inside a text *)

(** No line boundary at all. *)
Definition plain (e : text) : bool :=
  forallb (fun c => negb (is_linebreak c)) e.

(** No line boundary other than the newline. *)
Definition nl_only (e : text) : bool :=
  forallb (fun c => negb (is_linebreak c) || is_char NL c) e.

Definition has_nl (e : text) : bool := existsb (is_char NL) e.

Definition count_close (e : text) : nat :=
  List.length (filter (is_char ")") e).

(** Reading [e] newline by newline: [seen] tells whether the piece being
    read has shown a character that is no space.  The result is [None]
    when a piece ends without one, else the state at the end. *)
Fixpoint scan (seen : bool) (e : text) : option bool :=
  match e with
  | [] => Some seen
  | c :: e' =>
      if is_char NL c then (if seen then scan false e' else None)
      else scan (seen || negb (is_space c)) e'
  end.

(** Every piece of [e] between newlines, the first and the last too, has
    a character that is no space. *)
Definition solid (e : text) : Prop := scan false e = Some true.

Lemma scan_app a : forall seen b,
  scan seen (a ++ b)
  = match scan seen a with Some x => scan x b | None => None end.
Proof.
  induction a as [|c a IH]; intros seen b; simpl; [reflexivity|].
  destruct (is_char NL c); [destruct seen; [apply IH|reflexivity]|apply IH].
Qed.

Lemma scan_mono e : forall x,
  scan false e = Some x -> exists y, scan true e = Some y /\ (x = true -> y = true).
Proof.
  induction e as [|c e IH]; simpl; intros x H.
  - inversion H. exists true. auto.
  - destruct (is_char NL c); [discriminate|].
    simpl in H. destruct (negb (is_space c)).
    + exists x. auto.
    + apply IH. exact H.
Qed.

Lemma scan_true_some e seen x :
  scan seen e = Some x -> exists y, scan true e = Some y /\ (x = true -> y = true).
Proof.
  destruct seen; [eauto|apply scan_mono].
Qed.

Lemma scan_no_nl e : forall seen,
  has_nl e = false -> scan seen e = Some (seen || Str.nonblank e).
Proof.
  unfold Str.nonblank.
  induction e as [|c e IH]; simpl; intros seen H.
  - rewrite orb_false_r. reflexivity.
  - apply orb_false_iff in H. destruct H as [Hc He]. rewrite Hc.
    rewrite IH by exact He. f_equal.
    destruct seen, (is_space c); simpl; try reflexivity.
Qed.

Lemma nonblank_snoc cur c :
  Str.nonblank (rev (c :: cur))
  = Str.nonblank (rev cur) || negb (is_space c).
Proof.
  unfold Str.nonblank. simpl. rewrite forallb_app. simpl.
  rewrite andb_true_r, negb_andb. reflexivity.
Qed.

Definition unlines (ls : list text) : text :=
  List.concat (map (fun l => l ++ [NL]) ls).

Lemma splitlines_solid rest :
  forallb Str.nonblank (Str.splitlines_go [] rest) = true ->
  forall l cur,
  nl_only l = true -> scan (Str.nonblank (rev cur)) l = Some true ->
  forallb Str.nonblank (Str.splitlines_go cur (l ++ NL :: rest)) = true.
Proof.
  intros Hrest. induction l as [|c l IH]; intros cur Hl Hs.
  - simpl in Hs. inversion Hs as [Hc]. simpl.
    destruct rest as [|d rest'].
    + simpl. rewrite Hc. reflexivity.
    + simpl. rewrite Hc. exact Hrest.
  - simpl in Hl. apply andb_true_iff in Hl. destruct Hl as [Hc Hl].
    change ((c :: l) ++ NL :: rest) with (c :: (l ++ NL :: rest)).
    simpl in Hs. destruct (is_char NL c) eqn:En.
    + unfold is_char in En. apply Ascii.eqb_eq in En. subst c.
      destruct (Str.nonblank (rev cur)) eqn:Hcur; [|discriminate].
      cbn [Str.splitlines_go]. change (is_linebreak NL) with true. cbv iota.
      destruct (l ++ NL :: rest) as [|d s''] eqn:E.
      { destruct l; discriminate. }
      change (Ascii.eqb NL "013") with false. cbv iota. simpl andb. cbv iota.
      cbn [forallb]. rewrite Hcur. cbn [andb].
      apply (IH []); [exact Hl | exact Hs].
    + rewrite ?En in Hc. rewrite orb_false_r in Hc.
      apply negb_true_iff in Hc.
      cbn [Str.splitlines_go]. rewrite Hc.
      apply IH; [exact Hl|]. rewrite nonblank_snoc. exact Hs.
Qed.

Lemma splitlines_unlines :
  forall ls,
  Forall (fun l => nl_only l = true /\ solid l) ls ->
  forallb Str.nonblank (Str.splitlines (unlines ls)) = true.
Proof.
  unfold Str.splitlines.
  induction 1 as [|l ls [Hn Hs] _ IH]; [reflexivity|].
  unfold unlines. simpl. rewrite <- app_assoc. simpl.
  apply splitlines_solid; [exact IH | exact Hn | exact Hs].
Qed.

Lemma join_unlines (ls : list text) :
  ls <> [] -> Str.join [NL] ls ++ [NL] = unlines ls.
Proof.
  induction ls as [|l ls IH]; [congruence|]. intros _.
  destruct ls as [|l' ls].
  - unfold unlines. simpl. rewrite app_nil_r. reflexivity.
  - change (Str.join [NL] (l :: l' :: ls)) with (l ++ [NL] ++ Str.join [NL] (l' :: ls)).
    rewrite <- !app_assoc. rewrite IH by discriminate.
    unfold unlines. simpl. rewrite <- !app_assoc. reflexivity.
Qed.

(** *** What [re.sub] does to a text, seen from outside

    [rewrites P s s']: [s'] is [s] with some non-overlapping parts [w]
    replaced by texts [R], each pair standing in the relation [P]. *)

Inductive rewrites (P : text -> text -> Prop) : text -> text -> Prop :=
| rw_nil : rewrites P [] []
| rw_keep c s s' : rewrites P s s' -> rewrites P (c :: s) (c :: s')
| rw_repl w R s s' : P w R -> rewrites P s s' -> rewrites P (w ++ s) (R ++ s').

Lemma match_at_in r prev s m :
  match_at r prev s = Some m -> In m (rmatch r (start prev s)).
Proof.
  unfold match_at. destruct (rmatch r (start prev s)) as [|x l]; simpl;
    [discriminate|]. intros H. inversion H. auto.
Qed.

Lemma match_at_nonempty_in r prev s m :
  match_at_nonempty r prev s = Some m ->
  In m (rmatch r (start prev s)) /\ ms_pos m <> 0.
Proof.
  unfold match_at_nonempty. intros H.
  destruct (filter _ (rmatch r (start prev s))) as [|x l] eqn:E; [discriminate|].
  simpl in H. inversion H; subst x.
  assert (Hin : In m (filter (fun m => negb (ms_pos m =? 0))
                        (rmatch r (start prev s)))) by (rewrite E; left; auto).
  apply filter_In in Hin. destruct Hin as [Hin Hp]. split; [exact Hin|].
  apply negb_true_iff, Nat.eqb_neq in Hp. exact Hp.
Qed.

Section SubRewrites.

Variable r : regex.
Variable repl : mstate -> text.
Variable P : text -> text -> Prop.

Hypothesis every_match : forall prev s m,
  In m (rmatch r (start prev s)) ->
  forall w, s = w ++ ms_rest m -> P w (repl m).

Lemma sub_go_taken n (IH : forall s prev, List.length s <= n ->
                           rewrites P s (sub_go r repl prev s 0))
  prev c s m :
  List.length (c :: s) <= S n ->
  In m (rmatch r (start prev (c :: s))) -> ms_pos m <> 0 ->
  rewrites P (c :: s) (repl m ++ sub_go r repl (Some c) s (ms_pos m - 1)).
Proof.
  intros Hn Hin Hpos.
  destruct (rmatch_moves r _ _ Hin) as [w [Ew Pw]]. simpl in Ew, Pw.
  destruct w as [|d w]; [simpl in Pw; congruence|].
  simpl in Ew. injection Ew as Ec Es. subst d.
  rewrite Pw. simpl List.length.
  replace (S (List.length w) - 1) with (List.length w) by lia.
  rewrite Es at 2. rewrite sub_go_skip.
  assert (Ew : c :: s = (c :: w) ++ ms_rest m) by (simpl; congruence).
  rewrite Ew at 1.
  apply rw_repl.
  - apply (every_match prev (c :: s) m Hin). exact Ew.
  - apply IH. simpl in Hn.
    assert (List.length s = List.length w + List.length (ms_rest m)).
    { rewrite Es at 1. apply length_app. }
    lia.
Qed.

Lemma sub_go_rewrites : forall n s prev,
  List.length s <= n -> rewrites P s (sub_go r repl prev s 0).
Proof.
  induction n as [|n IH]; intros s prev Hn.
  - destruct s as [|c s]; [|simpl in Hn; lia]. simpl.
    destruct (match_at r prev []) as [m|] eqn:E; [|constructor].
    apply match_at_in in E.
    assert (Pm : P [] (repl m)).
    { apply (every_match prev [] m E).
      destruct (rmatch_moves r _ _ E) as [w [Ew _]]. simpl in Ew.
      destruct w; [exact Ew|discriminate]. }
    destruct (ms_pos m =? 0).
    + destruct (match_at_nonempty r prev []) as [m2|] eqn:E2.
      * apply match_at_nonempty_in in E2. destruct E2 as [E2 _].
        apply (rw_repl P [] (repl m) [] _ Pm).
        apply (rw_repl P [] (repl m2) [] []); [|constructor].
        apply (every_match prev [] m2 E2).
        destruct (rmatch_moves r _ _ E2) as [w [Ew _]]. simpl in Ew.
        destruct w; [exact Ew|discriminate].
      * apply (rw_repl P [] (repl m) [] []); [exact Pm|constructor].
    + apply (rw_repl P [] (repl m) [] []); [exact Pm|constructor].
  - destruct s as [|c s].
    + apply (IH [] prev). simpl. lia.
    + assert (Hs : List.length s <= n) by (simpl in Hn; lia).
      cbn [sub_go].
      destruct (match_at r prev (c :: s)) as [m|] eqn:E.
      * apply match_at_in in E.
        destruct (ms_pos m =? 0) eqn:Z.
        -- apply Nat.eqb_eq in Z.
           assert (Pm : P [] (repl m)).
           { apply (every_match prev (c :: s) m E).
             destruct (rmatch_moves r _ _ E) as [w [Ew Pw]]. simpl in Ew, Pw.
             destruct w; [exact Ew|simpl in Pw; lia]. }
           apply (rw_repl P [] (repl m) (c :: s) _ Pm).
           destruct (match_at_nonempty r prev (c :: s)) as [m2|] eqn:E2.
           ++ apply match_at_nonempty_in in E2. destruct E2 as [E2 Hp].
              apply (sub_go_taken n IH prev); assumption.
           ++ apply rw_keep. apply IH. exact Hs.
        -- apply Nat.eqb_neq in Z. apply (sub_go_taken n IH prev); assumption.
      * apply rw_keep. apply IH. exact Hs.
Qed.

Lemma re_sub_fun_rewrites s : rewrites P s (re_sub_fun r repl s).
Proof. apply (sub_go_rewrites (List.length s)). lia. Qed.

End SubRewrites.

(** *** What a rewriting keeps *)

Section Rewrites.

Variable P : text -> text -> Prop.

Lemma rewrites_forallb (Q : ascii -> bool) :
  (forall w R, P w R -> forallb Q w = true -> forallb Q R = true) ->
  forall s s', rewrites P s s' -> forallb Q s = true -> forallb Q s' = true.
Proof.
  intros HP. induction 1 as [|c s s' _ IH|w R s s' Hw _ IH]; intros H.
  - reflexivity.
  - simpl in *. apply andb_true_iff in H. destruct H as [-> H]. auto.
  - rewrite forallb_app in *. apply andb_true_iff in H. destruct H as [H1 H2].
    rewrite (HP w R Hw H1), IH; auto.
Qed.

Lemma count_close_app a b :
  count_close (a ++ b) = count_close a + count_close b.
Proof. unfold count_close. rewrite filter_app, length_app. reflexivity. Qed.

Lemma has_nl_app a b : has_nl (a ++ b) = has_nl a || has_nl b.
Proof. apply existsb_app. Qed.

Hypothesis P_count : forall w R, P w R -> count_close w <= count_close R.

Lemma rewrites_count : forall s s',
  rewrites P s s' -> count_close s <= count_close s'.
Proof.
  induction 1 as [|c s s' _ IH|w R s s' Hw _ IH].
  - lia.
  - unfold count_close in *. simpl. destruct (is_char ")" c); simpl; lia.
  - rewrite !count_close_app. specialize (P_count w R Hw). lia.
Qed.

Hypothesis P_nl : forall w R, P w R ->
  has_nl R = true -> has_nl w = true \/ 2 <= count_close R.

Lemma rewrites_nl : forall s s',
  rewrites P s s' ->
  has_nl s' = true -> has_nl s = true \/ 2 <= count_close s'.
Proof.
  induction 1 as [|c s s' Hr IH|w R s s' Hw Hr IH]; intros H.
  - discriminate.
  - simpl in H. apply orb_true_iff in H. destruct H as [H|H].
    + left. simpl. rewrite H. reflexivity.
    + destruct (IH H) as [G|G].
      * left. simpl. rewrite G. apply orb_true_r.
      * right. unfold count_close in *. simpl.
        destruct (is_char ")" c); simpl; lia.
  - rewrite has_nl_app in H. apply orb_true_iff in H. destruct H as [H|H].
    + destruct (P_nl w R Hw H) as [G|G].
      * left. rewrite has_nl_app, G. reflexivity.
      * right. rewrite count_close_app. lia.
    + destruct (IH H) as [G|G].
      * left. rewrite has_nl_app, G. apply orb_true_r.
      * right. rewrite count_close_app. lia.
Qed.

Hypothesis P_scan : forall w R, P w R ->
  (exists x, scan true w = Some x) -> forall seen, scan seen R = Some true.

Lemma rewrites_solid : forall s s',
  rewrites P s s' ->
  forall seen, scan seen s = Some true -> scan seen s' = Some true.
Proof.
  induction 1 as [|c s s' _ IH|w R s s' Hw _ IH]; intros seen H.
  - exact H.
  - simpl in *. destruct (is_char NL c).
    + destruct seen; [auto|discriminate].
    + auto.
  - rewrite scan_app in H. destruct (scan seen w) as [x|] eqn:Ex; [|discriminate].
    destruct (scan_true_some w seen x Ex) as [y [Ey _]].
    rewrite scan_app, (P_scan w R Hw (ex_intro _ y Ey)).
    apply IH. destruct (scan_true_some s x true H) as [z [Ez Hz]].
    rewrite Ez, Hz; auto.
Qed.

Lemma rewrites_plain : forall s s',
  rewrites P s s' -> has_nl s = false ->
  forall seen, has_nl s' = false \/ scan seen s' = Some true.
Proof.
  induction 1 as [|c s s' _ IH|w R s s' Hw _ IH]; intros Hn seen.
  - left. reflexivity.
  - simpl in Hn. apply orb_false_iff in Hn. destruct Hn as [Hc Hn].
    simpl. rewrite Hc. simpl.
    destruct (IH Hn (seen || negb (is_space c))) as [G|G]; auto.
  - rewrite has_nl_app in Hn. apply orb_false_iff in Hn. destruct Hn as [Hw' Hn].
    right. rewrite scan_app.
    rewrite (P_scan w R Hw); [|rewrite (scan_no_nl w true Hw'); eauto].
    destruct (IH Hn true) as [G|G]; [|exact G].
    rewrite (scan_no_nl s' true G). reflexivity.
Qed.

End Rewrites.

(** *** The groups of a match are parts of the matched text *)

Definition factor (t S : text) : Prop := exists a b, S = a ++ t ++ b.

Lemma factor_refl w : factor w w.
Proof. exists [], []. simpl. rewrite app_nil_r. reflexivity. Qed.

Lemma factor_nil w : factor [] w.
Proof. exists [], w. reflexivity. Qed.

Lemma factor_app_l t u v : factor t u -> factor t (u ++ v).
Proof.
  intros [a [b ->]]. exists a, (b ++ v). rewrite <- !app_assoc. reflexivity.
Qed.

Lemma factor_app_r t u v : factor t v -> factor t (u ++ v).
Proof.
  intros [a [b ->]]. exists (u ++ a), b. rewrite <- !app_assoc. reflexivity.
Qed.

Lemma factor_forallb (Q : ascii -> bool) t w :
  factor t w -> forallb Q w = true -> forallb Q t = true.
Proof.
  intros [a [b ->]] H. rewrite !forallb_app in H.
  apply andb_true_iff in H. destruct H as [_ H].
  apply andb_true_iff in H. tauto.
Qed.

Lemma factor_has_nl t w : factor t w -> has_nl t = true -> has_nl w = true.
Proof.
  intros [a [b ->]] H. rewrite !has_nl_app, H.
  rewrite orb_true_r. reflexivity.
Qed.

Lemma factor_scan t w :
  factor t w -> (exists x, scan true w = Some x) -> exists y, scan true t = Some y.
Proof.
  intros [a [b ->]] [x H]. rewrite scan_app in H.
  destruct (scan true a) as [xa|]; [|discriminate].
  rewrite scan_app in H.
  destruct (scan xa t) as [xt|] eqn:E; [|discriminate].
  destruct (scan_true_some t xa xt E) as [y [Ey _]]. eauto.
Qed.

Lemma rmatch_caps r : forall st st',
  In st' (rmatch r st) ->
  forall w, ms_rest st = w ++ ms_rest st' ->
  forall n t, In (n, t) (ms_caps st') ->
  In (n, t) (ms_caps st) \/ factor t w.
Proof.
  induction r as [l|p|p|r IH|g r IH|r1 IH1 r2 IH2| | | |]; simpl;
    intros st st' H w Ew n t Hin;
    try (apply in_guard in H; subst st'; left; exact Hin).
  - destruct (lit_match l st) as [x|] eqn:E; [|contradiction].
    destruct H as [<-|[]]. apply lit_match_rest in E.
    destruct E as [_ [_ [E _]]]. rewrite E in Hin. auto.
  - destruct (ms_rest st) as [|c s'] eqn:E; [contradiction|].
    destruct (p c); [|contradiction]. destruct H as [<-|[]]. auto.
  - apply star_match_in in H. destruct H as [_ [_ [_ [_ [E _]]]]].
    rewrite E in Hin. auto.
  - apply in_app_or in H. destruct H as [H|[<-|[]]]; [|auto].
    eapply IH; eauto.
  - apply in_map_iff in H. destruct H as [x [<- Hx]]. simpl in *.
    destruct Hin as [Hin|Hin].
    + inversion Hin; subst. right.
      destruct (rmatch_moves r _ _ Hx) as [w' [Ew' Pw']].
      rewrite Ew' in Ew. apply app_inv_tail in Ew. subst w'.
      rewrite Pw', Ew', firstn_taken. apply factor_refl.
    + eapply IH; eauto.
  - apply in_flat_map in H. destruct H as [mid [Hm H]].
    destruct (rmatch_moves r1 _ _ Hm) as [u [Eu _]].
    destruct (rmatch_moves r2 _ _ H) as [v [Ev _]].
    assert (w = u ++ v).
    { rewrite Eu, Ev, app_assoc in Ew. apply app_inv_tail in Ew. auto. }
    subst w.
    destruct (IH2 _ _ H v Ev n t Hin) as [G|G]; [|right; apply factor_app_r; exact G].
    destruct (IH1 _ _ Hm u Eu n t G) as [G'|G']; [auto|].
    right. apply factor_app_l. exact G'.
Qed.

Lemma assoc_in n caps t : assoc n caps = Some t -> In (n, t) caps.
Proof.
  induction caps as [|[k v] caps IH]; simpl; [discriminate|].
  destruct (k =? n) eqn:E.
  - apply Nat.eqb_eq in E. intros H. inversion H; subst. auto.
  - auto.
Qed.

Lemma group_text_factor r prev s m w n :
  In m (rmatch r (start prev s)) -> s = w ++ ms_rest m ->
  factor (group_text n m) w.
Proof.
  intros Hin Ew. unfold group_text, group.
  destruct (assoc n (ms_caps m)) as [t|] eqn:E; [|apply factor_nil].
  apply assoc_in in E.
  destruct (rmatch_caps r _ _ Hin w Ew n t E) as [[]|G]. exact G.
Qed.

Lemma match_lang_of r prev s m w :
  In m (rmatch r (start prev s)) -> s = w ++ ms_rest m -> lang r w.
Proof.
  intros Hin Ew. destruct (rmatch_lang r _ _ Hin) as [w' [Ew' L]].
  simpl in Ew'. rewrite Ew' in Ew. apply app_inv_tail in Ew. subst w'. exact L.
Qed.

(** *** Lowering keeps the lines of a text whole *)

(** What a replacement must keep for the lines to stay whole. *)
Definition lowers (w R : text) : Prop :=
  (nl_only w = true -> nl_only R = true)
  /\ ((exists x, scan true w = Some x) -> forall seen, scan seen R = Some true)
  /\ count_close w <= count_close R
  /\ (has_nl R = true -> has_nl w = true \/ 2 <= count_close R).

(** A text of the body: its only line boundaries are newlines, and if it
    has any, every piece between them has a character that is no space
    and the text holds two closing parentheses or more. *)
Definition inv (e : text) : Prop :=
  nl_only e = true
  /\ (has_nl e = false \/ (solid e /\ 2 <= count_close e)).

Lemma rewrites_inv e e' : rewrites lowers e e' -> inv e -> inv e'.
Proof.
  intros Hr [Hn Hs]. split.
  - apply (rewrites_forallb lowers
             (fun c => negb (is_linebreak c) || is_char NL c)) with (s := e);
      [|exact Hr|exact Hn].
    intros w R [H _]. exact H.
  - destruct (has_nl e') eqn:E; [right|left; reflexivity].
    assert (Hc : count_close e <= count_close e').
    { apply (rewrites_count lowers); [|exact Hr]. intros w R [_ [_ [H _]]]. exact H. }
    assert (Hnl : has_nl e = true \/ 2 <= count_close e').
    { apply (rewrites_nl lowers) with (s := e); [|exact Hr|exact E].
      intros w R [_ [_ [_ H]]]. exact H. }
    assert (Hp : forall w R, lowers w R ->
              (exists x, scan true w = Some x) ->
              forall seen, scan seen R = Some true).
    { intros w R [_ [H _]]. exact H. }
    destruct Hs as [Hs|[Hs Hcc]].
    + split.
      * destruct (rewrites_plain lowers Hp e e' Hr Hs false) as [G|G];
          [congruence|exact G].
      * destruct Hnl as [G|G]; [congruence|exact G].
    + split; [|lia].
      apply (rewrites_solid lowers Hp e e' Hr false). exact Hs.
Qed.

Lemma count_close_none w :
  forallb (not_char ")") w = true -> count_close w = 0.
Proof.
  unfold count_close. induction w as [|c w IH]; simpl; [reflexivity|].
  intros H. apply andb_true_iff in H. destruct H as [Hc Hw].
  unfold not_char in Hc. apply negb_true_iff in Hc.
  unfold is_char. rewrite Hc. auto.
Qed.

Lemma plus_lang_all p u : lang (Plus p) u -> forallb p u = true.
Proof.
  simpl. intros [a [b [E [[c [Ea Hc]] Hb]]]]. subst a u.
  simpl. rewrite Hc, Hb. reflexivity.
Qed.

Lemma space_np w : forallb is_space w = true -> forallb (not_char ")") w = true.
Proof. apply forallb_imp. intros c. char_cases c. Qed.

Lemma word_np w : forallb is_word w = true -> forallb (not_char ")") w = true.
Proof. apply forallb_imp. intros c. char_cases c. Qed.

Lemma args_np w : forallb is_args w = true -> forallb (not_char ")") w = true.
Proof. apply forallb_imp. intros c. char_cases c. Qed.

Lemma cp_lang_count w : lang cp_pattern w -> count_close w = 1.
Proof.
  unfold cp_pattern. intros H.
  destruct H as [u1 [v1 [E1 [L1 H]]]].
  destruct H as [u2 [v2 [E2 [L2 H]]]].
  destruct H as [u3 [v3 [E3 [L3 H]]]].
  destruct H as [u4 [v4 [E4 [L4 H]]]].
  destruct H as [u5 [v5 [E5 [L5 H]]]].
  destruct H as [u6 [v6 [E6 [L6 H]]]].
  destruct H as [u7 [v7 [E7 [L7 H]]]].
  destruct H as [u8 [v8 [E8 [L8 H]]]].
  destruct H as [u9 [v9 [E9 [L9 H]]]].
  destruct H as [u10 [v10 [E10 [L10 L11]]]].
  apply plus_lang_all in L2, L4, L5, L9. simpl in L1, L3, L6, L7, L8, L10, L11.
  subst. rewrite !count_close_app.
  rewrite (count_close_none u2 L2), (count_close_none u4 (space_np _ L4)),
    (count_close_none u5 (qref_np _ L5)), (count_close_none u6 (space_np _ L6)),
    (count_close_none u8 (space_np _ L8)), (count_close_none u9 (qref_np _ L9)),
    (count_close_none u10 (space_np _ L10)).
  reflexivity.
Qed.

Lemma p_lang_count w : lang p_pattern w -> count_close w = 1.
Proof.
  unfold p_pattern. intros H.
  destruct H as [u1 [v1 [E1 [L1 H]]]].
  destruct H as [u2 [v2 [E2 [L2 H]]]].
  destruct H as [u3 [v3 [E3 [L3 H]]]].
  destruct H as [u4 [v4 [E4 [L4 H]]]].
  destruct H as [u5 [v5 [E5 [L5 H]]]].
  destruct H as [u6 [v6 [E6 [L6 L7]]]].
  apply plus_lang_all in L2, L4, L5. simpl in L1, L3, L6, L7.
  subst. rewrite !count_close_app.
  rewrite (count_close_none u2 L2), (count_close_none u4 (space_np _ L4)),
    (count_close_none u5 (qref_np _ L5)), (count_close_none u6 (space_np _ L6)).
  reflexivity.
Qed.

Lemma scan_cons_ns c t seen :
  is_space c = false -> scan seen (c :: t) = scan true t.
Proof.
  intros H. simpl. destruct (is_char NL c) eqn:E.
  - unfold is_char in E. apply Ascii.eqb_eq in E. subst c. discriminate.
  - rewrite H. simpl. rewrite orb_true_r. reflexivity.
Qed.

Lemma scan_cons_sp c t :
  is_char NL c = false -> scan true (c :: t) = scan true t.
Proof. intros H. simpl. rewrite H. reflexivity. Qed.

Lemma scan_cons_nl t : scan true (NL :: t) = scan false t.
Proof. reflexivity. Qed.

Lemma scan_seg g c t :
  (exists y, scan true g = Some y) -> is_space c = false ->
  scan true (g ++ c :: t) = scan true t.
Proof.
  intros [y Hy] Hc. rewrite scan_app, Hy. apply scan_cons_ns. exact Hc.
Qed.

Ltac scan_steps :=
  repeat first
    [ rewrite scan_seg by (first [ assumption | reflexivity ])
    | rewrite scan_cons_sp by reflexivity
    | rewrite scan_cons_nl; rewrite scan_cons_ns by reflexivity ].

Lemma cp_sub_native m :
  cp_sub m = cp_native (group_text 1 m) (group_text 2 m) (group_text 3 m).
Proof.
  unfold cp_sub, cp_native. cbn [Str.join T list_ascii_of_string app].
  repeat (rewrite <- ?app_assoc; cbn [app]; f_equal).
Qed.

Lemma cp_lowers prev s m w :
  In m (rmatch cp_pattern (start prev s)) -> s = w ++ ms_rest m ->
  lowers w (cp_sub m).
Proof.
  intros Hin Ew.
  pose proof (match_lang_of _ _ _ _ _ Hin Ew) as L.
  pose proof (group_text_factor _ _ _ _ _ 1 Hin Ew) as F1.
  pose proof (group_text_factor _ _ _ _ _ 2 Hin Ew) as F2.
  pose proof (group_text_factor _ _ _ _ _ 3 Hin Ew) as F3.
  rewrite cp_sub_native.
  set (th := group_text 1 m) in *. set (c := group_text 2 m) in *.
  set (t := group_text 3 m) in *.
  assert (Hcc : 2 <= count_close (cp_native th c t)).
  { unfold cp_native. rewrite !count_close_app.
    change (count_close (T ")/2)) ")) with 3. lia. }
  repeat split.
  - intros Hn. unfold nl_only in *.
    pose proof (factor_forallb _ _ _ F1 Hn) as H1.
    pose proof (factor_forallb _ _ _ F2 Hn) as H2.
    pose proof (factor_forallb _ _ _ F3 Hn) as H3.
    unfold cp_native. rewrite !forallb_app, H1, H2, H3. reflexivity.
  - intros Hx seen.
    pose proof (factor_scan _ _ F1 Hx) as H1.
    pose proof (factor_scan _ _ F2 Hx) as H2.
    pose proof (factor_scan _ _ F3 Hx) as H3.
    unfold cp_native. cbn [T list_ascii_of_string app].
    rewrite scan_cons_ns by reflexivity. scan_steps. reflexivity.
  - rewrite (cp_lang_count w L). lia.
  - intros _. right. exact Hcc.
Qed.

Lemma p_lowers prev s m w :
  In m (rmatch p_pattern (start prev s)) -> s = w ++ ms_rest m ->
  lowers w (p_sub m).
Proof.
  intros Hin Ew.
  pose proof (match_lang_of _ _ _ _ _ Hin Ew) as L.
  pose proof (group_text_factor _ _ _ _ _ 1 Hin Ew) as F1.
  pose proof (group_text_factor _ _ _ _ _ 2 Hin Ew) as F2.
  unfold p_sub.
  set (th := group_text 1 m) in *. set (t := group_text 2 m) in *.
  repeat split.
  - intros Hn. unfold nl_only in *.
    pose proof (factor_forallb _ _ _ F1 Hn) as H1.
    pose proof (factor_forallb _ _ _ F2 Hn) as H2.
    rewrite !forallb_app, H1, H2. reflexivity.
  - intros Hx seen.
    pose proof (factor_scan _ _ F1 Hx) as H1.
    pose proof (factor_scan _ _ F2 Hx) as H2.
    cbn [T list_ascii_of_string app].
    rewrite scan_cons_ns by reflexivity. scan_steps. reflexivity.
  - rewrite (p_lang_count w L). rewrite !count_close_app.
    change (count_close (T ") ")) with 1. lia.
  - intros H. left. rewrite !has_nl_app in H.
    change (has_nl (T "u(0,0,")) with false in H.
    change (has_nl (T ") ")) with false in H.
    change (has_nl (T ";")) with false in H.
    simpl in H. rewrite orb_false_r in H.
    apply orb_true_iff in H. destruct H as [H|H].
    + exact (factor_has_nl _ _ F1 H).
    + exact (factor_has_nl _ _ F2 H).
Qed.

Lemma sign_lowers (a b c : ascii) prev s m w :
  lowers [a; b] [c] ->
  In m (rmatch (Lit [a; b]) (start prev s)) -> s = w ++ ms_rest m ->
  lowers w [c].
Proof.
  intros H Hin Ew. pose proof (match_lang_of _ _ _ _ _ Hin Ew) as L.
  simpl in L. subst w. exact H.
Qed.

Lemma sign_pair_lowers (a b c : ascii) :
  is_sign a = true -> is_sign b = true -> is_sign c = true ->
  lowers [a; b] [c].
Proof.
  intros Ha Hb Hc.
  assert (Hs : forall x, is_sign x = true ->
            is_space x = false /\ is_char NL x = false
            /\ is_char ")" x = false /\ is_linebreak x = false).
  { intros x. char_cases x; repeat split. }
  destruct (Hs a Ha) as [A1 [A2 [A3 A4]]].
  destruct (Hs b Hb) as [B1 [B2 [B3 B4]]].
  destruct (Hs c Hc) as [C1 [C2 [C3 C4]]].
  repeat split.
  - intros _. unfold nl_only. simpl. rewrite C4. reflexivity.
  - intros _ seen. simpl. rewrite C2, C1. simpl.
    rewrite orb_true_r. reflexivity.
  - unfold count_close. simpl. rewrite A3, B3. simpl. lia.
  - unfold has_nl. simpl. rewrite C2. discriminate.
Qed.

Lemma sign_step_inv (a b c : ascii) e :
  is_sign a = true -> is_sign b = true -> is_sign c = true ->
  inv e -> inv (re_sub_lit (Lit [a; b]) [c] e).
Proof.
  intros Ha Hb Hc. apply rewrites_inv. unfold re_sub_lit.
  apply re_sub_fun_rewrites. intros prev s m Hin w Ew.
  apply (sign_lowers a b c prev s m w); auto using sign_pair_lowers.
Qed.

(** Lowering keeps the invariant of a body text. *)
Lemma convert_line_inv e : inv e -> inv (convert_line e).
Proof.
  intros H. unfold convert_line.
  assert (H1 : inv (cp_to_native e)).
  { unfold cp_to_native. destruct (re_search cp_pattern e) as [m0|]; [|exact H].
    apply (rewrites_inv e); [|exact H].
    apply re_sub_fun_rewrites. intros prev s m Hin w Ew.
    apply (cp_lowers prev s m w); assumption. }
  assert (H2 : inv (p_to_native (cp_to_native e))).
  { unfold p_to_native.
    destruct (re_search p_pattern (cp_to_native e)) as [m0|]; [|exact H1].
    apply (rewrites_inv (cp_to_native e)); [|exact H1].
    apply re_sub_fun_rewrites. intros prev s m Hin w Ew.
    apply (p_lowers prev s m w); assumption. }
  apply (sign_step_inv "-" "-" "-"); try reflexivity.
  apply (sign_step_inv "+" "-" "-"); try reflexivity.
  apply (sign_step_inv "-" "+" "-"); try reflexivity.
  apply (sign_step_inv "+" "+" "+"); try reflexivity.
  exact H2.
Qed.

(** *** A call is a text of one line *)

Fixpoint ends_eos (r : regex) : bool :=
  match r with
  | Cat _ r2 => ends_eos r2
  | Eos => true
  | _ => false
  end.

Lemma rmatch_ends_eos r : forall st st',
  ends_eos r = true -> In st' (rmatch r st) -> at_eos st' = true.
Proof.
  induction r as [l|p|p|r IH|g r IH|r1 IH1 r2 IH2| | | |]; simpl;
    intros st st' He H; try discriminate.
  - apply in_flat_map in H. destruct H as [mid [_ H]]. eapply IH2; eauto.
  - destruct (at_eos st) eqn:E; simpl in H; [|contradiction].
    destruct H as [<-|[]]. exact E.
Qed.

Lemma call_lang_count w : lang call_pat w -> count_close w <= 1.
Proof.
  unfold call_pat. intros H.
  destruct H as [u1 [v1 [E1 [L1 H]]]].
  destruct H as [u2 [v2 [E2 [L2 H]]]].
  destruct H as [u3 [v3 [E3 [L3 H]]]].
  destruct H as [u4 [v4 [E4 [L4 H]]]].
  destruct H as [u5 [v5 [E5 [L5 H]]]].
  destruct H as [u6 [v6 [E6 [L6 H]]]].
  destruct H as [u7 [v7 [E7 [L7 H]]]].
  destruct H as [u8 [v8 [E8 [L8 H]]]].
  destruct H as [u9 [v9 [E9 [L9 L10]]]].
  apply plus_lang_all in L3, L7. simpl in L1, L2, L4, L6, L8, L9, L10.
  assert (H5 : count_close u5 <= 1).
  { destruct L5 as [->|L5]; [unfold count_close; simpl; lia|].
    destruct L5 as [a [b [Ea [La [c [d [Eb [Lc Ld]]]]]]]].
    simpl in La, Lc, Ld. subst. rewrite !count_close_app.
    rewrite (count_close_none c Lc). unfold count_close. simpl. lia. }
  subst. rewrite !count_close_app.
  rewrite (count_close_none u2 (space_np _ L2)),
    (count_close_none u3 (word_np _ L3)), (count_close_none u4 (space_np _ L4)),
    (count_close_none u6 (space_np _ L6)), (count_close_none u7 (args_np _ L7)),
    (count_close_none u9 (space_np _ L9)).
  unfold count_close at 1 3 4. simpl. lia.
Qed.

Lemma nl_only_plain e : nl_only e = true -> has_nl e = false -> plain e = true.
Proof.
  unfold nl_only, has_nl, plain.
  induction e as [|c e IH]; simpl; [reflexivity|]. intros H N.
  apply andb_true_iff in H. destruct H as [Hc He].
  apply orb_false_iff in N. destruct N as [Nc Ne].
  rewrite Nc, orb_false_r in Hc. rewrite Hc. auto.
Qed.

Lemma plain_inv e : plain e = true -> inv e.
Proof.
  unfold plain. intros H. split.
  - unfold nl_only. revert H. apply forallb_imp. intros c ->. reflexivity.
  - left. unfold has_nl. apply existsb_none. revert H. apply forallb_imp.
    intros c. char_cases c.
Qed.

(** A statement with the shape of a call holds one closing parenthesis at
    most, so under the invariant it has no line boundary. *)
Lemma call_plain e m : inv e -> re_match call_pat e = Some m -> plain e = true.
Proof.
  intros [Hn Hs] Hm. apply match_at_in in Hm.
  destruct (rmatch_moves _ _ _ Hm) as [w [Ew _]]. simpl in Ew.
  pose proof (match_lang_of _ _ _ _ _ Hm Ew) as L.
  apply call_lang_count in L.
  assert (He : at_eos m = true) by (eapply rmatch_ends_eos; eauto; reflexivity).
  assert (Hr : count_close (ms_rest m) = 0).
  { unfold at_eos in He. destruct (ms_rest m) as [|c [|d r]]; try discriminate.
    - reflexivity.
    - apply Ascii.eqb_eq in He. subst c. reflexivity. }
  apply nl_only_plain; [exact Hn|].
  destruct Hs as [Hs|[_ Hc]]; [exact Hs|].
  rewrite Ew, count_close_app in Hc. lia.
Qed.

(** *** The texts cut out of a line keep its characters *)

Section KeepClass.

Variable Q : ascii -> bool.

Let all (l : text) : Prop := forallb Q l = true.

Lemma all_rev l : all l -> all (rev l).
Proof.
  unfold all. rewrite !forallb_forall. intros H x Hx. apply H.
  apply in_rev. exact Hx.
Qed.

Lemma all_lstrip l : all l -> all (Str.lstrip l).
Proof.
  unfold all. induction l as [|c l IH]; simpl; [auto|]. intros H.
  destruct (is_space c); [|exact H].
  apply andb_true_iff in H. apply IH. tauto.
Qed.

Lemma all_strip l : all l -> all (Str.strip l).
Proof.
  intros H. unfold Str.strip, Str.rstrip.
  apply all_lstrip, all_rev, all_lstrip, all_rev. exact H.
Qed.

Lemma all_split sep l : all l -> Forall all (Str.split sep l).
Proof.
  unfold all. induction l as [|c l IH]; simpl; intros H.
  - constructor; [reflexivity|constructor].
  - apply andb_true_iff in H. destruct H as [Hc Hl]. specialize (IH Hl).
    destruct (Ascii.eqb c sep).
    + constructor; [reflexivity|exact IH].
    + destruct (Str.split sep l) as [|x xs]; inversion IH; subst.
      * constructor; [simpl; rewrite Hc; reflexivity|constructor].
      * constructor; [simpl; rewrite Hc; assumption|assumption].
Qed.

Lemma all_removelast l : all l -> all (removelast l).
Proof.
  unfold all. induction l as [|c l IH]; [auto|]. intros H.
  simpl in H. apply andb_true_iff in H. destruct H as [Hc Hl].
  destruct l as [|d l]; [reflexivity|].
  change (removelast (c :: d :: l)) with (c :: removelast (d :: l)).
  simpl forallb at 1. rewrite Hc. apply IH. exact Hl.
Qed.

Lemma all_slice l : all l -> all (Str.slice_1_m1 l).
Proof.
  intros H. unfold Str.slice_1_m1. apply all_removelast.
  destruct l as [|c l]; [exact H|]. unfold all in *. simpl in *.
  apply andb_true_iff in H. tauto.
Qed.

Lemma all_split_strip l : all l -> Forall all (split_strip l).
Proof.
  intros H. unfold split_strip. apply Forall_map.
  eapply Forall_impl; [|apply (all_split "," l H)].
  intros a. apply all_strip.
Qed.

Lemma all_factor t w : factor t w -> all w -> all t.
Proof. apply factor_forallb. Qed.

Lemma all_actuals e m :
  re_match call_pat e = Some m -> all e ->
  Forall all (actual_params m) /\ Forall all (actual_qubits m).
Proof.
  intros Hm He. apply match_at_in in Hm.
  destruct (rmatch_moves _ _ _ Hm) as [w [Ew _]]. simpl in Ew.
  assert (Hw : all w).
  { unfold all in *. rewrite Ew, forallb_app in He.
    apply andb_true_iff in He. tauto. }
  split.
  - unfold actual_params. destruct (group 2 m) as [g|] eqn:G; [|constructor].
    apply all_split_strip, all_slice.
    pose proof (group_text_factor _ _ _ _ _ 2 Hm Ew) as F.
    unfold group_text in F. rewrite G in F. exact (all_factor _ _ F Hw).
  - unfold actual_qubits. apply all_split_strip.
    exact (all_factor _ _ (group_text_factor _ _ _ _ _ 3 Hm Ew) Hw).
Qed.

Lemma all_re_sub r a s s' :
  re_sub r a s = Done s' -> all a -> all s -> all s'.
Proof.
  unfold re_sub. destruct (existsb (is_char "\") a); [discriminate|].
  intros H Ha Hs. inversion H; subst s'. unfold re_sub_lit.
  apply (rewrites_forallb (fun _ R => R = a) Q) with (s := s);
    [|apply re_sub_fun_rewrites; reflexivity|exact Hs].
  intros w R -> _. exact Ha.
Qed.

Lemma all_subst_map (mp : Dict.t text) : forall line line',
  Forall all (map snd mp) -> all line ->
  subst_map mp line = Done line' -> all line'.
Proof.
  unfold subst_map.
  assert (G : forall (acc : result text) line',
            (forall l, acc = Done l -> all l) ->
            Forall all (map snd mp) ->
            fold_left (fun acc fa => line <- acc ;;
                         re_sub (symbol_pat (fst fa)) (snd fa) line) mp acc
            = Done line' -> all line').
  { induction mp as [|[f a] mp IH]; intros acc line' Hacc Hmp H; simpl in H.
    - apply Hacc. exact H.
    - inversion Hmp; subst. eapply IH; [|eassumption|exact H].
      intros l Hl. destruct acc as [x| |]; simpl in Hl; try discriminate.
      eapply all_re_sub; eauto. }
  intros line line' Hmp Hl H. eapply G; [|exact Hmp|exact H].
  intros l E. inversion E; subst. exact Hl.
Qed.

End KeepClass.

(** *** The definitions hold plain lines *)

Definition plain_lines (ls : list text) : Prop :=
  Forall (fun l => plain l = true) ls.

Definition plain_defs (defs : Dict.t gate_def) : Prop :=
  Forall (fun g => plain_lines (body g)) (map snd defs).

Lemma splitlines_go_plain : forall s cur,
  plain cur = true -> plain_lines (Str.splitlines_go cur s).
Proof.
  unfold plain_lines.
  assert (R : forall cur, plain cur = true -> plain (rev cur) = true).
  { intros cur. apply all_rev. }
  assert (G : forall n s cur, List.length s <= n -> plain cur = true ->
            Forall (fun l => plain l = true) (Str.splitlines_go cur s)).
  { induction n as [|n IH]; intros s cur Hn Hc.
    - destruct s; [|simpl in Hn; lia]. simpl.
      destruct cur; constructor; [apply R; exact Hc|constructor].
    - destruct s as [|c s].
      + simpl. destruct cur; constructor; [apply R; exact Hc|constructor].
      + simpl in Hn. cbn [Str.splitlines_go].
        destruct (is_linebreak c) eqn:E.
        * destruct s as [|d s'].
          -- constructor; [apply R; exact Hc|constructor].
          -- destruct (Ascii.eqb c "013" && Ascii.eqb d "010").
             ++ constructor; [apply R; exact Hc|].
                apply IH; [simpl in Hn; lia|reflexivity].
             ++ constructor; [apply R; exact Hc|].
                apply IH; [lia|reflexivity].
        * apply IH; [lia|]. unfold plain. simpl. rewrite E. exact Hc. }
  intros s cur. apply (G (List.length s)). lia.
Qed.

Lemma splitlines_plain txt : plain_lines (Str.splitlines txt).
Proof. apply splitlines_go_plain. reflexivity. Qed.

Lemma capture_plain : forall ls brace blk rest,
  plain_lines ls -> capture brace ls = (blk, rest) ->
  plain_lines blk /\ plain_lines rest.
Proof.
  unfold plain_lines.
  induction ls as [|l ls IH]; simpl; intros brace blk rest H E.
  - inversion E. split; constructor.
  - inversion H; subst.
    destruct (Z.eqb _ 0).
    + inversion E; subst. split; [constructor; [assumption|constructor]|assumption].
    + destruct (capture _ ls) as [b r] eqn:C. inversion E; subst.
      destruct (IH _ _ _ H3 C) as [Hb Hr].
      split; [constructor; assumption|assumption].
Qed.

Lemma def_of_plain m blk : plain_lines blk -> plain_lines (body (def_of m blk)).
Proof.
  unfold plain_lines, def_of. simpl. intros H.
  apply Forall_map. apply Forall_forall. intros b Hb.
  apply filter_In in Hb. destruct Hb as [Hb _].
  apply all_strip.
  assert (G : forall (l : list text),
            Forall (fun l => plain l = true) l ->
            Forall (fun l => plain l = true) (Str.slice_1_m1 l)).
  { intros l Hl. unfold Str.slice_1_m1.
    assert (Ht : Forall (fun l => plain l = true) (tl l)).
    { destruct l; [constructor|]. inversion Hl; assumption. }
    revert Ht. generalize (tl l). intros k Hk.
    induction k as [|x k IHk]; [constructor|].
    inversion Hk; subst. destruct k as [|y k]; [constructor|].
    change (removelast (x :: y :: k)) with (x :: removelast (y :: k)).
    constructor; auto. }
  specialize (G blk H). rewrite Forall_forall in G. apply G. exact Hb.
Qed.

Lemma parse_loop_plain : forall fuel ls defs outside,
  plain_lines ls -> plain_defs defs ->
  plain_defs (fst (parse_loop fuel ls defs outside)).
Proof.
  induction fuel as [|fuel IH]; intros ls defs outside Hl Hd; simpl;
    [exact Hd|].
  destruct ls as [|line ls']; [exact Hd|].
  destruct (re_match header_pat line) as [m|].
  - destruct (capture 0 (line :: ls')) as [blk rest] eqn:C.
    destruct (capture_plain _ _ _ _ Hl C) as [Hb Hr].
    apply IH; [exact Hr|].
    unfold plain_defs. apply dict_set_values; [|exact Hd].
    apply def_of_plain. exact Hb.
  - apply IH; [|exact Hd]. inversion Hl; assumption.
Qed.

Lemma gate_defs_plain txt : plain_defs (gate_defs txt).
Proof.
  unfold gate_defs, parse. apply parse_loop_plain.
  - apply splitlines_plain.
  - constructor.
Qed.

Lemma dict_get_in (V : Type) (k : text) (d : Dict.t V) (v : V) :
  Dict.get k d = Some v -> In v (map snd d).
Proof.
  induction d as [|[k0 v0] d IH]; simpl; [discriminate|].
  destruct (text_eqb k0 k); [intros H; inversion H; auto|auto].
Qed.

(** *** The loop keeps the invariant *)

Lemma map_result_forall (A B : Type) (f : A -> result B) (PA : A -> Prop)
    (PB : B -> Prop) :
  (forall a b, PA a -> f a = Done b -> PB b) ->
  forall l out, Forall PA l -> map_result f l = Done out -> Forall PB out.
Proof.
  intros H. induction l as [|a l IH]; simpl; intros out Hl E.
  - inversion E. constructor.
  - inversion Hl; subst.
    destruct (f a) as [b| |] eqn:Ea; simpl in E; try discriminate.
    destruct (map_result f l) as [bs| |] eqn:El; simpl in E; try discriminate.
    inversion E; subst. constructor; eauto.
Qed.

Lemma expand_line_inv defs e out c :
  plain_defs defs -> inv e ->
  expand_line defs e = Done (out, c) -> Forall inv out.
Proof.
  intros Hd He. unfold expand_line.
  destruct (re_match call_pat e) as [m|] eqn:Em.
  - destruct (Dict.get (group_text 1 m) defs) as [g|] eqn:Eg.
    + destruct (expand_call g m) as [o| |] eqn:Ec; simpl; try discriminate.
      intros H. inversion H; subst o c. clear H.
      pose proof (call_plain e m He Em) as Hp.
      destruct (all_actuals (fun c => negb (is_linebreak c)) e m Em Hp)
        as [Ha Hq].
      assert (Hg : plain_lines (body g)).
      { unfold plain_defs in Hd. rewrite Forall_forall in Hd.
        apply Hd. eapply dict_get_in; eauto. }
      unfold expand_call in Ec.
      eapply (map_result_forall _ _ _ (fun b => plain b = true)); [|exact Hg|exact Ec].
      intros b l Hb. unfold subst_body_line.
      destruct (subst_map _ b) as [l1| |] eqn:E1; simpl; try discriminate.
      destruct (subst_map _ l1) as [l2| |] eqn:E2; simpl; try discriminate.
      intros H; inversion H; subst l.
      apply convert_line_inv, plain_inv.
      eapply all_subst_map; [| |exact E2].
      * apply dict_of_pairs_values, combine_snd_forall. exact Hq.
      * eapply all_subst_map; [| |exact E1]; [|exact Hb].
        apply dict_of_pairs_values, combine_snd_forall. exact Ha.
    + intros H. inversion H; subst.
      constructor; [apply convert_line_inv; exact He|constructor].
  - intros H. inversion H; subst.
    constructor; [apply convert_line_inv; exact He|constructor].
Qed.

Lemma expand_once_inv defs : forall lines out c,
  plain_defs defs -> Forall inv lines ->
  expand_once defs lines = Done (out, c) -> Forall inv out.
Proof.
  induction lines as [|ln lines IH]; simpl; intros out c Hd Hl H.
  - inversion H. constructor.
  - inversion Hl; subst.
    destruct (expand_line defs ln) as [[o1 c1]| |] eqn:E1; simpl in H;
      try discriminate.
    destruct (expand_once defs lines) as [[o2 c2]| |] eqn:E2; simpl in H;
      try discriminate.
    inversion H; subst. apply Forall_app. split.
    + eapply expand_line_inv; eauto.
    + eapply IH; eauto.
Qed.

Lemma expand_loop_inv defs : forall fuel lines out,
  plain_defs defs -> Forall inv lines ->
  expand_loop fuel defs lines = Done out -> Forall inv out.
Proof.
  induction fuel as [|fuel IH]; simpl; intros lines out Hd Hl H;
    [discriminate|].
  destruct (expand_once defs lines) as [[o c]| |] eqn:E; simpl in H;
    try discriminate.
  pose proof (expand_once_inv defs lines o c Hd Hl E) as Ho.
  destruct c; [eapply IH; eauto|]. inversion H; subst. exact Ho.
Qed.

(** *** The text written *)

Lemma inv_solid l : inv l -> Str.nonblank l = true -> nl_only l = true /\ solid l.
Proof.
  intros [Hn Hs] Hb. split; [exact Hn|].
  destruct Hs as [Hs|[Hs _]]; [|exact Hs].
  unfold solid. rewrite (scan_no_nl l false Hs), Hb. reflexivity.
Qed.




(** ** Parsing and removing definition blocks (C8) *)

(** *** Programs in the usual layout

    A program is a sequence of items.  An item is a line outside any
    definition, or a definition written as a header line
    [gate NAME(PARAMS) QUBITS {], its body lines, and a line [}]. *)

Inductive item : Type :=
| Plain (l : text)
| Block (name : text) (pars : option text) (qubits : text) (body : list text).

Definition pars_text (pars : option text) : text :=
  match pars with
  | Some p => T "(" ++ p ++ T ")"
  | None => []
  end.

Definition header_line (name : text) (pars : option text) (qubits : text)
  : text :=
  T "gate " ++ name ++ pars_text pars ++ T " " ++ (qubits ++ T " ") ++ T "{".

Definition item_lines (it : item) : list text :=
  match it with
  | Plain l => [l]
  | Block name pars qubits body =>
      header_line name pars qubits :: body ++ [T "}"]
  end.

Definition outside_lines (it : item) : list text :=
  match it with
  | Plain l => [l]
  | Block _ _ _ _ => []
  end.

Definition render (doc : list item) : text :=
  unlines (flat_map item_lines doc).

Fixpoint prefix_of (l s : text) : bool :=
  match l with
  | [] => true
  | c :: l' =>
      match s with
      | d :: s' => Ascii.eqb c d && prefix_of l' s'
      | [] => false
      end
  end.

Definition no_brace (c : ascii) : bool :=
  not_char "{" c && not_char "}" c.

(** A line outside the definitions: not empty, no line boundary, a first
    character that is no space, and not the keyword at its start. *)
Definition plain_ok (l : text) : bool :=
  match l with
  | [] => false
  | c :: _ => negb (is_space c)
  end
  && plain l && negb (prefix_of (T "gate") l).

Definition pars_ok (pars : option text) : bool :=
  match pars with
  | Some p =>
      forallb (fun c => not_char ")" c && no_brace c && negb (is_linebreak c)) p
  | None => true
  end.

Definition qubits_ok (q : text) : bool :=
  match q with
  | [] => false
  | c :: _ => is_word c
  end
  && forallb (fun c => is_qlist c && negb (is_linebreak c)) q.

Definition body_ok (body : list text) : bool :=
  forallb (fun b => plain b && forallb no_brace b) body.

Definition item_ok (it : item) : bool :=
  match it with
  | Plain l => plain_ok l
  | Block name pars qubits body =>
      negb (text_eqb name []) && forallb is_word name
      && pars_ok pars && qubits_ok qubits && body_ok body
  end.

(** *** The parser's side *)

Lemma count_app c a b : Str.count c (a ++ b) = (Str.count c a + Str.count c b)%Z.
Proof.
  unfold Str.count. rewrite filter_app, length_app. lia.
Qed.

Lemma count_none c w :
  forallb (not_char c) w = true -> Str.count c w = 0%Z.
Proof.
  unfold Str.count. induction w as [|d w IH]; simpl; [reflexivity|].
  intros H. apply andb_true_iff in H. destruct H as [Hd Hw].
  unfold not_char in Hd. apply negb_true_iff in Hd.
  rewrite Ascii.eqb_sym, Hd. auto.
Qed.

Lemma no_brace_open w : forallb no_brace w = true -> forallb (not_char "{") w = true.
Proof.
  apply forallb_imp. unfold no_brace. intros c H.
  apply andb_true_iff in H. tauto.
Qed.

Lemma no_brace_close w : forallb no_brace w = true -> forallb (not_char "}") w = true.
Proof.
  apply forallb_imp. unfold no_brace. intros c H.
  apply andb_true_iff in H. tauto.
Qed.

Lemma word_no_brace w : forallb is_word w = true -> forallb no_brace w = true.
Proof. apply forallb_imp. intros c. char_cases c. Qed.

Lemma qlist_no_brace w : forallb is_qlist w = true -> forallb no_brace w = true.
Proof. apply forallb_imp. intros c. char_cases c. Qed.

Lemma forallb_and (f g : ascii -> bool) w :
  forallb (fun c => f c && g c) w = forallb f w && forallb g w.
Proof.
  induction w as [|c w IH]; simpl; [reflexivity|]. rewrite IH.
  destruct (f c), (g c), (forallb f w), (forallb g w); reflexivity.
Qed.

(** *** Following the greedy choices of a match *)

Lemma hd_some_star p k prev w s pos caps m :
  forallb p w = true -> stops p s ->
  hd_error (k (MState (last_char prev w) s (pos + List.length w) caps)) = Some m ->
  hd_error (run_k (Star p) (MState prev (w ++ s) pos caps) k) = Some m.
Proof.
  intros Hw Hs H. rewrite run_k_star_hd; auto.
  intros E. rewrite E in H. discriminate.
Qed.

Lemma hd_some_plus p k prev w s pos caps m :
  forallb p w = true -> w <> [] -> stops p s ->
  hd_error (k (MState (last_char prev w) s (pos + List.length w) caps)) = Some m ->
  hd_error (run_k (Plus p) (MState prev (w ++ s) pos caps) k) = Some m.
Proof.
  intros Hw Hne Hs H. rewrite run_k_plus_hd; auto.
  intros E. rewrite E in H. discriminate.
Qed.

Lemma hd_some_grp_plus n p k prev w s pos caps m :
  forallb p w = true -> w <> [] -> stops p s ->
  hd_error (k (MState (last_char prev w) s (pos + List.length w)
                 ((n, w) :: caps))) = Some m ->
  hd_error (run_k (Grp n (Plus p)) (MState prev (w ++ s) pos caps) k) = Some m.
Proof.
  intros Hw Hne Hs H. rewrite run_k_grp_plus_hd; auto.
  intros E. rewrite E in H. discriminate.
Qed.

Lemma hd_some_opt_take r st k m :
  hd_error (run_k r st k) = Some m -> hd_error (run_k (Opt r) st k) = Some m.
Proof.
  intros H. rewrite run_k_opt. destruct (run_k r st k); [discriminate|exact H].
Qed.

Lemma hd_some_opt_skip r st k m :
  run_k r st k = [] -> hd_error (k st) = Some m ->
  hd_error (run_k (Opt r) st k) = Some m.
Proof. intros E H. rewrite run_k_opt, E. exact H. Qed.

Lemma run_k_bol st k : run_k Bol st k = if at_bol st then k st else [].
Proof. unfold run_k. simpl. apply run_k_guard. Qed.

Lemma lit_miss c l prev s pos caps :
  stops (is_char c) s -> lit_match (c :: l) (MState prev s pos caps) = None.
Proof.
  destruct s as [|d s]; simpl; [reflexivity|]. unfold is_char.
  intros H. rewrite Ascii.eqb_sym, H. reflexivity.
Qed.

Lemma qubits_first q :
  qubits_ok q = true ->
  (exists c q', q = c :: q' /\ is_word c = true)
  /\ forallb is_qlist q = true /\ plain q = true.
Proof.
  unfold qubits_ok. intros H. apply andb_true_iff in H. destruct H as [H1 H2].
  rewrite forallb_and in H2. apply andb_true_iff in H2. destruct H2 as [H2 H3].
  split; [|split; assumption].
  destruct q as [|c q']; [discriminate|]. eauto.
Qed.

Lemma pars_facts (pt : text) :
  pars_ok (Some pt) = true ->
  forallb (not_char ")") pt = true /\ forallb no_brace pt = true
  /\ plain pt = true.
Proof.
  unfold pars_ok. intros H.
  rewrite !forallb_and in H. apply andb_true_iff in H. destruct H as [H H3].
  apply andb_true_iff in H. destruct H as [H1 H2]. auto.
Qed.

Definition par_group (n : nat) : regex :=
  Opt (Grp n (Lit (T "(") >> Star (not_char ")") >> Lit (T ")"))).

(** The search has a first result, which stands before [rest]. *)
Definition reaches (l : list mstate) (rest : text) : Prop :=
  exists m, hd_error l = Some m /\ ms_rest m = rest.

Lemma reaches_star p k prev w s pos caps rest :
  forallb p w = true -> stops p s ->
  reaches (k (MState (last_char prev w) s (pos + List.length w) caps)) rest ->
  reaches (run_k (Star p) (MState prev (w ++ s) pos caps) k) rest.
Proof.
  intros Hw Hs [m [H Hr]]. exists m. split; [|exact Hr].
  apply hd_some_star; assumption.
Qed.

Lemma reaches_plus p k prev w s pos caps rest :
  forallb p w = true -> w <> [] -> stops p s ->
  reaches (k (MState (last_char prev w) s (pos + List.length w) caps)) rest ->
  reaches (run_k (Plus p) (MState prev (w ++ s) pos caps) k) rest.
Proof.
  intros Hw Hne Hs [m [H Hr]]. exists m. split; [|exact Hr].
  apply hd_some_plus; assumption.
Qed.

Lemma reaches_grp_plus n p k prev w s pos caps rest :
  forallb p w = true -> w <> [] -> stops p s ->
  reaches (k (MState (last_char prev w) s (pos + List.length w)
                ((n, w) :: caps))) rest ->
  reaches (run_k (Grp n (Plus p)) (MState prev (w ++ s) pos caps) k) rest.
Proof.
  intros Hw Hne Hs [m [H Hr]]. exists m. split; [|exact Hr].
  apply hd_some_grp_plus; assumption.
Qed.

Lemma reaches_opt_take r st k rest :
  reaches (run_k r st k) rest -> reaches (run_k (Opt r) st k) rest.
Proof.
  intros [m [H Hr]]. exists m. split; [|exact Hr].
  apply hd_some_opt_take. exact H.
Qed.

Lemma reaches_opt_skip r st k rest :
  run_k r st k = [] -> reaches (k st) rest ->
  reaches (run_k (Opt r) st k) rest.
Proof.
  intros E [m [H Hr]]. exists m. split; [|exact Hr].
  apply hd_some_opt_skip; assumption.
Qed.

(** The middle of both patterns: spaces, the parameter list if there is
    one, spaces, and then whatever the pattern [R] takes from the qubit
    list on. *)
Lemma mid_chain n R k pars qtext rest :
  pars_ok pars = true ->
  (exists c q', qtext = c :: q' /\ is_word c = true) ->
  (forall prev pos caps, reaches (run_k R (MState prev qtext pos caps) k) rest) ->
  forall prev pos caps,
    reaches (run_k (Star is_space >> par_group n >> Star is_space >> R)
               (MState prev (pars_text pars ++ T " " ++ qtext) pos caps) k)
      rest.
Proof.
  intros Hp [c [q' [Eq Hc]]] HR prev pos caps.
  assert (Hsp : stops is_space qtext).
  { rewrite Eq. simpl. apply word_not_space. exact Hc. }
  assert (Hop : stops (is_char "(") qtext).
  { rewrite Eq. simpl. revert Hc. char_cases c. }
  destruct pars as [pt|]; cbn [pars_text T list_ascii_of_string app].
  - destruct (pars_facts pt Hp) as [Hnp _].
    rewrite <- app_assoc. cbn [app].
    rewrite run_k_cat, run_k_star_none by reflexivity.
    rewrite run_k_cat. unfold par_group. apply reaches_opt_take.
    rewrite run_k_grp, run_k_cat. lit_step.
    rewrite run_k_cat.
    apply reaches_star; [exact Hnp|reflexivity|].
    lit_step. cbn [set_group ms_prev ms_rest ms_pos ms_caps].
    rewrite run_k_cat.
    apply (reaches_star is_space _ _ [" "%char] qtext); [reflexivity|exact Hsp|].
    apply HR.
  - rewrite run_k_cat.
    apply (reaches_star is_space _ _ [" "%char] qtext); [reflexivity|exact Hsp|].
    rewrite run_k_cat. unfold par_group. apply reaches_opt_skip.
    + rewrite run_k_grp, run_k_cat, run_k_lit.
      cbn [T list_ascii_of_string]. rewrite lit_miss by exact Hop. reflexivity.
    + rewrite run_k_cat, run_k_star_none by exact Hsp. apply HR.
Qed.

Lemma reaches_done st : reaches ((fun x : mstate => [x]) st) (ms_rest st).
Proof. exists st. split; reflexivity. Qed.

Lemma qlist_run qubits :
  qubits_ok qubits = true ->
  forallb is_qlist (qubits ++ [" "%char]) = true /\ qubits ++ [" "%char] <> [].
Proof.
  intros H. destruct (qubits_first qubits H) as [_ [Hq _]]. split.
  - rewrite forallb_app, Hq. reflexivity.
  - destruct qubits; discriminate.
Qed.

Lemma block_tail qubits bodytxt rest :
  qubits_ok qubits = true -> forallb (not_char "}") bodytxt = true ->
  stops is_space rest ->
  forall prev pos caps,
    reaches
      (run_k (Plus is_qlist >> Star is_space >> Lit (T "{")
              >> Star (not_char "}") >> Lit (T "}") >> Star is_space)
         (MState prev
            (qubits ++ T " " ++ T "{" ++ bodytxt ++ T "}" ++ NL :: rest)
            pos caps)
         (fun x => [x]))
      rest.
Proof.
  intros Hq Hb Hrest prev pos caps.
  destruct (qlist_run qubits Hq) as [Hrun Hne].
  cbn [T list_ascii_of_string app].
  change (qubits ++ " "%char :: "{"%char :: bodytxt ++ "}"%char :: NL :: rest)
    with (qubits ++ [" "%char] ++ "{"%char :: bodytxt ++ "}"%char :: NL :: rest).
  rewrite app_assoc. rewrite run_k_cat.
  apply reaches_plus; [exact Hrun|exact Hne|reflexivity|].
  rewrite run_k_cat, run_k_star_none by reflexivity.
  rewrite run_k_cat. lit_step. rewrite run_k_cat.
  apply reaches_star; [exact Hb|reflexivity|].
  rewrite run_k_cat. lit_step.
  apply (reaches_star is_space _ _ [NL] rest); [reflexivity|exact Hrest|].
  apply reaches_done.
Qed.

Lemma header_tail qubits :
  qubits_ok qubits = true ->
  forall prev pos caps,
    reaches
      (run_k (Grp 3 (Plus is_qlist) >> Star is_space >> Lit (T "{"))
         (MState prev (qubits ++ T " " ++ T "{") pos caps)
         (fun x => [x]))
      [].
Proof.
  intros Hq prev pos caps.
  destruct (qlist_run qubits Hq) as [Hrun Hne].
  cbn [T list_ascii_of_string app].
  change (qubits ++ [" "%char; "{"%char])
    with (qubits ++ [" "%char] ++ ["{"%char]).
  rewrite app_assoc. rewrite run_k_cat.
  apply reaches_grp_plus; [exact Hrun|exact Hne|reflexivity|].
  rewrite run_k_cat, run_k_star_none by reflexivity.
  lit_step. apply reaches_done.
Qed.

Definition block_ok (name : text) (pars : option text) (qubits : text)
    (body : list text) : Prop :=
  item_ok (Block name pars qubits body) = true.

Lemma block_facts name pars qubits body :
  block_ok name pars qubits body ->
  name <> [] /\ forallb is_word name = true /\ pars_ok pars = true
  /\ qubits_ok qubits = true /\ body_ok body = true.
Proof.
  unfold block_ok. simpl. intros H.
  apply andb_true_iff in H. destruct H as [H H5].
  apply andb_true_iff in H. destruct H as [H H4].
  apply andb_true_iff in H. destruct H as [H H3].
  apply andb_true_iff in H. destruct H as [H1 H2].
  repeat split; try assumption.
  intros ->. discriminate.
Qed.

Lemma stops_pars (p : ascii -> bool) pars (s : text) :
  p "("%char = false -> p " "%char = false ->
  stops p (pars_text pars ++ T " " ++ s).
Proof. intros H1 H2. destruct pars; simpl; assumption. Qed.

Lemma qtext_first qubits (s : text) :
  qubits_ok qubits = true ->
  exists c q', qubits ++ s = c :: q' /\ is_word c = true.
Proof.
  intros H. destruct (qubits_first qubits H) as [[c [q' [-> Hc]]] _].
  exists c, (q' ++ s). auto.
Qed.

(** The header line of a definition in the usual layout is a header for
    the parser. *)
Lemma header_matches name pars qubits body :
  block_ok name pars qubits body ->
  exists m, re_match header_pat (header_line name pars qubits) = Some m.
Proof.
  intros H. destruct (block_facts _ _ _ _ H) as [Hne [Hw [Hp [Hq _]]]].
  assert (G : reaches (rmatch header_pat
                         (start None (header_line name pars qubits))) []).
  { rewrite rmatch_run_k. unfold header_pat, header_line, start.
    rewrite <- !app_assoc. cbn [T list_ascii_of_string app].
    rewrite run_k_cat, run_k_star_none by reflexivity.
    rewrite run_k_cat. lit_step.
    rewrite run_k_cat, run_k_plus, run_k_chr_cons by reflexivity.
    rewrite run_k_star_none
      by (apply (stops_app _ is_word); [assumption|assumption|apply word_not_space]).
    rewrite run_k_cat.
    apply reaches_grp_plus; [exact Hw|exact Hne| |].
    { apply (stops_pars is_word pars); reflexivity. }
    apply (mid_chain 2 _ _ pars (qubits ++ T " " ++ T "{") []);
      [exact Hp|apply qtext_first; exact Hq|].
    apply header_tail. exact Hq. }
  destruct G as [m [Hm _]]. exists m. exact Hm.
Qed.

Definition body_text (body : list text) : text := NL :: unlines body.

Lemma body_text_no_close body :
  body_ok body = true -> forallb (not_char "}") (body_text body) = true.
Proof.
  unfold body_ok, body_text, unlines. intros H. simpl.
  induction body as [|b body IH]; [reflexivity|].
  simpl in H. apply andb_true_iff in H. destruct H as [Hb Hbody].
  apply andb_true_iff in Hb. destruct Hb as [_ Hb].
  simpl. rewrite !forallb_app. rewrite (no_brace_close b Hb). simpl.
  apply IH. exact Hbody.
Qed.

(** The text of a definition in the usual layout, from the start of its
    header line, is one match of the removal pattern, which ends right
    after the newline of the closing line. *)
Lemma block_matches prev name pars qubits body rest :
  prev = None \/ prev = Some NL ->
  block_ok name pars qubits body -> stops is_space rest ->
  reaches
    (rmatch block_pat
       (start prev
          (T "gate " ++ name ++ pars_text pars ++ T " " ++ qubits ++ T " "
           ++ T "{" ++ body_text body ++ T "}" ++ NL :: rest)))
    rest.
Proof.
  intros Hprev H Hrest.
  destruct (block_facts _ _ _ _ H) as [Hne [Hw [Hp [Hq Hb]]]].
  rewrite rmatch_run_k. unfold block_pat, start.
  cbn [T list_ascii_of_string app].
  rewrite run_k_cat, run_k_bol.
  assert (Hbol : at_bol (MState prev
      ("g"%char :: "a"%char :: "t"%char :: "e"%char :: " "%char :: name
       ++ pars_text pars ++ " "%char :: qubits ++ " "%char :: "{"%char
       :: body_text body ++ "}"%char :: NL :: rest) 0 []) = true).
  { destruct Hprev as [->| ->]; reflexivity. }
  rewrite Hbol.
  rewrite run_k_cat, run_k_star_none by reflexivity.
  rewrite run_k_cat. lit_step.
  rewrite run_k_cat, run_k_plus, run_k_chr_cons by reflexivity.
  rewrite run_k_star_none
    by (apply (stops_app _ is_word); [assumption|assumption|apply word_not_space]).
  rewrite run_k_cat.
  apply reaches_plus; [exact Hw|exact Hne| |].
  { apply (stops_pars is_word pars); reflexivity. }
  apply (mid_chain 1 _ _ pars
           (qubits ++ T " " ++ T "{" ++ body_text body ++ T "}" ++ NL :: rest)
           rest);
    [exact Hp|apply qtext_first; exact Hq|].
  apply block_tail; [exact Hq|apply body_text_no_close; exact Hb|exact Hrest].
Qed.

(** *** Lines outside the definitions *)

Lemma lit_match_none l : forall prev s pos caps,
  prefix_of l s = false -> lit_match l (MState prev s pos caps) = None.
Proof.
  induction l as [|c l IH]; simpl; intros prev s pos caps H; [discriminate|].
  destruct s as [|d s]; [reflexivity|].
  destruct (Ascii.eqb c d); [|reflexivity]. simpl in H. apply IH. exact H.
Qed.

Lemma prefix_of_line g :
  forallb (fun c => negb (Ascii.eqb c NL)) g = true ->
  forall l rest, prefix_of g l = false -> prefix_of g (l ++ NL :: rest) = false.
Proof.
  induction g as [|c g IH]; simpl; intros Hg l rest H; [discriminate|].
  apply andb_true_iff in Hg. destruct Hg as [Hc Hg].
  apply negb_true_iff in Hc.
  destruct l as [|d l]; simpl.
  - rewrite Hc. reflexivity.
  - destruct (Ascii.eqb c d); [|reflexivity]. simpl in *. apply IH; assumption.
Qed.

Lemma plain_facts l :
  plain_ok l = true ->
  (exists c l', l = c :: l' /\ is_space c = false /\ is_linebreak c = false)
  /\ plain l = true /\ prefix_of (T "gate") l = false.
Proof.
  unfold plain_ok. intros H.
  apply andb_true_iff in H. destruct H as [H H3].
  apply andb_true_iff in H. destruct H as [H1 H2].
  apply negb_true_iff in H3. split; [|auto].
  destruct l as [|c l']; [discriminate|].
  exists c, l'. apply negb_true_iff in H1.
  unfold plain in H2. simpl in H2. apply andb_true_iff in H2.
  destruct H2 as [H2 _]. apply negb_true_iff in H2. auto.
Qed.

Lemma block_none_start prev l rest :
  plain_ok l = true -> match_at block_pat prev (l ++ NL :: rest) = None.
Proof.
  intros H. destruct (plain_facts l H) as [[c [l' [E [Hc _]]]] [_ Hg]].
  unfold match_at. rewrite rmatch_run_k. unfold block_pat, start.
  rewrite run_k_cat, run_k_bol.
  destruct (at_bol _); [|reflexivity].
  rewrite run_k_cat, run_k_star_none by (rewrite E; exact Hc).
  rewrite run_k_cat, run_k_lit.
  rewrite lit_match_none; [reflexivity|].
  apply prefix_of_line; [reflexivity|exact Hg].
Qed.

Lemma header_none l : plain_ok l = true -> re_match header_pat l = None.
Proof.
  intros H. destruct (plain_facts l H) as [[c [l' [E [Hc _]]]] [_ Hg]].
  unfold re_match, match_at. rewrite rmatch_run_k. unfold header_pat, start.
  rewrite run_k_cat, run_k_star_none by (rewrite E; exact Hc).
  rewrite run_k_cat, run_k_lit.
  rewrite lit_match_none; [reflexivity|exact Hg].
Qed.

Lemma block_none_mid c s :
  Ascii.eqb c NL = false -> match_at block_pat (Some c) s = None.
Proof.
  intros H. unfold match_at. rewrite rmatch_run_k. unfold block_pat, start.
  rewrite run_k_cat, run_k_bol. unfold at_bol. simpl. rewrite H. reflexivity.
Qed.

Lemma block_none_end prev : match_at block_pat prev [] = None.
Proof.
  unfold match_at. rewrite rmatch_run_k. unfold block_pat, start.
  rewrite run_k_cat, run_k_bol.
  destruct (at_bol _); [|reflexivity].
  rewrite run_k_cat, run_k_star_none by exact I.
  rewrite run_k_cat, run_k_lit. reflexivity.
Qed.

Lemma linebreak_nl c : is_linebreak c = false -> Ascii.eqb c NL = false.
Proof. char_cases c. Qed.

Section Removal.

Let repl := fun _ : mstate => @nil ascii.

Lemma sub_mid rest : forall l c,
  Ascii.eqb c NL = false -> plain l = true ->
  sub_go block_pat repl (Some c) (l ++ NL :: rest) 0
  = l ++ NL :: sub_go block_pat repl (Some NL) rest 0.
Proof.
  induction l as [|d l IH]; intros c Hc Hl.
  - cbn [app sub_go]. rewrite (block_none_mid c _ Hc). reflexivity.
  - change ((d :: l) ++ NL :: rest) with (d :: (l ++ NL :: rest)).
    cbn [sub_go]. rewrite (block_none_mid c _ Hc).
    unfold plain in Hl. simpl in Hl. apply andb_true_iff in Hl.
    destruct Hl as [Hd Hl]. apply negb_true_iff in Hd.
    rewrite IH; [reflexivity|apply linebreak_nl; exact Hd|exact Hl].
Qed.

Lemma sub_line prev l rest :
  plain_ok l = true ->
  sub_go block_pat repl prev (l ++ NL :: rest) 0
  = l ++ NL :: sub_go block_pat repl (Some NL) rest 0.
Proof.
  intros H. pose proof (block_none_start prev l rest H) as M.
  destruct (plain_facts l H) as [[c [l' [E [_ Hc]]]] [Hp _]]. subst l.
  change ((c :: l') ++ NL :: rest) with (c :: (l' ++ NL :: rest)) in *.
  cbn [sub_go]. rewrite M.
  unfold plain in Hp. simpl in Hp. apply andb_true_iff in Hp.
  rewrite sub_mid; [reflexivity|apply linebreak_nl; exact Hc|tauto].
Qed.

Lemma sub_go_match r (rp : mstate -> text) prev s m :
  match_at r prev s = Some m -> ms_pos m <> 0 ->
  exists w, s = w ++ ms_rest m
            /\ sub_go r rp prev s 0
               = rp m ++ sub_go r rp (last_char prev w) (ms_rest m) 0.
Proof.
  intros Hm Hpos. pose proof (match_at_in _ _ _ _ Hm) as Hin.
  destruct (rmatch_moves _ _ _ Hin) as [w [Ew Pw]]. simpl in Ew, Pw.
  exists w. split; [exact Ew|].
  destruct w as [|c w]; [simpl in Pw; congruence|].
  destruct s as [|d s]; [discriminate|].
  simpl in Ew. injection Ew as Ec Es. subst d.
  cbn [sub_go]. rewrite Hm.
  destruct (ms_pos m =? 0) eqn:Z; [apply Nat.eqb_eq in Z; congruence|].
  f_equal. rewrite Pw. simpl List.length.
  replace (S (List.length w) - 1) with (List.length w) by lia.
  rewrite Es. exact (sub_go_skip r rp w (ms_rest m) (Some c)).
Qed.

Definition block_text (name : text) (pars : option text) (qubits : text)
    (body : list text) : text :=
  unlines (item_lines (Block name pars qubits body)).

Lemma unlines_app a b : unlines (a ++ b) = unlines a ++ unlines b.
Proof. unfold unlines. rewrite map_app, concat_app. reflexivity. Qed.

Lemma unlines_cons h t : unlines (h :: t) = h ++ NL :: unlines t.
Proof. unfold unlines. simpl. rewrite <- app_assoc. reflexivity. Qed.

Lemma block_text_shape name pars qubits body rest :
  block_text name pars qubits body ++ rest
  = T "gate " ++ name ++ pars_text pars ++ T " " ++ qubits ++ T " "
    ++ T "{" ++ body_text body ++ T "}" ++ NL :: rest.
Proof.
  unfold block_text, item_lines, header_line, body_text.
  rewrite unlines_cons, unlines_app, (unlines_cons (T "}") []).
  change (unlines []) with (@nil ascii).
  rewrite <- ?app_assoc. cbn [app]. rewrite <- ?app_assoc. cbn [app]. reflexivity.
Qed.

Lemma block_text_last name pars qubits body :
  exists w, block_text name pars qubits body = w ++ [NL] /\ w <> [].
Proof.
  unfold block_text, item_lines.
  exists (header_line name pars qubits ++ [NL] ++ unlines body ++ T "}").
  split.
  - rewrite unlines_cons, unlines_app, (unlines_cons (T "}") []).
    change (unlines []) with (@nil ascii).
    rewrite <- ?app_assoc. cbn [app]. rewrite <- ?app_assoc. cbn [app]. reflexivity.
  - unfold header_line. simpl. discriminate.
Qed.

Lemma match_at_moves r prev s m :
  match_at r prev s = Some m ->
  exists w, s = w ++ ms_rest m /\ ms_pos m = List.length w.
Proof.
  intros Hm. apply match_at_in in Hm.
  destruct (rmatch_moves _ _ _ Hm) as [w [Ew Pw]]. exists w. auto.
Qed.

Lemma sub_block prev name pars qubits body rest :
  prev = None \/ prev = Some NL ->
  block_ok name pars qubits body -> stops is_space rest ->
  sub_go block_pat repl prev (block_text name pars qubits body ++ rest) 0
  = sub_go block_pat repl (Some NL) rest 0.
Proof.
  intros Hprev H Hrest.
  destruct (block_matches prev name pars qubits body rest Hprev H Hrest)
    as [m [Hm Hr]].
  assert (Hm' : match_at block_pat prev
                  (block_text name pars qubits body ++ rest) = Some m).
  { unfold match_at. rewrite block_text_shape. exact Hm. }
  destruct (block_text_last name pars qubits body) as [w0 [Ew0 Hw0]].
  destruct (match_at_moves _ _ _ _ Hm') as [w [Ew Pw]].
  rewrite Hr in Ew. apply app_inv_tail in Ew. subst w.
  assert (Hpos : ms_pos m <> 0).
  { rewrite Pw, Ew0, length_app. simpl. lia. }
  destruct (sub_go_match block_pat repl prev _ m Hm' Hpos) as [w [Ew Es]].
  rewrite Es. rewrite Hr in Ew |- *. apply app_inv_tail in Ew. subst w.
  rewrite Ew0, last_char_app. reflexivity.
Qed.

Lemma render_cons it doc :
  render (it :: doc) = unlines (item_lines it) ++ render doc.
Proof. unfold render. simpl. apply unlines_app. Qed.

Lemma render_stops doc :
  Forall (fun it => item_ok it = true) doc -> stops is_space (render doc).
Proof.
  intros H. destruct H as [|it doc Hit _]; [exact I|].
  rewrite render_cons. destruct it as [l|name pars qubits body].
  - simpl in Hit. destruct (plain_facts l Hit) as [[c [l' [-> [Hc _]]]] _].
    exact Hc.
  - reflexivity.
Qed.

(** What the removal leaves of a program in the usual layout: the lines
    outside the definitions. *)
Lemma remove_render : forall doc prev,
  Forall (fun it => item_ok it = true) doc ->
  prev = None \/ prev = Some NL ->
  sub_go block_pat repl prev (render doc) 0
  = unlines (flat_map outside_lines doc).
Proof.
  induction doc as [|it doc IH]; intros prev H Hprev.
  - unfold render. simpl. rewrite block_none_end. reflexivity.
  - inversion H as [|? ? Hit Hdoc]; subst. rewrite render_cons.
    destruct it as [l|name pars qubits body].
    + simpl item_lines. rewrite (unlines_cons l []).
      change (unlines []) with (@nil ascii).
      rewrite <- app_assoc. cbn [app].
      rewrite sub_line by exact Hit.
      rewrite IH by auto.
      simpl flat_map. rewrite unlines_cons. reflexivity.
    + fold (block_text name pars qubits body).
      rewrite sub_block; [|exact Hprev|exact Hit|apply render_stops; exact Hdoc].
      rewrite IH by auto. reflexivity.
Qed.

End Removal.

(** *** Lines back from a text *)

Lemma splitlines_go_nl cur s :
  Str.splitlines_go cur (NL :: s) = rev cur :: Str.splitlines_go [] s.
Proof. destruct s; reflexivity. Qed.

Lemma splitlines_go_line s : forall l cur,
  plain l = true ->
  Str.splitlines_go cur (l ++ NL :: s) = (rev cur ++ l) :: Str.splitlines_go [] s.
Proof.
  induction l as [|c l IH]; intros cur H.
  - cbn [app]. rewrite splitlines_go_nl, app_nil_r. reflexivity.
  - unfold plain in H. simpl in H. apply andb_true_iff in H.
    destruct H as [Hc Hl]. apply negb_true_iff in Hc.
    change ((c :: l) ++ NL :: s) with (c :: (l ++ NL :: s)).
    cbn [Str.splitlines_go]. rewrite Hc, IH by exact Hl.
    simpl. rewrite <- app_assoc. reflexivity.
Qed.

Lemma splitlines_unlines_id ls :
  plain_lines ls -> Str.splitlines (unlines ls) = ls.
Proof.
  unfold Str.splitlines, plain_lines.
  induction 1 as [|l ls Hl _ IH]; [reflexivity|].
  rewrite unlines_cons, splitlines_go_line by exact Hl.
  rewrite IH. reflexivity.
Qed.

(** *** The parser on a program in the usual layout *)

Lemma capture_body rest : forall bd : list text,
  body_ok bd = true ->
  capture 1 (bd ++ T "}" :: rest) = (bd ++ [T "}"], rest).
Proof.
  intros bd. induction bd as [|b bd IH]; intros H.
  - reflexivity.
  - unfold body_ok in H. simpl in H. apply andb_true_iff in H.
    destruct H as [Hb Hbody]. apply andb_true_iff in Hb. destruct Hb as [_ Hb].
    change ((b :: bd) ++ T "}" :: rest) with (b :: (bd ++ T "}" :: rest)).
    cbn [capture].
    rewrite (count_none "{" b (no_brace_open b Hb)),
            (count_none "}" b (no_brace_close b Hb)).
    simpl Z.eqb. cbv iota. change (1 + 0 - 0)%Z with 1%Z.
    rewrite (IH Hbody). reflexivity.
Qed.

Lemma pars_no_brace pars :
  pars_ok pars = true -> forallb no_brace (pars_text pars) = true.
Proof.
  destruct pars as [pt|]; [|reflexivity]. intros H.
  destruct (pars_facts pt H) as [_ [Hb _]].
  unfold pars_text. rewrite !forallb_app, Hb. reflexivity.
Qed.

Lemma header_braces name pars qubits body :
  block_ok name pars qubits body ->
  Str.count "{" (header_line name pars qubits) = 1%Z
  /\ Str.count "}" (header_line name pars qubits) = 0%Z.
Proof.
  intros H. destruct (block_facts _ _ _ _ H) as [_ [Hw [Hp [Hq _]]]].
  destruct (qubits_first qubits Hq) as [_ [Hql _]].
  pose proof (word_no_brace name Hw) as Bn.
  pose proof (pars_no_brace pars Hp) as Bp.
  pose proof (qlist_no_brace qubits Hql) as Bq.
  unfold header_line. rewrite !count_app. split.
  - rewrite (count_none "{" name (no_brace_open _ Bn)),
            (count_none "{" _ (no_brace_open _ Bp)),
            (count_none "{" qubits (no_brace_open _ Bq)).
    reflexivity.
  - rewrite (count_none "}" name (no_brace_close _ Bn)),
            (count_none "}" _ (no_brace_close _ Bp)),
            (count_none "}" qubits (no_brace_close _ Bq)).
    reflexivity.
Qed.

Lemma capture_block name pars qubits body rest :
  block_ok name pars qubits body ->
  capture 0 (item_lines (Block name pars qubits body) ++ rest)
  = (item_lines (Block name pars qubits body), rest).
Proof.
  intros H. destruct (header_braces _ _ _ _ H) as [Ho Hc].
  destruct (block_facts _ _ _ _ H) as [_ [_ [_ [_ Hb]]]].
  simpl item_lines.
  change ((header_line name pars qubits :: body ++ [T "}"]) ++ rest)
    with (header_line name pars qubits :: ((body ++ [T "}"]) ++ rest)).
  rewrite <- app_comm_cons. cbn [capture]. rewrite Ho, Hc.
  change (0 + 1 - 0)%Z with 1%Z. simpl Z.eqb. cbv iota.
  rewrite <- app_assoc. cbn [app].
  pose proof (capture_body rest body Hb) as C.
  cbn [T list_ascii_of_string] in C. rewrite C. reflexivity.
Qed.

(** The lines the parser leaves outside the definitions. *)
Lemma parse_render : forall doc fuel defs outside,
  Forall (fun it => item_ok it = true) doc ->
  List.length (flat_map item_lines doc) <= fuel ->
  snd (parse_loop fuel (flat_map item_lines doc) defs outside)
  = rev outside ++ flat_map outside_lines doc.
Proof.
  induction doc as [|it doc IH]; intros fuel defs outside H Hf.
  - simpl. rewrite app_nil_r. destruct fuel; reflexivity.
  - inversion H as [|? ? Hit Hdoc]; subst.
    destruct it as [l|name pars qubits body].
    + simpl flat_map. simpl in Hf. destruct fuel as [|fuel]; [lia|].
      cbn [app parse_loop]. rewrite (header_none l Hit).
      rewrite IH; [|exact Hdoc|lia]. simpl. rewrite <- app_assoc. reflexivity.
    + cbn [flat_map outside_lines app].
      cbn [flat_map] in Hf. rewrite length_app in Hf.
      destruct fuel as [|fuel]; [simpl in Hf; lia|].
      destruct (header_matches name pars qubits body Hit) as [m Hm].
      pose proof (capture_block name pars qubits body
                    (flat_map item_lines doc) Hit) as C.
      simpl item_lines in *. rewrite <- app_comm_cons in C |- *.
      cbn [parse_loop]. rewrite Hm, C.
      apply IH; [exact Hdoc|]. simpl in Hf. lia.
Qed.

Lemma item_lines_plain doc :
  Forall (fun it => item_ok it = true) doc ->
  plain_lines (flat_map item_lines doc)
  /\ plain_lines (flat_map outside_lines doc).
Proof.
  unfold plain_lines. induction 1 as [|it doc Hit _ [IH1 IH2]].
  - split; constructor.
  - destruct it as [l|name pars qubits body]; simpl flat_map.
    + destruct (plain_facts l Hit) as [_ [Hp _]].
      split; constructor; assumption.
    + split; [|exact IH2].
      destruct (block_facts _ _ _ _ Hit) as [_ [Hw [Hp [Hq Hb]]]].
      destruct (qubits_first qubits Hq) as [_ [_ Hqp]].
      constructor.
      * unfold header_line, plain. rewrite !forallb_app.
        assert (Hn : forallb (fun c => negb (is_linebreak c)) name = true).
        { revert Hw. apply forallb_imp. intros c. char_cases c. }
        assert (Hpp : forallb (fun c => negb (is_linebreak c)) (pars_text pars)
                      = true).
        { destruct pars as [pt|]; [|reflexivity].
          destruct (pars_facts pt Hp) as [_ [_ Hpl]].
          unfold pars_text. rewrite !forallb_app. unfold plain in Hpl.
          rewrite Hpl. reflexivity. }
        unfold plain in Hqp. rewrite Hn, Hpp, Hqp. reflexivity.
      * apply Forall_app. split; [|exact IH1].
        apply Forall_app. split; [|constructor; [reflexivity|constructor]].
        unfold body_ok in Hb. rewrite forallb_forall in Hb.
        apply Forall_forall. intros b Hin. specialize (Hb b Hin).
        apply andb_true_iff in Hb. tauto.
Qed.

(** *** Agreement, and where it ends *)

(** The deepest nesting of braces in a text. *)
Fixpoint max_depth (cur best : Z) (s : text) : Z :=
  match s with
  | [] => best
  | c :: s' =>
      if Ascii.eqb c "{" then max_depth (cur + 1) (Z.max best (cur + 1)) s'
      else if Ascii.eqb c "}" then max_depth (cur - 1) best s'
      else max_depth cur best s'
  end.

Definition brace_depth (s : text) : Z := max_depth 0 0 s.

(** A definition with a nested brace in its body. *)
Definition nested_brace_text : text :=
  unlines [ T "OPENQASM 2.0;"; T "gate foo q {"; T "  if (c) { h q; }";
            T "  x q;"; T "}"; T "foo q[0];" ].

(** A definition whose opening brace stands on a line of its own. *)
Definition brace_line_text : text :=
  unlines [ T "OPENQASM 2.0;"; T "gate foo q"; T "{"; T "  h q;"; T "}";
            T "foo q[0];" ].

Definition usual_doc : list item :=
  [ Plain (T "OPENQASM 2.0;");
    Block (T "foo") (Some (T "a, b")) (T "q, r")
      [T "  p(a) q;"; T ""; T "  cp(b) q,r;"];
    Plain (T "qreg q[2];");
    Block (T "bar") None (T "q") [];
    Plain (T "foo(1,2) q[0],q[1];") ].

(** C8, as the script has it: on a program in the usual layout (every
    definition a header line ending in the opening brace, body lines
    without braces, and a closing line holding only the closing brace;
    every other line starting with a character that is no space) the
    lines the removal leaves are the lines the parser leaves outside the
    definitions.  On a definition with a nested brace they differ. *)
Theorem parser_and_remover :
  (forall doc,
      forallb item_ok doc = true ->
      Str.splitlines (remove_gate_blocks (render doc))
      = flat_map outside_lines doc
      /\ snd (parse (Str.splitlines (render doc)))
         = flat_map outside_lines doc)
  /\ (brace_depth nested_brace_text = 2%Z
      /\ Str.splitlines (remove_gate_blocks nested_brace_text)
         <> snd (parse (Str.splitlines nested_brace_text))).
Proof.
  split.
  - intros doc H.
    assert (Hd : Forall (fun it => item_ok it = true) doc).
    { apply Forall_forall. apply forallb_forall. exact H. }
    destruct (item_lines_plain doc Hd) as [Hl Ho]. split.
    + unfold remove_gate_blocks, re_sub_fun.
      rewrite (remove_render doc None Hd (or_introl eq_refl)).
      apply splitlines_unlines_id. exact Ho.
    + unfold render. rewrite (splitlines_unlines_id _ Hl).
      unfold parse. rewrite parse_render; [reflexivity|exact Hd|lia].
  - split; [vm_compute; reflexivity|vm_compute; discriminate].
Qed.

Lemma parser_and_remover_witness :
  Str.splitlines (remove_gate_blocks (render usual_doc))
  = [T "OPENQASM 2.0;"; T "qreg q[2];"; T "foo(1,2) q[0],q[1];"]
  /\ snd (parse (Str.splitlines (render usual_doc)))
     = [T "OPENQASM 2.0;"; T "qreg q[2];"; T "foo(1,2) q[0],q[1];"].
Proof.
  apply (proj1 parser_and_remover usual_doc). reflexivity.
Defined.

(** C8, as the specification words it, fails: without any nested brace,
    a definition whose opening brace stands on the next line is removed
    from the text, but the parser finds no definition in it; the call is
    left with nothing to expand it. *)
Lemma brace_on_next_line :
  brace_depth brace_line_text = 1%Z
  /\ gate_defs brace_line_text = []
  /\ Str.splitlines (remove_gate_blocks brace_line_text)
     = [T "OPENQASM 2.0;"; T "foo q[0];"]
  /\ snd (parse (Str.splitlines brace_line_text))
     = [ T "OPENQASM 2.0;"; T "gate foo q"; T "{"; T "  h q;"; T "}";
         T "foo q[0];" ]
  /\ script 1 brace_line_text
     = Done (T "OPENQASM 2.0;" ++ [NL] ++ T "foo q[0];" ++ [NL]).
Proof. repeat split; vm_compute; reflexivity. Qed.

(** * Further properties of the script *)

(** ** The parser's loops *)

(** What a line adds to the brace count. *)
Definition opens (l : text) : Z := (Str.count "{" l - Str.count "}" l)%Z.

Lemma capture_app : forall ls brace,
  fst (capture brace ls) ++ snd (capture brace ls) = ls.
Proof.
  induction ls as [|l ls IH]; intros brace; simpl; [reflexivity|].
  destruct ((brace + Str.count "{" l - Str.count "}" l =? 0)%Z);
    [reflexivity|].
  specialize (IH (brace + Str.count "{" l - Str.count "}" l)%Z).
  destruct (capture _ ls) as [blk rest]. simpl in *. rewrite IH. reflexivity.
Qed.

Lemma capture_head brace l ls :
  exists blk, fst (capture brace (l :: ls)) = l :: blk.
Proof.
  simpl. destruct ((brace + Str.count "{" l - Str.count "}" l =? 0)%Z).
  - exists []. reflexivity.
  - destruct (capture _ ls) as [blk rest]. exists blk. reflexivity.
Qed.

Lemma capture_rest_length brace l ls :
  List.length (snd (capture brace (l :: ls))) <= List.length ls.
Proof.
  pose proof (capture_app (l :: ls) brace) as E.
  destruct (capture_head brace l ls) as [blk Hb].
  rewrite Hb in E. apply (f_equal (@List.length text)) in E.
  rewrite length_app in E. cbn [List.length] in E. lia.
Qed.

(** X1: the inner loop of the parser takes a non-empty run of lines off
    the front of the lines it is given; the block taken followed by the
    lines left is the list it was given. *)
Theorem capture_takes_prefix :
  (forall brace ls, fst (capture brace ls) ++ snd (capture brace ls) = ls)
  /\ (forall brace l ls, exists blk, fst (capture brace (l :: ls)) = l :: blk).
Proof.
  split; [intros brace ls; apply capture_app|apply capture_head].
Qed.

Lemma parse_loop_fuel : forall n ls fuel defs outside,
  List.length ls <= n -> List.length ls <= fuel ->
  parse_loop fuel ls defs outside = parse_loop n ls defs outside.
Proof.
  induction n as [|n IH]; intros ls fuel defs outside Hn Hf.
  - destruct ls; [|simpl in Hn; lia]. destruct fuel; reflexivity.
  - destruct ls as [|line ls]; [destruct fuel; reflexivity|].
    destruct fuel as [|fuel]; [simpl in Hf; lia|].
    cbn [parse_loop]. simpl in Hn, Hf.
    destruct (re_match header_pat line) as [m|].
    + pose proof (capture_rest_length 0 line ls) as Hr.
      destruct (capture 0 (line :: ls)) as [blk rest]. simpl in Hr.
      apply IH; lia.
    + apply IH; lia.
Qed.



Lemma capture_open : forall ls brace,
  (0 < brace)%Z ->
  forallb (fun l => (0 <=? opens l)%Z) ls = true ->
  capture brace ls = (ls, []) \/ ls = [].
Proof.
  induction ls as [|l ls IH]; intros brace Hb H; [right; reflexivity|left].
  simpl in H. apply andb_true_iff in H. destruct H as [Hl Hls].
  apply Z.leb_le in Hl. unfold opens in Hl. cbn [capture].
  destruct ((brace + Str.count "{" l - Str.count "}" l =? 0)%Z) eqn:E.
  - apply Z.eqb_eq in E. lia.
  - destruct (IH (brace + Str.count "{" l - Str.count "}" l)%Z) as [G|G];
      [lia|exact Hls|rewrite G; reflexivity|subst ls; reflexivity].
Qed.

(** X3: a definition whose braces never close takes every line that is
    left: when the header line opens more braces than it closes and no
    later line closes more than it opens, the parser ends with that
    definition, which holds all those lines but the last as its body. *)
Theorem unclosed_definition (line : text) (m : mstate) (ls : list text)
    (fuel : nat) (defs : Dict.t gate_def) (outside : list text) :
  re_match header_pat line = Some m ->
  (0 < opens line)%Z ->
  forallb (fun l => (0 <=? opens l)%Z) ls = true ->
  parse_loop (S fuel) (line :: ls) defs outside
  = (Dict.set (group_text 1 m) (def_of m (line :: ls)) defs, rev outside)
  /\ body (def_of m (line :: ls))
     = map Str.strip (filter Str.nonblank (removelast ls)).
Proof.
  intros Hm Ho Hls. split; [|reflexivity].
  cbn [parse_loop]. rewrite Hm.
  assert (C : capture 0 (line :: ls) = (line :: ls, [])).
  { cbn [capture]. unfold opens in Ho.
    destruct ((0 + Str.count "{" line - Str.count "}" line =? 0)%Z) eqn:E.
    - apply Z.eqb_eq in E. lia.
    - destruct (capture_open ls (0 + Str.count "{" line - Str.count "}" line)%Z)
        as [G|G]; [lia|exact Hls|rewrite G; reflexivity|subst ls; reflexivity]. }
  rewrite C. destruct fuel; reflexivity.
Qed.

Lemma unclosed_definition_witness :
  exists m,
    re_match header_pat (T "gate foo q {") = Some m
    /\ parse_loop 3 [T "gate foo q {"; T "  h q;"; T "foo q[0];"] [] []
       = ([(T "foo", GateDef [] [T "q"] [T "h q;"])], []).
Proof.
  destruct (re_match header_pat (T "gate foo q {")) as [m|] eqn:E;
    [|vm_compute in E; discriminate].
  exists m. split; [reflexivity|].
  rewrite (proj1 (unclosed_definition (T "gate foo q {") m
                    [T "  h q;"; T "foo q[0];"] 2 [] [] E eq_refl eq_refl)).
  vm_compute in E. injection E as <-. vm_compute. reflexivity.
Defined.

(** X4: a definition whose braces open and close on its header line is
    stored with an empty body, whatever stands between the braces; the
    parser goes on with the next line. *)
Theorem one_line_definition (line : text) (m : mstate) (rest : list text)
    (fuel : nat) (defs : Dict.t gate_def) (outside : list text) :
  re_match header_pat line = Some m ->
  opens line = 0%Z ->
  parse_loop (S fuel) (line :: rest) defs outside
  = parse_loop fuel rest
      (Dict.set (group_text 1 m)
         (GateDef (params (def_of m [line])) (qubits (def_of m [line])) [])
         defs) outside.
Proof.
  intros Hm Ho. cbn [parse_loop]. rewrite Hm. cbn [capture].
  unfold opens in Ho.
  replace (0 + Str.count "{" line - Str.count "}" line)%Z with 0%Z by lia.
  reflexivity.
Qed.

Lemma one_line_definition_witness :
  gate_defs (T "gate foo q { h q; }") = [(T "foo", GateDef [] [T "q"] [])].
Proof.
  unfold gate_defs, parse.
  destruct (re_match header_pat (T "gate foo q { h q; }")) as [m|] eqn:E;
    [|vm_compute in E; discriminate].
  change (Str.splitlines (T "gate foo q { h q; }"))
    with [T "gate foo q { h q; }"].
  change (List.length [T "gate foo q { h q; }"]) with 1.
  rewrite (one_line_definition (T "gate foo q { h q; }") m [] 0 [] [] E eq_refl).
  vm_compute in E. injection E as <-. vm_compute. reflexivity.
Defined.

Lemma firstn_pars (pos : nat) (pt rest : text) :
  firstn (S (S pos + List.length pt) - pos) ("("%char :: pt ++ ")"%char :: rest)
  = "("%char :: pt ++ [")"%char].
Proof.
  replace (S (S pos + List.length pt) - pos) with (S (List.length pt + 1)) by lia.
  cbn [firstn]. f_equal. rewrite firstn_app_2. reflexivity.
Qed.

Lemma header_groups name pars qubits body :
  block_ok name pars qubits body ->
  exists m,
    re_match header_pat (header_line name pars qubits) = Some m
    /\ group_text 1 m = name
    /\ group 2 m = option_map (fun pt => T "(" ++ pt ++ T ")") pars
    /\ group_text 3 m = qubits ++ T " ".
Proof.
  intros H. destruct (block_facts _ _ _ _ H) as [Hne [Hw [Hp [Hq _]]]].
  destruct (qlist_run qubits Hq) as [Hrun Hqne].
  destruct (qubits_first qubits Hq) as [[c [q' [Eq Hc]]] _].
  assert (Hsp : stops is_space (qubits ++ T " " ++ T "{")).
  { rewrite Eq. simpl. apply word_not_space. exact Hc. }
  assert (Hop : stops (is_char "(") (qubits ++ T " " ++ T "{")).
  { rewrite Eq. simpl. revert Hc. clear. char_cases c. }
  unfold re_match, match_at. rewrite rmatch_run_k.
  unfold header_pat, header_line, start.
  rewrite <- !app_assoc. cbn [T list_ascii_of_string app].
  rewrite run_k_cat, run_k_star_none by reflexivity.
  rewrite run_k_cat. lit_step.
  rewrite run_k_cat, run_k_plus, run_k_chr_cons by reflexivity.
  rewrite run_k_star_none
    by (apply (stops_app _ is_word); [assumption|assumption|apply word_not_space]).
  rewrite run_k_cat.
  destruct pars as [pt|]; cbn [pars_text T list_ascii_of_string app option_map].
  - destruct (pars_facts pt Hp) as [Hnp _].
    eexists. split.
    + apply hd_some_grp_plus; [exact Hw|exact Hne|reflexivity|].
      rewrite run_k_cat, run_k_star_none by reflexivity.
      rewrite run_k_cat. apply hd_some_opt_take.
      rewrite run_k_grp, run_k_cat. lit_step. rewrite run_k_cat.
      rewrite <- app_assoc. cbn [app].
      apply hd_some_star; [exact Hnp|reflexivity|].
      lit_step. cbn [set_group ms_prev ms_rest ms_pos ms_caps].
      rewrite run_k_cat.
      apply (hd_some_star is_space _ _ [" "%char] (qubits ++ [" "%char; "{"%char]));
        [reflexivity|exact Hsp|].
      rewrite run_k_cat.
      change (qubits ++ [" "%char; "{"%char])
        with (qubits ++ [" "%char] ++ ["{"%char]).
      rewrite app_assoc.
      apply hd_some_grp_plus; [exact Hrun|exact Hqne|reflexivity|].
      rewrite run_k_cat, run_k_star_none by reflexivity.
      lit_step. reflexivity.
    + cbn [ms_pos ms_rest]. rewrite firstn_pars. repeat split.
  - eexists. split.
    + apply hd_some_grp_plus; [exact Hw|exact Hne|reflexivity|].
      rewrite run_k_cat.
      apply (hd_some_star is_space _ _ [" "%char] (qubits ++ [" "%char; "{"%char]));
        [reflexivity|exact Hsp|].
      rewrite run_k_cat. apply hd_some_opt_skip.
      { rewrite run_k_grp, run_k_cat, run_k_lit.
        cbn [T list_ascii_of_string]. rewrite lit_miss by exact Hop. reflexivity. }
      rewrite run_k_cat, run_k_star_none by exact Hsp.
      rewrite run_k_cat.
      change (qubits ++ [" "%char; "{"%char])
        with (qubits ++ [" "%char] ++ ["{"%char]).
      rewrite app_assoc.
      apply hd_some_grp_plus; [exact Hrun|exact Hqne|reflexivity|].
      rewrite run_k_cat, run_k_star_none by reflexivity.
      lit_step. reflexivity.
    + repeat split.
Qed.


(** *** Cutting a text at commas *)

Definition cons_hd (d : ascii) (l : list text) : list text :=
  match l with
  | w :: ws => (d :: w) :: ws
  | [] => [[d]]
  end.

Lemma split_cons sep d s :
  Str.split sep (d :: s)
  = if Ascii.eqb d sep then [] :: Str.split sep s
    else cons_hd d (Str.split sep s).
Proof. reflexivity. Qed.

Lemma split_not_nil sep s : Str.split sep s <> [].
Proof.
  induction s as [|d s IH]; [discriminate|]. rewrite split_cons.
  destruct (Ascii.eqb d sep); [discriminate|].
  destruct (Str.split sep s); discriminate.
Qed.

Lemma split_snoc sep c : Ascii.eqb c sep = false -> forall s,
  Str.split sep (s ++ [c])
  = removelast (Str.split sep s) ++ [last (Str.split sep s) [] ++ [c]].
Proof.
  intros Hc. induction s as [|d s IH].
  - simpl. rewrite Hc. reflexivity.
  - change ((d :: s) ++ [c]) with (d :: (s ++ [c])).
    rewrite !split_cons, IH. pose proof (split_not_nil sep s) as Hn.
    destruct (Str.split sep s) as [|w [|w' ws]]; [congruence| |];
      destruct (Ascii.eqb d sep); reflexivity.
Qed.

Lemma strip_snoc_space w : Str.strip (w ++ [" "%char]) = Str.strip w.
Proof.
  unfold Str.strip, Str.rstrip. rewrite rev_app_distr. reflexivity.
Qed.

Lemma split_strip_snoc_space s :
  split_strip (s ++ [" "%char]) = split_strip s.
Proof.
  unfold split_strip. rewrite split_snoc by reflexivity.
  pose proof (split_not_nil "," s) as Hn.
  rewrite (app_removelast_last [] Hn) at 3.
  rewrite !map_app. cbn [map]. rewrite strip_snoc_space. reflexivity.
Qed.

Lemma slice_pars (pt : text) :
  Str.slice_1_m1 (T "(" ++ pt ++ T ")") = pt.
Proof.
  unfold Str.slice_1_m1. cbn [T list_ascii_of_string app tl].
  apply removelast_last.
Qed.

Lemma slice_block (A : Type) (h x : A) (bd : list A) :
  Str.slice_1_m1 (h :: bd ++ [x]) = bd.
Proof. unfold Str.slice_1_m1. cbn [tl]. apply removelast_last. Qed.

(** *** The table of a program in the usual layout *)

(** What a definition written as [Block name pars qubits body] puts into
    the table. *)
Definition def_item (it : item) (defs : Dict.t gate_def) : Dict.t gate_def :=
  match it with
  | Plain _ => defs
  | Block name pars qubits body =>
      Dict.set name
        (GateDef (match pars with Some pt => split_strip pt | None => [] end)
                 (split_strip qubits)
                 (map Str.strip (filter Str.nonblank body)))
        defs
  end.

Lemma def_of_block name pars qubits body m :
  group 2 m = option_map (fun pt => T "(" ++ pt ++ T ")") pars ->
  group_text 3 m = qubits ++ T " " ->
  def_of m (item_lines (Block name pars qubits body))
  = GateDef (match pars with Some pt => split_strip pt | None => [] end)
            (split_strip qubits)
            (map Str.strip (filter Str.nonblank body)).
Proof.
  intros G2 G3. unfold def_of. rewrite G2, G3.
  cbn [item_lines]. rewrite slice_block.
  cbn [T list_ascii_of_string]. rewrite split_strip_snoc_space.
  destruct pars as [pt|]; cbn [option_map]; [|reflexivity].
  rewrite slice_pars. reflexivity.
Qed.

Lemma parse_render_defs : forall doc fuel defs outside,
  Forall (fun it => item_ok it = true) doc ->
  List.length (flat_map item_lines doc) <= fuel ->
  fst (parse_loop fuel (flat_map item_lines doc) defs outside)
  = fold_left (fun d it => def_item it d) doc defs.
Proof.
  induction doc as [|it doc IH]; intros fuel defs outside H Hf.
  - destruct fuel; reflexivity.
  - inversion H as [|? ? Hit Hdoc]; subst.
    destruct it as [l|name pars qubits body].
    + simpl flat_map. simpl in Hf. destruct fuel as [|fuel]; [lia|].
      cbn [app parse_loop]. rewrite (header_none l Hit).
      rewrite IH; [reflexivity|exact Hdoc|lia].
    + cbn [flat_map fold_left].
      cbn [flat_map] in Hf. rewrite length_app in Hf.
      destruct fuel as [|fuel]; [simpl in Hf; lia|].
      destruct (header_groups name pars qubits body Hit) as [m [Hm [G1 [G2 G3]]]].
      pose proof (capture_block name pars qubits body
                    (flat_map item_lines doc) Hit) as C.
      pose proof (def_of_block name pars qubits body m G2 G3) as D.
      simpl item_lines in *. rewrite <- app_comm_cons in C |- *.
      cbn [parse_loop]. rewrite Hm, C, G1, D.
      rewrite IH; [reflexivity|exact Hdoc|]. simpl in Hf. lia.
Qed.

(** X5: for a program in the usual layout the parser's table is the one
    built by entering the definitions in the order in which they stand:
    under its name, each definition has its parameters and its qubits cut
    at the commas and stripped, and its body lines that are not blank,
    stripped.  A name defined again keeps its place and takes the later
    definition. *)
Theorem parsed_definitions (doc : list item) :
  forallb item_ok doc = true ->
  gate_defs (render doc) = fold_left (fun d it => def_item it d) doc [].
Proof.
  intros H.
  assert (Hd : Forall (fun it => item_ok it = true) doc).
  { apply Forall_forall. apply forallb_forall. exact H. }
  destruct (item_lines_plain doc Hd) as [Hl _].
  unfold gate_defs, render. rewrite (splitlines_unlines_id _ Hl).
  unfold parse. apply parse_render_defs; [exact Hd|lia].
Qed.

Lemma parsed_definitions_witness :
  gate_defs (render usual_doc)
  = [ (T "foo", GateDef [T "a"; T "b"] [T "q"; T "r"]
                  [T "p(a) q;"; T "cp(b) q,r;"]);
      (T "bar", GateDef [] [T "q"] []) ].
Proof.
  apply (parsed_definitions usual_doc). reflexivity.
Defined.

(** ** Programs without definitions *)

(** [needs x r]: every text [r] matches holds the character [x]. *)
Fixpoint needs (x : ascii) (r : regex) : bool :=
  match r with
  | Lit l => existsb (is_char x) l
  | Grp _ r1 => needs x r1
  | Cat r1 r2 => needs x r1 || needs x r2
  | _ => false
  end.

Lemma needs_lang x r : needs x r = true ->
  forall w, lang r w -> existsb (is_char x) w = true.
Proof.
  induction r as [l|p|p|r IH|n r IH|r1 IH1 r2 IH2| | | |]; simpl; intros H w L;
    try discriminate.
  - subst w. exact H.
  - auto.
  - destruct L as [u [v [-> [Lu Lv]]]]. rewrite existsb_app.
    apply orb_true_iff in H. destruct H as [H|H].
    + rewrite (IH1 H u Lu). reflexivity.
    + rewrite (IH2 H v Lv). apply orb_true_r.
Qed.

Lemma needs_search x r s prev :
  needs x r = true -> forallb (not_char x) s = true ->
  search_from r prev s = None.
Proof.
  intros Hn Hs. apply search_none_by. intros w L pre post E.
  pose proof (needs_lang x r Hn w L) as Hw.
  subst s. rewrite !forallb_app in Hs.
  apply andb_true_iff in Hs. destruct Hs as [_ Hs].
  apply andb_true_iff in Hs. destruct Hs as [Hs _].
  apply existsb_exists in Hw. destruct Hw as [c [Hin Hc]].
  rewrite forallb_forall in Hs. specialize (Hs c Hin).
  unfold not_char in Hs. unfold is_char in Hc. rewrite Hc in Hs. discriminate.
Qed.

Lemma needs_match x r s prev :
  needs x r = true -> forallb (not_char x) s = true ->
  match_at r prev s = None.
Proof.
  intros Hn Hs. apply search_none_here. apply needs_search with (x := x); assumption.
Qed.

Lemma splitlines_go_keeps (Q : ascii -> bool) : forall s cur,
  forallb Q s = true -> forallb Q cur = true ->
  Forall (fun l => forallb Q l = true) (Str.splitlines_go cur s).
Proof.
  assert (R : forall cur, forallb Q cur = true -> forallb Q (rev cur) = true).
  { intros cur. apply all_rev. }
  assert (G : forall n s cur, List.length s <= n ->
            forallb Q s = true -> forallb Q cur = true ->
            Forall (fun l => forallb Q l = true) (Str.splitlines_go cur s)).
  { induction n as [|n IH]; intros s cur Hn Hs Hc.
    - destruct s; [|simpl in Hn; lia]. simpl.
      destruct cur; constructor; [apply R; exact Hc|constructor].
    - destruct s as [|c s].
      + simpl. destruct cur; constructor; [apply R; exact Hc|constructor].
      + simpl in Hn. cbn [Str.splitlines_go].
        cbn [forallb] in Hs. apply andb_true_iff in Hs. destruct Hs as [Hqc Hs].
        destruct (is_linebreak c) eqn:E.
        * destruct s as [|d s'].
          -- constructor; [apply R; exact Hc|constructor].
          -- destruct (Ascii.eqb c "013" && Ascii.eqb d "010").
             ++ constructor; [apply R; exact Hc|].
                cbn [forallb] in Hs. apply andb_true_iff in Hs.
                apply IH; [simpl in Hn; lia|tauto|reflexivity].
             ++ constructor; [apply R; exact Hc|].
                apply IH; [lia|exact Hs|reflexivity].
        * apply IH; [lia|exact Hs|]. simpl. rewrite Hqc. exact Hc. }
  intros s cur. apply (G (List.length s)). lia.
Qed.

Lemma parse_loop_no_header : forall ls fuel defs outside,
  Forall (fun l => re_match header_pat l = None) ls ->
  fst (parse_loop fuel ls defs outside) = defs.
Proof.
  induction ls as [|l ls IH]; intros fuel defs outside H.
  - destruct fuel; reflexivity.
  - inversion H as [|? ? Hl Hls]; subst.
    destruct fuel as [|fuel]; [reflexivity|].
    cbn [parse_loop]. rewrite Hl. apply IH. exact Hls.
Qed.

Lemma no_brace_defs txt :
  forallb (not_char "{") txt = true -> gate_defs txt = [].
Proof.
  intros H. unfold gate_defs, parse. apply parse_loop_no_header.
  pose proof (splitlines_go_keeps (not_char "{") txt [] H eq_refl) as F.
  eapply Forall_impl; [|exact F]. intros l Hl.
  apply (needs_match "{"); [reflexivity|exact Hl].
Qed.

Lemma no_brace_removal txt :
  forallb (not_char "{") txt = true -> remove_gate_blocks txt = txt.
Proof.
  intros H. unfold remove_gate_blocks, re_sub_fun.
  apply sub_go_no_match. apply (needs_search "{"); [reflexivity|exact H].
Qed.

(** X6: a text without an opening brace holds no definition for either
    mechanism: the removal returns it as it is, and the parser's table is
    empty. *)
Theorem no_brace_no_definition (txt : text) :
  forallb (not_char "{") txt = true ->
  remove_gate_blocks txt = txt /\ gate_defs txt = [].
Proof.
  intros H. split; [apply no_brace_removal|apply no_brace_defs]; exact H.
Qed.

Lemma no_brace_no_definition_witness :
  remove_gate_blocks (T "OPENQASM 2.0; gate h q[0];")
  = T "OPENQASM 2.0; gate h q[0];"
  /\ gate_defs (T "OPENQASM 2.0; gate h q[0];") = [].
Proof.
  apply (no_brace_no_definition (T "OPENQASM 2.0; gate h q[0];")). reflexivity.
Defined.

(** A pass over lines none of which is a call of a defined gate. *)
Lemma expand_once_quiet defs : forall lines,
  existsb (is_call defs) lines = false ->
  expand_once defs lines = Done (map convert_line lines, false).
Proof.
  induction lines as [|ln lines IH]; intros H; [reflexivity|].
  cbn [existsb] in H. apply orb_false_iff in H. destruct H as [H1 H2].
  cbn [expand_once map]. rewrite (IH H2).
  unfold is_call in H1. unfold expand_line.
  destruct (re_match call_pat ln) as [m|]; [|reflexivity].
  unfold Dict.mem in H1.
  destruct (Dict.get (group_text 1 m) defs); [discriminate|reflexivity].
Qed.

Lemma is_call_nil : forall lines, existsb (is_call []) lines = false.
Proof.
  induction lines as [|ln lines IH]; [reflexivity|].
  cbn [existsb]. rewrite IH. unfold is_call.
  destruct (re_match call_pat ln); reflexivity.
Qed.

(** X7: on a text without an opening brace the script is a lowering line
    by line, done in one pass: the first line is written as it is, every
    other line is lowered once, and the lowered lines that are not blank
    follow the first line. *)
Theorem script_without_definitions (txt header : text) (body_part : list text)
    (fuel : nat) :
  forallb (not_char "{") txt = true ->
  Str.splitlines txt = header :: body_part ->
  script (S fuel) txt
  = Done (header ++ [NL] ++ clean (map convert_line body_part) ++ [NL]).
Proof.
  intros H E. unfold script.
  rewrite (no_brace_removal txt H), (no_brace_defs txt H), E.
  cbn [expand_loop]. rewrite (expand_once_quiet [] body_part (is_call_nil _)).
  reflexivity.
Qed.

Lemma script_without_definitions_witness :
  script 1 (T "p(a) q[0];" ++ [NL] ++ T "p(b) q[1];" ++ [NL] ++ T "  " ++ [NL]
            ++ T "h q[0];")
  = Done (T "p(a) q[0];" ++ [NL] ++ T "u(0,0,b) q[1];" ++ [NL] ++ T "h q[0];"
          ++ [NL]).
Proof.
  apply (script_without_definitions _ (T "p(a) q[0];")
           [T "p(b) q[1];"; T "  "; T "h q[0];"] 0); reflexivity.
Defined.

(** ** When the script raises *)

Lemma splitlines_go_nil : forall s cur,
  Str.splitlines_go cur s = [] -> s = [] /\ cur = [].
Proof.
  induction s as [|c s IH]; intros cur H.
  - simpl in H. destruct cur; [auto|discriminate].
  - cbn [Str.splitlines_go] in H. destruct (is_linebreak c).
    + destruct s as [|d s']; [discriminate|].
      destruct (Ascii.eqb c "013" && Ascii.eqb d "010"); discriminate.
    + apply IH in H. destruct H as [_ H]. discriminate.
Qed.

Lemma re_sub_raises r a s e : re_sub r a s = Raised e -> e = ReplEscape.
Proof.
  unfold re_sub. destruct (existsb _ a); intros H; inversion H; reflexivity.
Qed.

Lemma subst_map_raises (mp : Dict.t text) : forall acc e,
  (forall e', acc = Raised e' -> e' = ReplEscape) ->
  fold_left
    (fun acc fa => bind acc (fun line => re_sub (symbol_pat (fst fa)) (snd fa) line))
    mp acc = Raised e ->
  e = ReplEscape.
Proof.
  induction mp as [|[f a] mp IH]; simpl; intros acc e Hacc H.
  - auto.
  - eapply IH; [|exact H]. intros e' E.
    destruct acc as [l|e0|]; simpl in E.
    + eapply re_sub_raises; eauto.
    + inversion E; subst. auto.
    + discriminate.
Qed.

Lemma subst_body_line_raises p_map q_map b e :
  subst_body_line p_map q_map b = Raised e -> e = ReplEscape.
Proof.
  unfold subst_body_line, subst_map. intros H.
  destruct (fold_left _ p_map (Done b)) as [l1|e1|] eqn:E1; simpl in H.
  - destruct (fold_left _ q_map (Done l1)) as [l2|e2|] eqn:E2; simpl in H;
      try discriminate.
    inversion H; subst. eapply subst_map_raises; [|exact E2]. discriminate.
  - inversion H; subst. eapply subst_map_raises; [|exact E1]. discriminate.
  - discriminate.
Qed.

Lemma map_result_raises (A B : Type) (f : A -> result B) (e0 : failure) :
  (forall a e, f a = Raised e -> e = e0) ->
  forall l e, map_result f l = Raised e -> e = e0.
Proof.
  intros Hf. induction l as [|a l IH]; simpl; intros e H; [discriminate|].
  destruct (f a) as [b|e1|] eqn:Ea; simpl in H.
  - destruct (map_result f l) as [bs|e2|]; simpl in H; try discriminate.
    inversion H; subst. auto.
  - inversion H; subst. eauto.
  - discriminate.
Qed.

Lemma expand_line_raises defs ln e :
  expand_line defs ln = Raised e -> e = ReplEscape.
Proof.
  unfold expand_line. destruct (re_match call_pat ln) as [m|]; [|discriminate].
  destruct (Dict.get (group_text 1 m) defs) as [g|]; [|discriminate].
  unfold expand_call.
  destruct (map_result _ (body g)) as [o|e1|] eqn:E; simpl; try discriminate.
  intros H. inversion H; subst.
  eapply map_result_raises; [|exact E]. intros a e0. apply subst_body_line_raises.
Qed.

Lemma expand_once_raises defs : forall lines e,
  expand_once defs lines = Raised e -> e = ReplEscape.
Proof.
  induction lines as [|ln lines IH]; simpl; intros e H; [discriminate|].
  destruct (expand_line defs ln) as [[o1 c1]|e1|] eqn:E1; simpl in H.
  - destruct (expand_once defs lines) as [[o2 c2]|e2|]; simpl in H;
      try discriminate.
    inversion H; subst. auto.
  - inversion H; subst. eapply expand_line_raises; eauto.
  - discriminate.
Qed.

Lemma expand_loop_raises defs : forall fuel lines e,
  expand_loop fuel defs lines = Raised e -> e = ReplEscape.
Proof.
  induction fuel as [|fuel IH]; simpl; intros lines e H; [discriminate|].
  destruct (expand_once defs lines) as [[o c]|e1|] eqn:E; simpl in H.
  - destruct c; [eauto|discriminate].
  - inversion H; subst. eapply expand_once_raises; eauto.
  - discriminate.
Qed.

(** X8: the script raises [ValueError] exactly when nothing is left of
    the text once the definition blocks are removed: the unpacking of the
    first line is the only place that raises it, and it does so on an
    empty list of lines only. *)
Theorem script_value_error (fuel : nat) (txt : text) :
  script fuel txt = Raised ValueError <-> remove_gate_blocks txt = [].
Proof.
  unfold script. split.
  - intros H.
    destruct (Str.splitlines (remove_gate_blocks txt)) as [|h b] eqn:E.
    + apply splitlines_go_nil in E. tauto.
    + destruct (expand_loop fuel (gate_defs txt) b) as [o|e|] eqn:L;
        simpl in H; try discriminate.
      inversion H; subst. apply expand_loop_raises in L. discriminate.
  - intros ->. reflexivity.
Qed.

Lemma script_value_error_witness :
  script 5 [] = Raised ValueError.
Proof.
  apply (proj2 (script_value_error 5 [])). reflexivity.
Defined.

Definition is_block (it : item) : bool :=
  match it with
  | Block _ _ _ _ => true
  | Plain _ => false
  end.

Lemma outside_blocks : forall doc,
  forallb is_block doc = true -> flat_map outside_lines doc = [].
Proof.
  induction doc as [|it doc IH]; [reflexivity|]. simpl. intros H.
  apply andb_true_iff in H. destruct H as [Hi Hd].
  destruct it; [discriminate|]. simpl. auto.
Qed.

(** X9: a program in the usual layout that holds definitions only, or
    nothing at all, makes the script raise [ValueError]: there is no first
    line to take. *)
Theorem definitions_only_raises (fuel : nat) (doc : list item) :
  forallb item_ok doc = true -> forallb is_block doc = true ->
  script fuel (render doc) = Raised ValueError.
Proof.
  intros H Hb.
  assert (Hd : Forall (fun it => item_ok it = true) doc).
  { apply Forall_forall. apply forallb_forall. exact H. }
  unfold script.
  replace (remove_gate_blocks (render doc)) with (@nil ascii); [reflexivity|].
  unfold remove_gate_blocks, re_sub_fun.
  rewrite (remove_render doc None Hd (or_introl eq_refl)).
  rewrite (outside_blocks doc Hb). reflexivity.
Qed.

Definition two_definitions : list item :=
  [ Block (T "foo") (Some (T "a")) (T "q") [T "  p(a) q;"];
    Block (T "bar") None (T "q, r") [T "  cx q,r;"; T "  foo(1) r;"] ].

Lemma definitions_only_raises_witness :
  script 3 (render two_definitions) = Raised ValueError.
Proof.
  apply (definitions_only_raises 3 two_definitions); reflexivity.
Defined.

(** ** More on the lowering *)

(** *** The [p] pattern inside a longer name *)

Lemma head_of_app (pre : text) (c : ascii) (tail : text) :
  exists d rest, pre ++ c :: tail = d :: rest
                 /\ (d = c \/ exists pre', pre = d :: pre').
Proof.
  destruct pre as [|d pre'].
  - exists c, tail. auto.
  - exists d, (pre' ++ c :: tail). split; [reflexivity|]. right. eauto.
Qed.

Lemma p_none_before prev c d rest :
  is_char "(" d = false -> match_at p_pattern prev (c :: d :: rest) = None.
Proof.
  intros Hd. unfold match_at. rewrite rmatch_run_k. unfold p_pattern, start.
  rewrite run_k_cat, run_k_lit. cbn [T list_ascii_of_string lit_match ms_rest].
  destruct (Ascii.eqb "p" c); [|reflexivity].
  cbn [advance ms_rest]. unfold is_char in Hd.
  rewrite Ascii.eqb_sym, Hd. reflexivity.
Qed.

Lemma word_not_open c : is_word c = true -> is_char "(" c = false.
Proof. char_cases c. Qed.

Lemma p_sub_prefix (rp : mstate -> text) tail : forall pre prev,
  forallb is_word pre = true ->
  sub_go p_pattern rp prev (pre ++ "p"%char :: tail) 0
  = pre ++ sub_go p_pattern rp (last_char prev pre) ("p"%char :: tail) 0.
Proof.
  induction pre as [|c pre IH]; intros prev H; [reflexivity|].
  cbn [forallb] in H. apply andb_true_iff in H. destruct H as [Hc Hpre].
  change ((c :: pre) ++ "p"%char :: tail) with (c :: (pre ++ "p"%char :: tail)).
  destruct (head_of_app pre "p" tail) as [d [rest [E Hd]]].
  assert (Hnd : is_char "(" d = false).
  { destruct Hd as [->|[pre' ->]]; [reflexivity|].
    cbn [forallb] in Hpre. apply andb_true_iff in Hpre.
    apply word_not_open. tauto. }
  cbn [sub_go]. rewrite E, (p_none_before prev c d rest Hnd), <- E.
  rewrite IH by exact Hpre. reflexivity.
Qed.

Lemma search_from_later r s : forall pre prev,
  (forall prev', match_at r prev' s <> None) ->
  search_from r prev (pre ++ s) <> None.
Proof.
  induction pre as [|c pre IH]; intros prev H.
  - cbn [app]. specialize (H prev).
    destruct s; simpl; destruct (match_at r prev _); congruence.
  - change ((c :: pre) ++ s) with (c :: (pre ++ s)). cbn [search_from].
    destruct (match_at r prev (c :: pre ++ s)); [discriminate|]. apply IH. exact H.
Qed.

Lemma word_no_sign w :
  forallb is_word w = true -> forallb (fun c => negb (is_sign c)) w = true.
Proof. apply forallb_imp. intros c. char_cases c. Qed.

Lemma word_no_close w :
  forallb is_word w = true -> forallb (fun c => negb (is_char ")" c)) w = true.
Proof. apply forallb_imp. intros c. char_cases c. Qed.

(** X10: the [p] pattern is looked for anywhere in a line, so a statement
    whose gate name only ends in [p] is lowered as well, and the rest of
    the name is kept in front of the result: [cp(x) a;] with one qubit
    becomes [cu(0,0,x) a;]. *)
Theorem p_lowering_inside_name (pre theta t : text) :
  forallb is_word pre = true ->
  theta <> [] -> forallb (not_char ")") theta = true ->
  sign_pair_free theta = true ->
  t <> [] -> forallb is_qref t = true ->
  convert_line (pre ++ T "p(" ++ theta ++ T ") " ++ t ++ T ";")
  = pre ++ T "u(0,0," ++ theta ++ T ") " ++ t ++ T ";".
Proof.
  intros Hpre Hne Hth Hsg Htne Ht. unfold convert_line.
  assert (Hcp : cp_to_native (pre ++ T "p(" ++ theta ++ T ") " ++ t ++ T ";")
                = pre ++ T "p(" ++ theta ++ T ") " ++ t ++ T ";").
  { unfold cp_to_native, re_search.
    rewrite cp_search_none_comma; [reflexivity|].
    rewrite has_after_skip by (apply word_no_close; exact Hpre).
    cbn [T list_ascii_of_string app has_after].
    rewrite has_after_skip by exact Hth.
    cbn [has_after existsb is_char Ascii.eqb Bool.eqb andb orb].
    rewrite existsb_app, (existsb_none _ t (qref_no_comma t Ht)).
    rewrite has_after_skip by (apply qref_no_close; exact Ht).
    reflexivity. }
  rewrite Hcp.
  assert (Hp : p_to_native (pre ++ T "p(" ++ theta ++ T ") " ++ t ++ T ";")
               = pre ++ T "u(0,0," ++ theta ++ T ") " ++ t ++ T ";").
  { unfold p_to_native, re_search.
    destruct (search_from p_pattern None
                (pre ++ T "p(" ++ theta ++ T ") " ++ t ++ T ";")) as [m0|] eqn:E.
    - unfold re_sub_fun. cbn [T list_ascii_of_string app].
      rewrite p_sub_prefix by exact Hpre. f_equal.
      destruct (p_match_whole (last_char None pre) theta t Hne Hth Htne Ht)
        as [m [Hm [Hr [G1 G2]]]].
      cbn [T list_ascii_of_string app] in Hm.
      rewrite (sub_go_whole _ _ _ _ m Hm Hr); [|discriminate|reflexivity].
      unfold p_sub. rewrite G1, G2. reflexivity.
    - exfalso. revert E. apply search_from_later. intros prev'.
      destruct (p_match_whole prev' theta t Hne Hth Htne Ht) as [m [Hm _]].
      rewrite Hm. discriminate. }
  rewrite Hp. apply sign_steps_id.
  rewrite spf_plain by (apply word_no_sign; exact Hpre).
  cbn [T list_ascii_of_string app].
  rewrite !spf_cons by reflexivity.
  rewrite spf_app by reflexivity.
  rewrite spf_cons by reflexivity.
  rewrite spf_plain by (apply qref_no_sign; exact Ht).
  rewrite Hsg. reflexivity.
Qed.

Lemma p_lowering_inside_name_witness :
  convert_line (T "c" ++ T "p(" ++ T "x" ++ T ") " ++ T "a" ++ T ";")
  = T "c" ++ T "u(0,0," ++ T "x" ++ T ") " ++ T "a" ++ T ";".
Proof.
  apply (p_lowering_inside_name (T "c") (T "x") (T "a"));
    try reflexivity; discriminate.
Defined.

(** *** Blank lines and the lowering *)

(** A part that is replaced, and what replaces it, both hold a character
    that is no space. *)
Definition both_seen (w R : text) : Prop :=
  Str.nonblank w = true /\ Str.nonblank R = true.

Lemma nonblank_app a b :
  Str.nonblank (a ++ b) = Str.nonblank a || Str.nonblank b.
Proof. unfold Str.nonblank. rewrite forallb_app. apply negb_andb. Qed.

Lemma rewrites_nonblank : forall s s',
  rewrites both_seen s s' -> Str.nonblank s' = Str.nonblank s.
Proof.
  induction 1 as [|c s s' _ IH|w R s s' [Hw HR] _ IH].
  - reflexivity.
  - change (c :: s') with ([c] ++ s'). change (c :: s) with ([c] ++ s).
    rewrite !nonblank_app, IH. reflexivity.
  - rewrite !nonblank_app, Hw, HR. reflexivity.
Qed.

Lemma sub_nonblank r (rp : mstate -> text) s :
  (forall w, lang r w -> Str.nonblank w = true) ->
  (forall m, Str.nonblank (rp m) = true) ->
  Str.nonblank (re_sub_fun r rp s) = Str.nonblank s.
Proof.
  intros Hw HR. apply rewrites_nonblank. apply re_sub_fun_rewrites.
  intros prev s0 m Hin w Ew. split; [|apply HR].
  apply Hw. apply (match_lang_of r prev s0 m w Hin Ew).
Qed.

(** X11: the lowering neither makes a blank line nor fills one: a line
    has a character that is no space after the lowering exactly when it
    had one before, so the lines dropped at the end are those that were
    blank before they were lowered. *)
Theorem lowering_keeps_blankness (line : text) :
  Str.nonblank (convert_line line) = Str.nonblank line.
Proof.
  unfold convert_line, re_sub_lit.
  rewrite !sub_nonblank;
    try (intros w L; simpl in L; subst w; reflexivity);
    try (intros m; reflexivity).
  assert (H1 : Str.nonblank (cp_to_native line) = Str.nonblank line).
  { unfold cp_to_native. destruct (re_search cp_pattern line) as [m0|]; [|reflexivity].
    apply sub_nonblank.
    - intros w L. apply cp_lang_shape in L. destruct L as [_ [_ [c ->]]].
      reflexivity.
    - intros m. reflexivity. }
  rewrite <- H1. unfold p_to_native.
  destruct (re_search p_pattern (cp_to_native line)) as [m0|]; [|reflexivity].
  apply sub_nonblank.
  - intros w L. apply p_lang_shape in L. destruct L as [_ [c ->]]. reflexivity.
  - intros m. reflexivity.
Qed.

(** *** Runs of one sign *)

Lemma pair_match c prev s :
  match_at (Lit [c; c]) prev (c :: c :: s)
  = Some (MState (Some c) s 2 []).
Proof.
  unfold match_at, start. cbn [rmatch lit_match ms_rest advance].
  rewrite !Ascii.eqb_refl. reflexivity.
Qed.

Lemma pair_alone c prev : match_at (Lit [c; c]) prev [c] = None.
Proof.
  unfold match_at, start. cbn [rmatch lit_match ms_rest].
  rewrite Ascii.eqb_refl. reflexivity.
Qed.

Lemma pair_sub c : forall n (k : nat) prev, k <= n ->
  sub_go (Lit [c; c]) (fun _ => [c]) prev (repeat c k) 0
  = repeat c (Nat.div2 (S k)).
Proof.
  induction n as [|n IH]; intros k prev Hk.
  - destruct k; [reflexivity|lia].
  - destruct k as [|[|k]].
    + reflexivity.
    + cbn [repeat sub_go]. rewrite pair_alone. reflexivity.
    + cbn [repeat sub_go]. rewrite pair_match. cbn [ms_pos Nat.eqb Nat.sub].
      cbn [sub_go app]. rewrite IH by lia. reflexivity.
Qed.

Lemma repeat_without (x c : ascii) n :
  Ascii.eqb c x = false -> forallb (not_char x) (repeat c n) = true.
Proof.
  intros H. induction n as [|n IH]; [reflexivity|].
  simpl. unfold not_char at 1. rewrite H. exact IH.
Qed.

Lemma repeat_no_open c n : is_sign c = true -> has_open (repeat c n) = false.
Proof.
  intros H. apply has_open_none. induction n as [|n IH]; [reflexivity|].
  simpl. rewrite IH, andb_true_r. revert H. char_cases c.
Qed.

(** X12: the sign rewriting is one pass of each rule, not a rewriting to
    the end: it halves a run of one sign, rounding up, so three signs in
    a row leave two. *)
Theorem sign_run_halved (c : ascii) (n : nat) :
  is_sign c = true ->
  convert_line (repeat c n) = repeat c (Nat.div2 (S n)).
Proof.
  intros Hc.
  unfold convert_line, cp_to_native, p_to_native, re_search.
  rewrite (cp_search_none_open _ _ (repeat_no_open c n Hc)),
          (p_search_none_open _ _ (repeat_no_open c n Hc)).
  unfold re_sub_lit, re_sub_fun.
  assert (E : c = "+"%char \/ c = "-"%char).
  { revert Hc. char_cases c; auto. }
  destruct E as [-> | ->].
  - change (T "++") with ["+"%char; "+"%char]. change (T "+") with ["+"%char].
    rewrite (pair_sub "+" n n None (le_n n)).
    rewrite (sub_go_no_match (Lit (T "-+")));
      [|apply (needs_search "-"); [reflexivity|apply repeat_without; reflexivity]].
    rewrite (sub_go_no_match (Lit (T "+-")));
      [|apply (needs_search "-"); [reflexivity|apply repeat_without; reflexivity]].
    rewrite (sub_go_no_match (Lit (T "--")));
      [|apply (needs_search "-"); [reflexivity|apply repeat_without; reflexivity]].
    reflexivity.
  - rewrite (sub_go_no_match (Lit (T "++")));
      [|apply (needs_search "+"); [reflexivity|apply repeat_without; reflexivity]].
    rewrite (sub_go_no_match (Lit (T "-+")));
      [|apply (needs_search "+"); [reflexivity|apply repeat_without; reflexivity]].
    rewrite (sub_go_no_match (Lit (T "+-")));
      [|apply (needs_search "+"); [reflexivity|apply repeat_without; reflexivity]].
    change (T "--") with ["-"%char; "-"%char]. change (T "-") with ["-"%char].
    apply (pair_sub "-" n n None (le_n n)).
Qed.

Lemma sign_run_halved_witness :
  convert_line (repeat "-"%char 3) = repeat "-"%char 2.
Proof.
  apply (sign_run_halved "-" 3). reflexivity.
Defined.

(** ** What counts as a call *)

Lemma call_tail ln m :
  re_match call_pat ln = Some m ->
  exists a sp, ln = a ++ ";"%char :: sp /\ forallb is_space sp = true.
Proof.
  intros Hm. apply match_at_in in Hm.
  destruct (rmatch_moves _ _ _ Hm) as [w [Ew _]]. simpl in Ew.
  pose proof (match_lang_of _ _ _ _ _ Hm Ew) as L.
  assert (He : at_eos m = true) by (eapply rmatch_ends_eos; eauto; reflexivity).
  assert (Hr : forallb is_space (ms_rest m) = true).
  { unfold at_eos in He. destruct (ms_rest m) as [|c [|d r]]; try discriminate.
    - reflexivity.
    - apply Ascii.eqb_eq in He. subst c. reflexivity. }
  unfold call_pat in L.
  destruct L as [u1 [v1 [E1 [L1 L]]]].
  destruct L as [u2 [v2 [E2 [L2 L]]]].
  destruct L as [u3 [v3 [E3 [L3 L]]]].
  destruct L as [u4 [v4 [E4 [L4 L]]]].
  destruct L as [u5 [v5 [E5 [L5 L]]]].
  destruct L as [u6 [v6 [E6 [L6 L]]]].
  destruct L as [u7 [v7 [E7 [L7 L]]]].
  destruct L as [u8 [v8 [E8 [L8 L]]]].
  destruct L as [u9 [v9 [E9 [L9 L10]]]].
  simpl in L8, L9, L10. subst.
  exists (u1 ++ u2 ++ u3 ++ u4 ++ u5 ++ u6 ++ u7), (u9 ++ ms_rest m).
  split.
  - rewrite app_nil_r. rewrite <- !app_assoc. reflexivity.
  - rewrite forallb_app, L9, Hr. reflexivity.
Qed.

Lemma call_last_char w c m :
  re_match call_pat (w ++ [c]) = Some m -> c = ";"%char \/ is_space c = true.
Proof.
  intros H. destruct (call_tail _ _ H) as [a [sp [E Hsp]]].
  destruct (exists_last (l := ";"%char :: sp)) as [sp' [x Ex]]; [discriminate|].
  rewrite Ex, app_assoc in E. apply app_inj_tail in E. destruct E as [_ <-].
  destruct sp as [|y sp].
  - destruct sp' as [|? [|? ?]]; inversion Ex. auto.
  - right. assert (Hin : In c (y :: sp)).
    { assert (Hin' : In c (";"%char :: y :: sp))
        by (rewrite Ex; apply in_or_app; right; left; reflexivity).
      destruct Hin' as [Hc|Hin']; [|exact Hin'].
      subst c. exfalso.
      assert (Hl : last (";"%char :: y :: sp) " "%char = ";"%char)
        by (rewrite Ex; apply last_last).
      change (last (";"%char :: y :: sp) " "%char)
        with (last (y :: sp) " "%char) in Hl.
      assert (Hi : In (last (y :: sp) " "%char) (y :: sp)).
      { destruct (exists_last (l := y :: sp)) as [q [z Ez]]; [discriminate|].
        rewrite Ez, last_last. apply in_or_app. right. left. reflexivity. }
      rewrite Hl in Hi. rewrite forallb_forall in Hsp.
      specialize (Hsp _ Hi). discriminate. }
    rewrite forallb_forall in Hsp. apply Hsp. exact Hin.
Qed.

(** X13: a line counts as a call only when nothing but spaces follows its
    last semicolon: a line that ends in any other character, a comment
    after the statement for one, is lowered but never expanded, whatever
    the definitions are. *)
Theorem call_must_end_line (defs : Dict.t gate_def) (w : text) (c : ascii) :
  is_space c = false -> c <> ";"%char ->
  expand_line defs (w ++ [c]) = Done ([convert_line (w ++ [c])], false).
Proof.
  intros Hs Hc. unfold expand_line.
  destruct (re_match call_pat (w ++ [c])) as [m|] eqn:E; [|reflexivity].
  destruct (call_last_char w c m E) as [H|H]; [congruence|].
  rewrite H in Hs. discriminate.
Qed.

Lemma call_must_end_line_witness :
  expand_line (gate_defs nested_text) (T "outer(pi/4) q[0],q[1]; // here" ++ ["!"%char])
  = Done ([convert_line (T "outer(pi/4) q[0],q[1]; // here" ++ ["!"%char])], false).
Proof.
  apply (call_must_end_line (gate_defs nested_text)
           (T "outer(pi/4) q[0],q[1]; // here") "!"); [reflexivity|discriminate].
Defined.

(** ** A formal parameter that is the empty text *)

(** [a] written at every word boundary of [s]; [prev] is the character
    before [s]. *)
Fixpoint mark (a : text) (prev : option ascii) (s : text) : text :=
  (if xorb (opt_word prev) (opt_word (hd_error s)) then a else [])
  ++ match s with
     | [] => []
     | c :: s' => c :: mark a (Some c) s'
     end.

Lemma empty_symbol_match prev s :
  rmatch (symbol_pat []) (start prev s)
  = if xorb (opt_word prev) (opt_word (hd_error s)) then [start prev s] else [].
Proof.
  unfold symbol_pat, start. cbn [rmatch]. unfold at_wordb.
  cbn [ms_prev ms_rest].
  destruct (xorb (opt_word prev) (opt_word (hd_error s))) eqn:E; simpl;
    rewrite ?E; reflexivity.
Qed.

Lemma empty_symbol_sub a : forall s prev,
  sub_go (symbol_pat []) (fun _ => a) prev s 0 = mark a prev s.
Proof.
  induction s as [|c s IH]; intros prev.
  - cbn [sub_go mark]. unfold match_at, match_at_nonempty.
    rewrite empty_symbol_match.
    destruct (xorb (opt_word prev) (opt_word (hd_error []))); reflexivity.
  - cbn [sub_go mark]. unfold match_at, match_at_nonempty.
    rewrite empty_symbol_match.
    destruct (xorb (opt_word prev) (opt_word (hd_error (c :: s)))).
    + cbn [hd_error start ms_pos Nat.eqb filter negb]. rewrite IH. reflexivity.
    + cbn [hd_error]. rewrite IH. reflexivity.
Qed.

(** X14: a definition written with empty parentheses has one formal
    parameter, the empty text.  Substituting an actual text for it writes
    that text at every word boundary of the body line: before and after
    every identifier. *)
Theorem empty_parameter_substitution (a line : text) :
  existsb (is_char "\") a = false ->
  split_strip (Str.slice_1_m1 (T "()")) = [[]]
  /\ re_sub (symbol_pat []) a line = Done (mark a None line).
Proof.
  intros H. split; [reflexivity|].
  unfold re_sub. rewrite H. unfold re_sub_lit, re_sub_fun.
  rewrite empty_symbol_sub. reflexivity.
Qed.

Lemma empty_parameter_substitution_witness :
  split_strip (Str.slice_1_m1 (T "()")) = [[]]
  /\ re_sub (symbol_pat []) (T "1") (T "h q;") = Done (T "1h1 1q1;").
Proof.
  apply (empty_parameter_substitution (T "1") (T "h q;")). reflexivity.
Defined.

(** ** Parameter and qubit lists *)

Lemma lstrip_stops s : stops is_space (Str.lstrip s).
Proof.
  induction s as [|c s IH]; simpl; [exact I|].
  destruct (is_space c) eqn:E; [exact IH|exact E].
Qed.

Lemma lstrip_id s : stops is_space s -> Str.lstrip s = s.
Proof. destruct s as [|c s]; simpl; [reflexivity|]. intros ->. reflexivity. Qed.

Lemma lstrip_suffix s : exists sp, s = sp ++ Str.lstrip s.
Proof.
  induction s as [|c s [sp IH]]; simpl.
  - exists []. reflexivity.
  - destruct (is_space c).
    + exists (c :: sp). simpl. rewrite <- IH. reflexivity.
    + exists []. reflexivity.
Qed.

Lemma stops_rev_lstrip z :
  stops is_space (rev z) -> stops is_space (rev (Str.lstrip z)).
Proof.
  intros H. destruct (lstrip_suffix z) as [sp E].
  destruct (Str.lstrip z) as [|c l] eqn:El; [exact I|].
  rewrite E, rev_app_distr in H.
  destruct (exists_last (l := c :: l)) as [q [x Ex]]; [discriminate|].
  rewrite Ex, rev_app_distr in H |- *. exact H.
Qed.

Lemma strip_stops x :
  stops is_space (Str.strip x) /\ stops is_space (rev (Str.strip x)).
Proof.
  unfold Str.strip, Str.rstrip. split; [apply lstrip_stops|].
  apply stops_rev_lstrip. rewrite rev_involutive. apply lstrip_stops.
Qed.

Lemma strip_strip x : Str.strip (Str.strip x) = Str.strip x.
Proof.
  destruct (strip_stops x) as [H1 H2].
  unfold Str.strip at 1. unfold Str.rstrip.
  rewrite (lstrip_id _ H2), rev_involutive. apply lstrip_id. exact H1.
Qed.

Lemma split_no_sep sep : forall s,
  Forall (fun w => forallb (not_char sep) w = true) (Str.split sep s).
Proof.
  induction s as [|d s IH]; [repeat constructor|].
  rewrite split_cons. destruct (Ascii.eqb d sep) eqn:E.
  - constructor; [reflexivity|exact IH].
  - destruct (Str.split sep s) as [|w ws]; cbn [cons_hd].
    + repeat constructor. simpl. unfold not_char. rewrite E. reflexivity.
    + inversion IH; subst. constructor; [|assumption].
      simpl. unfold not_char at 1. rewrite E. assumption.
Qed.

Lemma split_length sep : forall s,
  List.length (Str.split sep s)
  = S (List.length (filter (is_char sep) s)).
Proof.
  induction s as [|d s IH]; [reflexivity|].
  rewrite split_cons. cbn [filter]. unfold is_char at 1.
  destruct (Ascii.eqb d sep).
  - cbn [List.length]. rewrite IH. reflexivity.
  - rewrite <- IH. pose proof (split_not_nil sep s) as Hn.
    destruct (Str.split sep s); [congruence|reflexivity].
Qed.

(** X15: a parameter or qubit list is cut into one part more than it has
    commas, so never into none: an empty text gives one part, the empty
    text.  No part holds a comma, and no part starts or ends with a
    space: stripping a part again changes nothing. *)
Theorem split_strip_parts (s : text) :
  List.length (split_strip s) = S (List.length (filter (is_char ",") s))
  /\ Forall (fun w => forallb (not_char ",") w = true /\ Str.strip w = w)
       (split_strip s).
Proof.
  unfold split_strip. split.
  - rewrite length_map. apply split_length.
  - apply Forall_map. eapply Forall_impl; [|apply (split_no_sep "," s)].
    intros w Hw. split; [|apply strip_strip].
    apply (all_strip (not_char ",")). exact Hw.
Qed.

(** ** The tables *)

Lemma dict_get_after_set (V : Type) (k k' : text) (v : V) (d : Dict.t V) :
  Dict.get k' (Dict.set k v d)
  = if text_eqb k k' then Some v else Dict.get k' d.
Proof.
  induction d as [|[k0 v0] d IH]; simpl.
  - reflexivity.
  - destruct (text_eqb k0 k) eqn:E0.
    + apply text_eqb_eq in E0. subst k0. simpl.
      destruct (text_eqb k k'); reflexivity.
    + simpl. destruct (text_eqb k0 k') eqn:E1.
      * apply text_eqb_eq in E1. subst k0.
        rewrite text_eqb_neq; [reflexivity|].
        intros ->. rewrite text_eqb_refl in E0. discriminate.
      * exact IH.
Qed.

Lemma find_app (A : Type) (f : A -> bool) (a b : list A) :
  find f (a ++ b) = match find f a with Some x => Some x | None => find f b end.
Proof.
  induction a as [|x a IH]; simpl; [reflexivity|].
  destruct (f x); [reflexivity|exact IH].
Qed.

Lemma dict_fold_last (V : Type) (k : text) : forall (ps : list (text * V)) d,
  Dict.get k (fold_left (fun d kv => Dict.set (fst kv) (snd kv) d) ps d)
  = match find (fun kv => text_eqb (fst kv) k) (rev ps) with
    | Some kv => Some (snd kv)
    | None => Dict.get k d
    end.
Proof.
  induction ps as [|kv ps IH]; intros d; [reflexivity|].
  cbn [fold_left rev]. rewrite IH, find_app.
  destruct (find _ (rev ps)); [reflexivity|].
  cbn [find]. rewrite dict_get_after_set.
  destruct (text_eqb (fst kv) k); reflexivity.
Qed.

(** X16: looking a name up in a table.  After an entry is written, the
    name written gives the new value and every other name gives what it
    gave before.  In a map built from pairs of formal and actual texts, a
    formal text that stands more than once is given the actual text of
    its last pair, and a text that is no formal text is not in the map. *)
Theorem table_lookup (V : Type) :
  (forall (k k' : text) (v : V) (d : Dict.t V),
      Dict.get k' (Dict.set k v d)
      = if text_eqb k k' then Some v else Dict.get k' d)
  /\ (forall (k : text) (ps : list (text * V)),
      Dict.get k (Dict.of_pairs ps)
      = option_map snd (find (fun kv => text_eqb (fst kv) k) (rev ps))).
Proof.
  split.
  - intros k k' v d. apply dict_get_after_set.
  - intros k ps. unfold Dict.of_pairs. rewrite dict_fold_last.
    destruct (find _ (rev ps)); reflexivity.
Qed.

(** ** One pass, line by line *)

(** X17: a pass treats every line on its own: the pass over two lists
    of lines put together is the pass over the first followed by the pass
    over the second, and it reports a change when either does. *)
Theorem expand_once_app (defs : Dict.t gate_def) (l1 l2 : list text) :
  expand_once defs (l1 ++ l2)
  = bind (expand_once defs l1) (fun x1 =>
      bind (expand_once defs l2) (fun x2 =>
        Done (fst x1 ++ fst x2, snd x1 || snd x2))).
Proof.
  induction l1 as [|ln l1 IH]; cbn [app expand_once].
  - cbn [bind fst snd app orb].
    destruct (expand_once defs l2) as [[o c]| |]; reflexivity.
  - destruct (expand_line defs ln) as [[o1 c1]|e|]; cbn [bind]; try reflexivity.
    rewrite IH.
    destruct (expand_once defs l1) as [[o2 c2]|e|]; cbn [bind]; try reflexivity.
    destruct (expand_once defs l2) as [[o3 c3]|e|]; cbn [bind fst snd];
      try reflexivity.
    rewrite app_assoc, orb_assoc. reflexivity.
Qed.

(** ** Removing only removes *)

(** [subseq a b]: [a] is [b] with some characters left out. *)
Inductive subseq : text -> text -> Prop :=
| subseq_nil : subseq [] []
| subseq_keep c a b : subseq a b -> subseq (c :: a) (c :: b)
| subseq_drop c a b : subseq a b -> subseq a (c :: b).

Lemma subseq_drop_app w : forall a b, subseq a b -> subseq a (w ++ b).
Proof.
  induction w as [|c w IH]; intros a b H; [exact H|].
  simpl. apply subseq_drop. apply IH. exact H.
Qed.

Lemma rewrites_subseq : forall s s',
  rewrites (fun _ R => R = []) s s' -> subseq s' s.
Proof.
  induction 1 as [|c s s' _ IH|w R s s' HR _ IH].
  - constructor.
  - constructor. exact IH.
  - subst R. simpl. apply subseq_drop_app. exact IH.
Qed.

(** X18: the removal of the definition blocks only leaves characters out:
    what it returns is the text with some of its characters missing, the
    others in their order. *)
Theorem removal_only_removes (txt : text) :
  subseq (remove_gate_blocks txt) txt.
Proof.
  apply rewrites_subseq. unfold remove_gate_blocks.
  apply re_sub_fun_rewrites. intros prev s m _ w _. reflexivity.
Qed.

(** ** Lines written and read back *)

(** X19: lines that hold no line boundary, joined by newlines and ended
    by one as the script writes them, are the lines [splitlines] reads
    back. *)
Theorem lines_read_back (ls : list text) :
  ls <> [] -> Forall (fun l => plain l = true) ls ->
  Str.splitlines (Str.join [NL] ls ++ [NL]) = ls.
Proof.
  intros Hne Hp. rewrite (join_unlines ls Hne).
  apply splitlines_unlines_id. exact Hp.
Qed.

Lemma lines_read_back_witness :
  Str.splitlines (Str.join [NL] [T "OPENQASM 2.0;"; T ""; T "h q[0];"] ++ [NL])
  = [T "OPENQASM 2.0;"; T ""; T "h q[0];"].
Proof.
  apply (lines_read_back [T "OPENQASM 2.0;"; T ""; T "h q[0];"]);
    [discriminate|repeat constructor].
Defined.

(** ** The expansion of a call *)

(** A call in its usual form: the name, the actual parameters in
    parentheses if there are any, a space, the actual qubits, a
    semicolon. *)
Definition call_line (name : text) (args : option text) (qs : text) : text :=
  name ++ pars_text args ++ T " " ++ qs ++ T ";".

Definition args_ok (args : option text) : bool :=
  match args with
  | Some pt => forallb (not_char ")") pt && forallb (not_char "\") pt
  | None => true
  end.

Definition qs_ok (qs : text) : bool :=
  match qs with
  | [] => false
  | c :: _ => is_word c
  end
  && forallb is_args qs.

Lemma args_no_semicolon c : is_args c = true -> is_char ";" c = false.
Proof. char_cases c. Qed.

Lemma call_groups name args qs :
  name <> [] -> forallb is_word name = true ->
  args_ok args = true -> qs_ok qs = true ->
  exists m,
    re_match call_pat (call_line name args qs) = Some m
    /\ group_text 1 m = name
    /\ group 2 m = option_map (fun pt => T "(" ++ pt ++ T ")") args
    /\ group_text 3 m = qs.
Proof.
  intros Hne Hw Ha Hq.
  unfold qs_ok in Hq. apply andb_true_iff in Hq. destruct Hq as [Hq1 Hq].
  destruct qs as [|c q']; [discriminate|].
  assert (Hsp : stops is_space ((c :: q') ++ T ";")).
  { simpl. apply word_not_space. exact Hq1. }
  assert (Hop : stops (is_char "(") ((c :: q') ++ T ";")).
  { simpl. revert Hq1. clear. char_cases c. }
  assert (Hqne : c :: q' <> []) by discriminate.
  unfold re_match, match_at. rewrite rmatch_run_k.
  unfold call_pat, call_line, start.
  rewrite run_k_cat. unfold run_k at 1. cbn [rmatch ms_prev guard flat_map].
  rewrite app_nil_r.
  rewrite run_k_cat, run_k_star_none
    by (apply (stops_app _ is_word); [assumption|assumption|apply word_not_space]).
  rewrite run_k_cat.
  destruct args as [pt|]; cbn [pars_text T list_ascii_of_string app option_map].
  - unfold args_ok in Ha. apply andb_true_iff in Ha. destruct Ha as [Hnp _].
    eexists. split.
    + apply hd_some_grp_plus; [exact Hw|exact Hne|reflexivity|].
      rewrite run_k_cat, run_k_star_none by reflexivity.
      rewrite run_k_cat. apply hd_some_opt_take.
      rewrite run_k_grp, run_k_cat. lit_step. rewrite run_k_cat.
      rewrite <- app_assoc. cbn [app].
      apply hd_some_star; [exact Hnp|reflexivity|].
      lit_step. cbn [set_group ms_prev ms_rest ms_pos ms_caps].
      rewrite run_k_cat.
      apply (hd_some_star is_space _ _ [" "%char] ((c :: q') ++ [";"%char]));
        [reflexivity|exact Hsp|].
      rewrite run_k_cat.
      apply hd_some_grp_plus; [exact Hq|exact Hqne|reflexivity|].
      rewrite run_k_cat. lit_step.
      rewrite run_k_cat, run_k_star_none by exact I.
      unfold run_k. cbn [rmatch at_eos ms_rest guard flat_map app]. reflexivity.
    + cbn [ms_pos ms_rest]. rewrite firstn_pars. repeat split.
  - eexists. split.
    + apply hd_some_grp_plus; [exact Hw|exact Hne|reflexivity|].
      rewrite run_k_cat.
      apply (hd_some_star is_space _ _ [" "%char] ((c :: q') ++ [";"%char]));
        [reflexivity|exact Hsp|].
      rewrite run_k_cat. apply hd_some_opt_skip.
      { rewrite run_k_grp, run_k_cat, run_k_lit.
        cbn [T list_ascii_of_string]. rewrite lit_miss by exact Hop. reflexivity. }
      rewrite run_k_cat, run_k_star_none by exact Hsp.
      rewrite run_k_cat.
      apply hd_some_grp_plus; [exact Hq|exact Hqne|reflexivity|].
      rewrite run_k_cat. lit_step.
      rewrite run_k_cat, run_k_star_none by exact I.
      unfold run_k. cbn [rmatch at_eos ms_rest guard flat_map app]. reflexivity.
    + repeat split.
Qed.

Lemma forallb_no_backslash w :
  forallb (not_char "\") w = true -> no_backslash w.
Proof.
  unfold no_backslash. intros H. apply existsb_none.
  revert H. apply forallb_imp. intros c Hc. exact Hc.
Qed.

Lemma args_no_backslash w : forallb is_args w = true -> forallb (not_char "\") w = true.
Proof. apply forallb_imp. intros c. char_cases c. Qed.

Lemma split_strip_no_backslash w :
  forallb (not_char "\") w = true -> Forall no_backslash (split_strip w).
Proof.
  intros H. eapply Forall_impl; [|apply (all_split_strip (not_char "\") w H)].
  intros a. apply forallb_no_backslash.
Qed.

(** The actual parameters of a call written with [args]. *)
Definition actuals_of (args : option text) : list text :=
  match args with
  | Some pt => split_strip pt
  | None => []
  end.

(** X20: a call of a defined gate in the usual form is replaced by the
    body lines of the definition, one line for one, each with the formal
    parameters and then the formal qubits substituted in the order of the
    definition and then lowered.  The actual texts are the texts between
    the commas, stripped; formals and actuals are paired from the left. *)
Theorem call_expansion (defs : Dict.t gate_def) (gdef : gate_def)
    (name : text) (args : option text) (qs : text) :
  name <> [] -> forallb is_word name = true ->
  args_ok args = true -> qs_ok qs = true ->
  Dict.get name defs = Some gdef ->
  let p_map := Dict.of_pairs (combine (params gdef) (actuals_of args)) in
  let q_map := Dict.of_pairs (combine (qubits gdef) (split_strip qs)) in
  expand_line defs (call_line name args qs)
  = Done (map (fun b => convert_line (subst_pure q_map (subst_pure p_map b)))
              (body gdef), true).
Proof.
  intros Hne Hw Ha Hq Hg p_map q_map.
  destruct (call_groups name args qs Hne Hw Ha Hq) as [m [Hm [G1 [G2 G3]]]].
  unfold expand_line. rewrite Hm, G1, Hg.
  assert (Ep : actual_params m = actuals_of args).
  { unfold actual_params. rewrite G2. destruct args as [pt|]; [|reflexivity].
    cbn [option_map actuals_of]. rewrite slice_pars. reflexivity. }
  assert (Eq : actual_qubits m = split_strip qs).
  { unfold actual_qubits. rewrite G3. reflexivity. }
  unfold expand_call. rewrite Ep, Eq. fold p_map q_map.
  assert (Hp : Forall no_backslash (actuals_of args)).
  { destruct args as [pt|]; [|constructor].
    unfold args_ok in Ha. apply andb_true_iff in Ha.
    apply split_strip_no_backslash. tauto. }
  assert (Hqb : Forall no_backslash (split_strip qs)).
  { unfold qs_ok in Hq. apply andb_true_iff in Hq.
    apply split_strip_no_backslash, args_no_backslash. tauto. }
  rewrite (map_result_done _ _ _
             (fun b => convert_line (subst_pure q_map (subst_pure p_map b)))).
  - reflexivity.
  - intros b. unfold subst_body_line.
    rewrite subst_map_done
      by (apply dict_of_pairs_values, combine_snd_forall; exact Hp).
    simpl. rewrite subst_map_done
      by (apply dict_of_pairs_values, combine_snd_forall; exact Hqb).
    reflexivity.
Qed.

Lemma call_expansion_witness :
  expand_line (gate_defs nested_text)
    (call_line (T "inner") (Some (T "pi/4")) (T "q[0], q[1]"))
  = Done ([ Str.join [NL]
              [ T "u(0,0,((pi/4)/2)) q[1];"; T "cx q[0],q[1];";
                T "u(0,0,-((pi/4)/2)) q[1];"; T "cx q[0],q[1];" ] ], true).
Proof.
  apply (call_expansion (gate_defs nested_text)
           (GateDef [T "x"] [T "c"; T "t"] [T "cp(x) c,t;"])
           (T "inner") (Some (T "pi/4")) (T "q[0], q[1]"));
    try reflexivity; discriminate.
Defined.

(** ** Substitution all at once *)

(** Every identifier of the line that is a key of the map is replaced by
    the text the map gives it; nothing that is written is read again. *)
Definition replace_all (mp : Dict.t text) (line : text) : text :=
  List.concat
    (map (fun tok => match Dict.get tok mp with Some a => a | None => tok end)
       (tokens line)).

Definition identifier (f : text) : Prop :=
  f <> [] /\ forallb is_word f = true.

(** [tok] is one piece of a line: an identifier or one other character. *)
Definition piece (tok : text) : Prop :=
  identifier tok \/ exists c, tok = [c] /\ is_word c = false.

Lemma tokens_word run :
  run <> [] -> forallb is_word run = true -> tokens run = [run].
Proof.
  intros Hne Hr. rewrite <- (app_nil_r run) at 1.
  rewrite tokens_run by (assumption || exact I). reflexivity.
Qed.

Lemma tokens_piece tok : piece tok -> tokens tok = [tok].
Proof.
  intros [[Hne Hw]|[c [-> Hc]]].
  - apply tokens_word; assumption.
  - rewrite tokens_other by exact Hc. reflexivity.
Qed.

(** Cutting a text starting at an identifier or at another character. *)
Lemma tokens_cases (s : text) :
  s = []
  \/ (exists run rest, s = run ++ rest /\ run <> []
        /\ forallb is_word run = true /\ stops is_word rest
        /\ List.length rest < List.length s)
  \/ (exists c s', s = c :: s' /\ is_word c = false).
Proof.
  destruct s as [|c s]; [left; reflexivity|right].
  destruct (is_word c) eqn:Hc; [left|right; eauto].
  destruct (span_spec is_word (c :: s)) as [E [Hu Hv]].
  destruct (span is_word (c :: s)) as [run rest] eqn:Esp.
  simpl in E, Hu, Hv.
  assert (Hne : run <> []).
  { simpl in Esp. rewrite Hc in Esp. destruct (span is_word s).
    inversion Esp. discriminate. }
  exists run, rest. repeat split; try assumption.
  rewrite E, length_app. destruct run; [congruence|simpl; lia].
Qed.

Lemma tokens_pieces : forall n s, List.length s <= n -> Forall piece (tokens s).
Proof.
  induction n as [|n IH]; intros s Hn.
  - destruct s; [constructor|simpl in Hn; lia].
  - destruct (tokens_cases s) as [->|[[run [rest [-> [Hne [Hr [Hs Hl]]]]]]|[c [s' [-> Hc]]]]].
    + constructor.
    + rewrite tokens_run by assumption. constructor.
      * left. split; assumption.
      * apply IH. lia.
    + rewrite tokens_other by exact Hc. constructor.
      * right. eauto.
      * apply IH. simpl in Hn. lia.
Qed.

Lemma concat_tokens : forall n s, List.length s <= n -> List.concat (tokens s) = s.
Proof.
  induction n as [|n IH]; intros s Hn.
  - destruct s; [reflexivity|simpl in Hn; lia].
  - destruct (tokens_cases s) as [->|[[run [rest [-> [Hne [Hr [Hs Hl]]]]]]|[c [s' [-> Hc]]]]].
    + reflexivity.
    + rewrite tokens_run by assumption. cbn [List.concat].
      rewrite IH by lia. reflexivity.
    + rewrite tokens_other by exact Hc. cbn [List.concat app].
      rewrite IH by (simpl in Hn; lia). reflexivity.
Qed.

Lemma tokens_go_app_stop : forall x cur y,
  stops is_word y -> tokens_go cur (x ++ y) = tokens_go cur x ++ tokens y.
Proof.
  induction x as [|c x IH]; intros cur y Hy.
  - cbn [app tokens_go]. apply tokens_go_stop. exact Hy.
  - cbn [app tokens_go]. destruct (is_word c).
    + apply IH. exact Hy.
    + rewrite IH by exact Hy. rewrite <- app_assoc. reflexivity.
Qed.

Lemma tokens_app_stop x y :
  stops is_word y -> tokens (x ++ y) = tokens x ++ tokens y.
Proof. apply tokens_go_app_stop. Qed.

Section Through.

(** A replacement of pieces that leaves the other characters alone. *)
Variable g : text -> text.
Hypothesis g_other : forall c, is_word c = false -> g [c] = [c].

Lemma through_stops s :
  stops is_word s -> stops is_word (List.concat (map g (tokens s))).
Proof.
  destruct s as [|c s]; [intros _; exact I|]. simpl. intros Hc.
  rewrite tokens_other by exact Hc. cbn [map List.concat].
  rewrite g_other by exact Hc. exact Hc.
Qed.

Lemma tokens_through : forall n s, List.length s <= n ->
  tokens (List.concat (map g (tokens s)))
  = flat_map (fun tok => tokens (g tok)) (tokens s).
Proof.
  induction n as [|n IH]; intros s Hn.
  - destruct s; [reflexivity|simpl in Hn; lia].
  - destruct (tokens_cases s) as [->|[[run [rest [-> [Hne [Hr [Hs Hl]]]]]]|[c [s' [-> Hc]]]]].
    + reflexivity.
    + rewrite tokens_run by assumption. cbn [map List.concat flat_map].
      rewrite tokens_app_stop by (apply through_stops; exact Hs).
      rewrite IH by lia. reflexivity.
    + rewrite tokens_other by exact Hc. cbn [map List.concat flat_map].
      rewrite g_other by exact Hc. cbn [app].
      rewrite !tokens_other by exact Hc. cbn [app].
      rewrite IH by (simpl in Hn; lia). reflexivity.
Qed.

End Through.

Lemma get_other (mp : Dict.t text) (c : ascii) :
  Forall identifier (map fst mp) -> is_word c = false -> Dict.get [c] mp = None.
Proof.
  intros H Hc. apply dict_get_none. intros Hin.
  rewrite Forall_forall in H. destruct (H _ Hin) as [_ Hw].
  simpl in Hw. rewrite Hc in Hw. discriminate.
Qed.

Lemma concat_flat_map (A : Type) (h : A -> list text) (l : list A) :
  List.concat (flat_map h l) = List.concat (map (fun x => List.concat (h x)) l).
Proof.
  induction l as [|x l IH]; [reflexivity|].
  cbn [flat_map map List.concat]. rewrite concat_app, IH. reflexivity.
Qed.

Lemma map_of_flat_map (A : Type) (h : text -> text) (k : A -> list text)
    (l : list A) :
  map h (flat_map k l) = flat_map (fun x => map h (k x)) l.
Proof.
  induction l as [|x l IH]; [reflexivity|].
  cbn [flat_map]. rewrite map_app, IH. reflexivity.
Qed.

Lemma text_eqb_sym a b : text_eqb a b = text_eqb b a.
Proof.
  destruct (text_eqb b a) eqn:E.
  - apply text_eqb_eq in E. subst. apply text_eqb_refl.
  - apply text_eqb_neq. intros ->. rewrite text_eqb_refl in E. discriminate.
Qed.

Lemma map_id_on (h : text -> text) (l : list text) :
  Forall (fun x => h x = x) l -> map h l = l.
Proof.
  induction 1 as [|x l Hx _ IH]; [reflexivity|]. simpl. rewrite Hx, IH. reflexivity.
Qed.

(** One substitution, then all the others at once. *)
Lemma replace_step (f a : text) (mp : Dict.t text) (line : text) :
  identifier f -> Forall identifier (map fst mp) ->
  Forall (fun tok => Dict.get tok mp = None) (tokens a) ->
  replace_all mp (replace_identifier f a line) = replace_all ((f, a) :: mp) line.
Proof.
  intros [Hfne Hfw] Hk Ha. unfold replace_all, replace_identifier.
  rewrite (tokens_through (fun tok => if text_eqb tok f then a else tok))
    with (n := List.length line); [| |lia].
  - rewrite map_of_flat_map, concat_flat_map. f_equal.
    apply map_ext_in. intros tok Hin. cbn [Dict.get].
    rewrite (text_eqb_sym f tok).
    destruct (text_eqb tok f) eqn:E.
    + rewrite map_id_on; [apply (concat_tokens (List.length a)); lia|].
      eapply Forall_impl; [|exact Ha]. intros x Hx. cbn beta. rewrite Hx.
      reflexivity.
    + assert (Hp : piece tok).
      { pose proof (tokens_pieces (List.length line) line (le_n _)) as P.
        rewrite Forall_forall in P. apply P. exact Hin. }
      rewrite (tokens_piece tok Hp). cbn [map List.concat].
      apply app_nil_r.
  - intros c Hc. rewrite text_eqb_neq; [reflexivity|].
    intros <-. simpl in Hfw. rewrite Hc in Hfw. discriminate.
Qed.

(** The formal texts are identifiers, no actual text holds a formal text
    as one of its identifiers, and no actual text holds a backslash. *)
Definition hygienic (mp : Dict.t text) : bool :=
  forallb
    (fun fa =>
       negb (text_eqb (fst fa) []) && forallb is_word (fst fa)
       && forallb (fun tok => negb (Dict.mem tok mp)) (tokens (snd fa))
       && negb (existsb (is_char "\") (snd fa)))
    mp.

Lemma hygienic_facts (mp : Dict.t text) :
  hygienic mp = true ->
  Forall identifier (map fst mp)
  /\ Forall (fun a => Forall (fun tok => Dict.get tok mp = None) (tokens a))
       (map snd mp)
  /\ Forall no_backslash (map snd mp).
Proof.
  unfold hygienic. intros H. rewrite forallb_forall in H.
  repeat split; apply Forall_map, Forall_forall; intros fa Hin;
    specialize (H fa Hin);
    apply andb_true_iff in H; destruct H as [H H4];
    apply andb_true_iff in H; destruct H as [H H3];
    apply andb_true_iff in H; destruct H as [H1 H2].
  - split; [|exact H2]. intros E. rewrite E in H1. discriminate.
  - apply Forall_forall. intros tok Ht. rewrite forallb_forall in H3.
    specialize (H3 tok Ht). unfold Dict.mem in H3.
    destruct (Dict.get tok mp); [discriminate|reflexivity].
  - apply negb_true_iff in H4. exact H4.
Qed.

Lemma replace_all_nil line : replace_all [] line = line.
Proof.
  unfold replace_all. cbn [Dict.get]. rewrite map_id.
  apply (concat_tokens (List.length line)). lia.
Qed.

Lemma get_cons_none (f a tok : text) (mp : Dict.t text) :
  Dict.get tok ((f, a) :: mp) = None -> Dict.get tok mp = None.
Proof. cbn [Dict.get]. destruct (text_eqb f tok); [discriminate|auto]. Qed.

Lemma subst_pure_all : forall (mp : Dict.t text) line,
  Forall identifier (map fst mp) ->
  Forall (fun a => Forall (fun tok => Dict.get tok mp = None) (tokens a))
    (map snd mp) ->
  subst_pure mp line = replace_all mp line.
Proof.
  induction mp as [|[f a] mp IH]; intros line Hk Hv.
  - rewrite replace_all_nil. reflexivity.
  - cbn [map fst snd] in Hk, Hv.
    inversion Hk as [|? ? Hf Hk']; subst. inversion Hv as [|? ? Ha Hv']; subst.
    assert (Ha' : Forall (fun tok => Dict.get tok mp = None) (tokens a)).
    { eapply Forall_impl; [|exact Ha]. intros tok. apply get_cons_none. }
    rewrite <- replace_step by assumption.
    unfold subst_pure. cbn [fold_left fst snd]. fold (subst_pure mp).
    unfold re_sub_lit, re_sub_fun. destruct Hf as [Hfne Hfw].
    rewrite (sub_tokens f a Hfne Hfw (List.length line)) by (auto; lia).
    apply IH; [exact Hk'|].
    eapply Forall_impl; [|exact Hv']. intros x Hx.
    eapply Forall_impl; [|exact Hx]. intros tok. apply get_cons_none.
Qed.

Lemma subst_pure_app (p q : Dict.t text) line :
  subst_pure (p ++ q) line = subst_pure q (subst_pure p line).
Proof. unfold subst_pure. apply fold_left_app. Qed.

(** X21: when the formal texts are identifiers and no actual text names
    a formal text, a body line is rewritten as if all formals were
    replaced at once: every identifier of the line that is a formal text
    becomes its actual text, a parameter before a qubit of the same
    name, and the result is lowered. *)
Theorem substitution_at_once (p_map q_map : Dict.t text) (b : text) :
  hygienic (p_map ++ q_map) = true ->
  subst_body_line p_map q_map b
  = Done (convert_line (replace_all (p_map ++ q_map) b)).
Proof.
  intros H. destruct (hygienic_facts _ H) as [Hk [Hv Hb]].
  rewrite map_app in Hb. apply Forall_app in Hb. destruct Hb as [Hbp Hbq].
  unfold subst_body_line.
  rewrite (subst_map_done p_map b Hbp). cbn [bind].
  rewrite (subst_map_done q_map _ Hbq). cbn [bind].
  rewrite <- subst_pure_app, subst_pure_all by assumption. reflexivity.
Qed.

Lemma substitution_at_once_witness :
  subst_body_line [(T "x", T "pi/2")] [(T "a", T "q[1]"); (T "b", T "q[0]")]
    (T "crz(x) a,b; // x2")
  = Done (T "crz(pi/2) q[1],q[0]; // x2").
Proof.
  apply (substitution_at_once [(T "x", T "pi/2")]
           [(T "a", T "q[1]"); (T "b", T "q[0]")] (T "crz(x) a,b; // x2")).
  reflexivity.
Defined.

(** ** The whole script on a program in the usual layout *)

(** X22: on a program in the usual layout the script takes the lines
    outside the definitions, keeps the first of them as it is, and runs
    the expansion loop on the others against the table of the definitions
    of the program; the lines the loop returns that are not blank follow
    the first line. *)
Theorem script_usual_layout (fuel : nat) (doc : list item) (header : text)
    (body_part : list text) :
  forallb item_ok doc = true ->
  flat_map outside_lines doc = header :: body_part ->
  script fuel (render doc)
  = bind (expand_loop fuel (fold_left (fun d it => def_item it d) doc [])
            body_part)
      (fun body_lines => Done (header ++ [NL] ++ clean body_lines ++ [NL])).
Proof.
  intros H E.
  assert (Hd : Forall (fun it => item_ok it = true) doc).
  { apply Forall_forall. apply forallb_forall. exact H. }
  destruct (item_lines_plain doc Hd) as [Hl Ho].
  unfold script.
  assert (R : Str.splitlines (remove_gate_blocks (render doc))
              = header :: body_part).
  { unfold remove_gate_blocks, re_sub_fun.
    rewrite (remove_render doc None Hd (or_introl eq_refl)).
    rewrite (splitlines_unlines_id _ Ho). exact E. }
  assert (G : gate_defs (render doc)
              = fold_left (fun d it => def_item it d) doc []).
  { unfold gate_defs, render. rewrite (splitlines_unlines_id _ Hl).
    unfold parse. apply parse_render_defs; [exact Hd|lia]. }
  rewrite R, G. reflexivity.
Qed.

Lemma script_usual_layout_witness :
  script 3 (render usual_doc)
  = Done (unlines [ T "OPENQASM 2.0;"; T "qreg q[2];"; T "u(0,0,1) q[0];";
                    T "u(0,0,((2)/2)) q[1];"; T "cx q[0],q[1];";
                    T "u(0,0,-((2)/2)) q[1];"; T "cx q[0],q[1];" ]).
Proof.
  rewrite (script_usual_layout 3 usual_doc (T "OPENQASM 2.0;")
             [T "qreg q[2];"; T "foo(1,2) q[0],q[1];"] eq_refl eq_refl).
  vm_compute. reflexivity.
Defined.
